(** * RPKI-Tree: the certificate tree of [src/PKITree.py] and the range
      normalizer of [src/imports.py]

    A shallow embedding of the [PKITree] class (the three relation maps,
    [insert_node], the lookups, [get_path], the classification predicates
    and [get_resource_list]) and of [get_cidr], followed by the properties
    established about them.

    Conventions.
    - A Python value that is "a string or [None]" is an [option string];
      a raised exception is [Raise e]; a loop that may run forever takes a
      fuel argument and answers [None] when the fuel is used up.
    - Records read from the archive are JSON objects: [dict] keeps the
      insertion order of the keys, as Python's [dict] does.
    - Calls to [logger] and [print] change nothing the program reads back
      and are left out. *)

From Stdlib Require Import ZArith Lia Ascii String List.
From stdpp Require Import base option list gmap strings pretty.

Local Open Scope string_scope.
Local Open Scope list_scope.
Local Open Scope Z_scope.
Local Set Warnings "-register-all".

(** ** Python values *)

(** What [json.loads] produces. Numbers are the integers; Python's [bool]
    is a subtype of [int], which [json_eqb] and [as_int] account for. *)
Inductive json : Type :=
| JNull
| JBool (b : bool)
| JInt (n : Z)
| JStr (s : string)
| JList (l : list json)
| JDict (d : list (string * json)).

Abbreviation dict := (list (string * json)).

Inductive exn : Type :=
| TypeError
| KeyError
| AttributeError
| ValueError
| UnboundLocalError.

Inductive result (A : Type) : Type :=
| Ok (a : A)
| Raise (e : exn).
Arguments Ok {A} a.
Arguments Raise {A} e.

Definition result_bind {A B} (m : result A) (k : A → result B) : result B :=
  match m with
  | Ok a => k a
  | Raise e => Raise e
  end.

Notation "x <- m ;; k" := (result_bind m (λ x, k))
  (at level 100, m at next level, right associativity, only parsing).

(** [key in d] and [d[key]] on a dict. The keys of a dict are distinct;
    the pairs are kept in insertion order. *)
Fixpoint dict_get {A} (k : string) (d : list (string * A)) : option A :=
  match d with
  | [] => None
  | (k', v) :: d' => if String.eqb k k' then Some v else dict_get k d'
  end.

Definition dict_has {A} (k : string) (d : list (string * A)) : bool :=
  match dict_get k d with Some _ => true | None => false end.

Definition dict_item (d : dict) (k : string) : result json :=
  match dict_get k d with
  | Some v => Ok v
  | None => Raise KeyError
  end.

(** [v[key]] with a string key on any value: only a dict accepts it. *)
Definition subscript (v : json) (k : string) : result json :=
  match v with
  | JDict d => dict_item d k
  | _ => Raise TypeError
  end.

(** Python's [==] on JSON values: [True == 1], lists compare element by
    element, dicts compare as maps (the order of the keys is irrelevant). *)
Fixpoint json_eqb (a b : json) {struct a} : bool :=
  match a, b with
  | JNull, JNull => true
  | JBool x, JBool y => Bool.eqb x y
  | JBool x, JInt n => n =? (if x then 1 else 0)
  | JInt n, JBool x => n =? (if x then 1 else 0)
  | JInt m, JInt n => m =? n
  | JStr s, JStr s' => String.eqb s s'
  | JList l, JList l' =>
      (fix go (l l' : list json) {struct l} : bool :=
         match l, l' with
         | [], [] => true
         | x :: l, y :: l' => json_eqb x y && go l l'
         | _, _ => false
         end) l l'
  | JDict d, JDict d' =>
      (length d =? length d')%nat &&
      (fix go (d : dict) {struct d} : bool :=
         match d with
         | [] => true
         | (k, v) :: d =>
             match dict_get k d' with
             | Some v' => json_eqb v v'
             | None => false
             end && go d
         end) d
  | _, _ => false
  end.

(** [x in l] on a list. *)
Definition list_contains (x : json) (l : list json) : bool :=
  existsb (json_eqb x) l.

(** A value used as an integer ([bool] included). *)
Definition as_int (v : json) : result Z :=
  match v with
  | JInt n => Ok n
  | JBool b => Ok (if b then 1 else 0)
  | _ => Raise TypeError
  end.

(** [for x in v]: the items a value yields when iterated. *)
Definition chars (s : string) : list json :=
  map (λ c, JStr (String c EmptyString)) (list_ascii_of_string s).

Definition iterate (v : json) : result (list json) :=
  match v with
  | JList l => Ok l
  | JDict d => Ok (map (λ kv, JStr kv.1) d)
  | JStr s => Ok (chars s)
  | _ => Raise TypeError
  end.

(** [range(a, b)] as a list. *)
Definition range (a b : Z) : list Z :=
  map (λ i, a + Z.of_nat i) (seq 0 (Z.to_nat (b - a))).

(** ** Strings *)

Fixpoint is_prefix (p s : string) : bool :=
  match p, s with
  | EmptyString, _ => true
  | String a p', String b s' => Ascii.eqb a b && is_prefix p' s'
  | String _ _, EmptyString => false
  end.

(** [sub in s] for strings. *)
Fixpoint str_contains (sub s : string) : bool :=
  is_prefix sub s ||
  match s with
  | EmptyString => false
  | String _ s' => str_contains sub s'
  end.

(** [s.replace(old, new)] for a non-empty [old]: left to right, without
    overlap. [skip] counts the characters of a match still to be dropped. *)
Fixpoint replace_from (old new s : string) (skip : nat) : string :=
  match s with
  | EmptyString => EmptyString
  | String c s' =>
      match skip with
      | S n => replace_from old new s' n
      | O =>
          if is_prefix old s
          then new +:+ replace_from old new s' (String.length old - 1)
          else String c (replace_from old new s' 0)
      end
  end.

Definition str_replace (old new s : string) : string := replace_from old new s 0.

(** [s.split(sep)[0]] for a one-character separator. *)
Fixpoint split_head (sep : ascii) (s : string) : string :=
  match s with
  | EmptyString => EmptyString
  | String c s' => if Ascii.eqb c sep then EmptyString else String c (split_head sep s')
  end.

(** ** The tree *)

(** The relation maps of [PKITree.__init__]. [parent_to_child] and
    [child_to_parent] are [defaultdict]s: reading a missing key through
    [d[k]] stores the default there, reading through [d.get(k, None)] does
    not. The per-node resource caches filled by [populate_resources] play
    no part in what follows and are not represented. *)
Record PKITree : Type := mkTree {
  parent_to_child : gmap string (list string);
  child_to_parent : gmap string string;
  node_data : gmap string dict
}.

Definition empty_tree : PKITree := mkTree ∅ ∅ ∅.

(** [d[k].append(x)] on a [defaultdict(list)]. *)
Definition dd_append (k x : string) (d : gmap string (list string))
  : gmap string (list string) :=
  <[k := default [] (d !! k) ++ [x]]> d.

(** [d[k]] on a [defaultdict(str)]: the value read and the map afterwards. *)
Definition dd_get (k : string) (d : gmap string string) : string * gmap string string :=
  match d !! k with
  | Some v => (v, d)
  | None => (EmptyString, <[k := EmptyString]> d)
  end.

Definition insert_node (t : PKITree) (ski aki : string) (data : dict) : PKITree :=
  if decide (is_Some (node_data t !! ski)) then t
  else
    let nd := <[ski := data]> (node_data t) in
    let p2c := if decide (ski ≠ aki)
               then dd_append aki ski (parent_to_child t)
               else parent_to_child t in
    let '(cur, c2p) := dd_get ski (child_to_parent t) in
    if (0 <? String.length cur)%nat then mkTree p2c c2p nd
    else
      let aki := if decide (ski = aki) then EmptyString else aki in
      let c2p := <[ski := aki]> c2p in
      let c2p := if decide (is_Some (c2p !! aki)) then c2p
                 else <[aki := EmptyString]> c2p in
      mkTree p2c c2p nd.

Definition get_parent (t : PKITree) (ski : string) : option string :=
  child_to_parent t !! ski.

Definition get_children (t : PKITree) (ski : string) : option (list string) :=
  parent_to_child t !! ski.

Definition get_data (t : PKITree) (ski : string) : option dict :=
  node_data t !! ski.

(** The trees a program can hold: [PKITree()] followed by calls of
    [insert_node]. *)
Definition call : Type := string * string * dict.

Definition apply_call (t : PKITree) (c : call) : PKITree :=
  insert_node t c.1.1 c.1.2 c.2.

Definition build (calls : list call) : PKITree :=
  foldl apply_call empty_tree calls.

(** The SKIs a sequence of calls carries. *)
Definition skis (calls : list call) : list string := map (λ c : call, c.1.1) calls.

Section Display.
(** [str(v)] as an f-string applies it to a field of the record; the
    text Python prints for a value is taken as given. *)
Variable py_str : json → string.

Definition get_url (t : PKITree) (ski : string) : result (option string) :=
  match get_data t ski with
  | None => Ok None
  | Some data =>
      url <- dict_item data "file" ;;
      Ok (Some ("https://console.rpki-client.org/" +:+ py_str url +:+ ".html"))
  end.
End Display.

(** [v.replace(...)]: only a string has the method. *)
Definition as_str (v : json) : result string :=
  match v with
  | JStr s => Ok s
  | _ => Raise AttributeError
  end.

Definition get_ca_domain (t : PKITree) (ski : string) : result string :=
  match get_data t ski with
  | None => Raise TypeError
  | Some data =>
      url <- (if dict_has "carepository" data
             then dict_item data "carepository"
             else dict_item data "file") ;;
      url <- as_str url ;;
      let url := str_replace "rsync://" "" url in
      Ok (split_head "/" url)
  end.

(** [get_path]. The loop variable [ski] becomes [None] when [get_parent]
    finds no entry, and [len(None)] raises. *)
Fixpoint get_path_loop (fuel : nat) (t : PKITree) (ski : option string)
    (path_list : list string) : option (result (list string)) :=
  match fuel with
  | O => None
  | S fuel =>
      match ski with
      | None => Some (Raise TypeError)
      | Some s =>
          if (0 <? String.length s)%nat then
            let path_list := path_list ++ [s] in
            let parent := get_parent t s in
            if decide (parent = Some s) then Some (Ok path_list)
            else get_path_loop fuel t parent path_list
          else Some (Ok path_list)
      end
  end.

Definition get_path (fuel : nat) (t : PKITree) (ski : string)
  : option (result (list string)) :=
  get_path_loop fuel t (Some ski) [].

(** ** Classification predicates *)

(** The predicates answer [True], [False] or [None]: [option bool]. *)
Definition is_roa (t : PKITree) (ski : string) : result (option bool) :=
  match get_data t ski with
  | None => Ok None
  | Some data =>
      ty <- dict_item data "type" ;;
      if json_eqb ty (JStr "roa") then Ok (Some true) else Ok (Some false)
  end.

(** Truth value of an answer in an [if]. *)
Definition truthy (b : option bool) : bool := default false b.

Definition hit_list : list json :=
  [ JDict [("asrange", JDict [("min", JInt 0); ("max", JInt 4294967295)])];
    JDict [("asrange", JDict [("min", JInt 1); ("max", JInt 4294967295)])];
    JDict [("ip_prefix", JStr "0.0.0.0/0")];
    JDict [("ip_prefix", JStr "::/0")];
    JDict [("asid_inherit", JBool true)];
    JDict [("ip_inherit", JBool true)];
    JDict [("ip_inherit", JBool true)] ].

(** [hit in v] for a dict [hit]: a list is searched, anything else
    rejects the operand. *)
Definition dict_in (hit : json) (v : json) : result bool :=
  match v with
  | JList l => Ok (list_contains hit l)
  | _ => Raise TypeError
  end.

Fixpoint any_hit (data : dict) (hits : list json) : result bool :=
  match hits with
  | [] => Ok false
  | hit :: hits =>
      sr <- dict_item data "subordinate_resources" ;;
      found <- dict_in hit sr ;;
      if found then Ok true else any_hit data hits
  end.

Definition is_rir_owned_rc (t : PKITree) (ski : string) : result (option bool) :=
  match get_data t ski with
  | None => Ok None
  | Some data =>
      if dict_has "tal" data then Ok (Some true)
      else
        roa <- is_roa t ski ;;
        if truthy roa then Ok (Some false)
        else
          found <- any_hit data hit_list ;;
          Ok (Some found)
  end.

(** [child_data["type"]] where [child_data] may be [None]. *)
Definition type_of (child_data : option dict) : result json :=
  match child_data with
  | None => Raise TypeError
  | Some d => dict_item d "type"
  end.

Fixpoint all_children_roa (t : PKITree) (child_list : list string) : result bool :=
  match child_list with
  | [] => Ok true
  | child :: rest =>
      ty <- type_of (get_data t child) ;;
      if negb (json_eqb ty (JStr "roa")) then Ok false
      else all_children_roa t rest
  end.

Definition is_end_node_certificate (t : PKITree) (ski : string) : result (option bool) :=
  match get_data t ski with
  | None => Ok None
  | Some data =>
      roa <- is_roa t ski ;;
      if truthy roa then Ok (Some false)
      else
        match get_children t ski with
        | None => Ok (Some true)
        | Some child_list =>
            b <- all_children_roa t child_list ;;
            Ok (Some b)
        end
  end.

Fixpoint some_child_roa (t : PKITree) (child_list : list string) : result bool :=
  match child_list with
  | [] => Ok false
  | child :: rest =>
      ty <- type_of (get_data t child) ;;
      if json_eqb ty (JStr "roa") then Ok true
      else some_child_roa t rest
  end.

Definition has_issued_roas (t : PKITree) (ski : string) : result (option bool) :=
  match get_data t ski with
  | None => Ok None
  | Some data =>
      ty <- dict_item data "type" ;;
      if negb (json_eqb ty (JStr "ca_cert")) then Ok (Some false)
      else
        rir <- is_rir_owned_rc t ski ;;
        if truthy rir then Ok (Some false)
        else
          match get_children t ski with
          | None => Ok (Some true)
          | Some child_list =>
              b <- some_child_roa t child_list ;;
              Ok (Some b)
          end
  end.

(** ** Resource collection: [get_resource_list] *)

Definition MAX_ASN_NUM : Z := 4294967295.

Fixpoint foldM {A B} (f : B → A → result B) (b : B) (l : list A) : result B :=
  match l with
  | [] => Ok b
  | x :: l => b' <- f b x ;; foldM f b' l
  end.

(** [":" in pfx] on any value. *)
Definition contains (x : string) (v : json) : result bool :=
  match v with
  | JStr s => Ok (str_contains x s)
  | JList l => Ok (list_contains (JStr x) l)
  | JDict d => Ok (dict_has x d)
  | _ => Raise TypeError
  end.

(** [set(l)]: lists and dicts cannot be hashed; equal values are kept
    once. The set is given by its members, in order of first occurrence. *)
Definition hashable (v : json) : bool :=
  match v with
  | JList _ | JDict _ => false
  | _ => true
  end.

Fixpoint set_add_all (l seen : list json) : list json :=
  match l with
  | [] => seen
  | x :: l =>
      if list_contains x seen then set_add_all l seen
      else set_add_all l (seen ++ [x])
  end.

Definition py_set (l : list json) : result (list json) :=
  if forallb hashable l then Ok (set_add_all l []) else Raise TypeError.

Section Collect.
(** The two libraries the traversal calls into are taken as given:
    [PyTricia] with its item assignment [pyt[pfx] = ski], which may
    reject the key, and the range normalizer applied to the [min] and
    [max] fields of an [ip_range] descriptor as they stand in the
    record (the normalizer on address text is [get_cidr] below). *)
Variable PyTricia : Type.
Variable pyt_new4 pyt_new6 : PyTricia.
Variable pyt_setitem : PyTricia → json → string → result PyTricia.
Variable cidr_of : json → json → result (list string).

(** One [k, v] pair of [resource.items()] in [extract_resources]. *)
Definition extract_item (acc : list json * list json) (kv : string * json)
  : result (list json * list json) :=
  let '(prefix_list, asn_list) := acc in
  let '(k, v) := kv in
  if bool_decide (k ∈ ["asid_inherit"; "ip_inherit"]) then Ok acc
  else if String.eqb k "ip_prefix" then Ok (prefix_list ++ [v], asn_list)
  else if String.eqb k "asid" then Ok (prefix_list, asn_list ++ [v])
  else if String.eqb k "ip_range" then
    start_ip <- subscript v "min" ;;
    end_ip <- subscript v "max" ;;
    cidrs <- cidr_of start_ip end_ip ;;
    Ok (prefix_list ++ map JStr cidrs, asn_list)
  else if String.eqb k "asrange" then
    start_asn <- subscript v "min" ;;
    end_asn <- subscript v "max" ;;
    if json_eqb end_asn (JInt MAX_ASN_NUM) then Ok acc
    else
      last <- as_int end_asn ;;
      first <- as_int start_asn ;;
      Ok (prefix_list, asn_list ++ map JInt (range first (last + 1)))
  else Ok acc.

(** [resource.items()]: only a dict has the method. *)
Definition items (resource : json) : result dict :=
  match resource with
  | JDict d => Ok d
  | _ => Raise AttributeError
  end.

Definition extract_resource (acc : list json * list json) (resource : json)
  : result (list json * list json) :=
  kvs <- items resource ;;
  foldM extract_item acc kvs.

Definition extract_resources (resource_list : json) : result (list json * list json) :=
  resources <- iterate resource_list ;;
  foldM extract_resource ([], []) resources.

(** [extract_vrps] appends the origin ASNs to [asn_list], which is the
    list of the enclosing [get_resource_list] (the name is not assigned
    in [extract_vrps]); its own [origin_asn_list] stays empty. The third
    component is the enclosing list afterwards. *)
Definition extract_vrp (acc : list json * list json) (vrp : json)
  : result (list json * list json) :=
  let '(prefix_list, asn_list) := acc in
  prefix <- subscript vrp "prefix" ;;
  asid <- subscript vrp "asid" ;;
  Ok (prefix_list ++ [prefix], asn_list ++ [asid]).

Definition extract_vrps (vrps : json) (asn_list : list json)
  : result (list json * list json * list json) :=
  items <- iterate vrps ;;
  acc <- foldM extract_vrp ([], asn_list) items ;;
  let origin_asn_list : list json := [] in
  Ok (acc.1, origin_asn_list, acc.2).

(** The state of the [while] loop. [curr_asn_list] is unbound until the
    first node of a handled type has been processed, and keeps its value
    from one iteration to the next. *)
Record state : Type := mkState {
  ctr : nat;
  pyt4 : PyTricia;
  pyt6 : PyTricia;
  asn_list : list json;
  curr_asn_list : option (list json);
  queue : list string
}.

Definition add_prefix (child : string) (tries : PyTricia * PyTricia) (pfx : json)
  : result (PyTricia * PyTricia) :=
  if json_eqb pfx (JStr "0.0.0.0/0") || json_eqb pfx (JStr "::/0") then Ok tries
  else
    v6 <- contains ":" pfx ;;
    if v6 then p6 <- pyt_setitem tries.2 pfx child ;; Ok (tries.1, p6)
    else p4 <- pyt_setitem tries.1 pfx child ;; Ok (p4, tries.2).

(** The end of the loop body, from [for pfx in curr_pfx_list] on. *)
Definition store (t : PKITree) (recursive : bool) (child : string)
    (curr_pfx_list : list json) (curr : option (list json)) (st : state)
  : result state :=
  tries <- foldM (add_prefix child) (pyt4 st, pyt6 st) curr_pfx_list ;;
  match curr with
  | None => Raise UnboundLocalError
  | Some l =>
      let asn_list := asn_list st ++ l in
      let queue :=
        if recursive then
          match get_children t child with
          | Some children =>
              if (0 <? length children)%nat then queue st ++ children else queue st
          | None => queue st
          end
        else queue st in
      Ok (mkState (ctr st) tries.1 tries.2 asn_list curr queue)
  end.

(** The loop body for [child], already popped from the queue. *)
Definition visit (t : PKITree) (resource_type : string) (recursive : bool)
    (child : string) (st : state) : result state :=
  match get_data t child with
  | None => Raise AttributeError
  | Some data =>
      ty <- dict_item data "type" ;;
      if json_eqb ty (JStr "roa") then
        if String.eqb resource_type "ca_cert" then Ok st
        else
          vrps <- dict_item data "vrps" ;;
          r <- extract_vrps vrps (asn_list st) ;;
          let '(curr_pfx_list, curr, outer) := r in
          store t recursive child curr_pfx_list (Some curr)
            (mkState (ctr st) (pyt4 st) (pyt6 st) outer (curr_asn_list st) (queue st))
      else if json_eqb ty (JStr "ca_cert") then
        if String.eqb resource_type "roa" then Ok st
        else
          sr <- dict_item data "subordinate_resources" ;;
          r <- extract_resources sr ;;
          store t recursive child r.1 (Some r.2) st
      else store t recursive child [] (curr_asn_list st) st
  end.

Fixpoint collect_loop (fuel : nat) (t : PKITree) (resource_type : string)
    (recursive : bool) (st : state) : option (result state) :=
  match fuel with
  | O => None
  | S fuel =>
      match queue st with
      | [] => Some (Ok st)
      | child :: rest =>
          let st := mkState (S (ctr st)) (pyt4 st) (pyt6 st) (asn_list st)
                      (curr_asn_list st) rest in
          match visit t resource_type recursive child st with
          | Raise e => Some (Raise e)
          | Ok st => collect_loop fuel t resource_type recursive st
          end
      end
  end.

Definition init_state (t : PKITree) (root : string) (recursive : bool) : state :=
  let children := get_children t root in
  let queue :=
    if recursive then
      match children with
      | Some children => [root] ++ children
      | None => [root]
      end
    else [root] in
  mkState 0 pyt_new4 pyt_new6 [] None queue.

Definition get_resource_list (fuel : nat) (t : PKITree) (root : string)
    (resource_type : string) (recursive : bool)
  : option (result (PyTricia * PyTricia * list json)) :=
  match collect_loop fuel t resource_type recursive (init_state t root recursive) with
  | None => None
  | Some (Raise e) => Some (Raise e)
  | Some (Ok st) =>
      Some (asns <- py_set (asn_list st) ;; Ok (pyt4 st, pyt6 st, asns))
  end.
End Collect.

Arguments mkState {PyTricia}.
Arguments ctr {PyTricia}.
Arguments pyt4 {PyTricia}.
Arguments pyt6 {PyTricia}.
Arguments asn_list {PyTricia}.
Arguments curr_asn_list {PyTricia}.
Arguments queue {PyTricia}.
Arguments add_prefix {PyTricia}.
Arguments store {PyTricia}.
Arguments visit {PyTricia}.
Arguments collect_loop {PyTricia}.
Arguments init_state {PyTricia}.
Arguments get_resource_list {PyTricia}.

(** ** The range normalizer: [get_cidr]

    [get_cidr] hands the two address texts to the standard [ipaddress]
    module. The parts of that module on its path are written out after
    CPython's [Lib/ipaddress.py]: [ip_address], [summarize_address_range],
    [_count_righthand_zero_bits], the network constructor and [str] of a
    network. The IPv4 text format is spelled out; the IPv6 text format is
    taken as given. [get_cidr] is embedded for a call that supplies
    [end_ip], as [extract_resources] does. *)

Definition is_digit (c : ascii) : bool :=
  let n := nat_of_ascii c in (48 <=? n)%nat && (n <=? 57)%nat.

Definition digit_value (c : ascii) : Z := Z.of_nat (nat_of_ascii c) - 48.

Fixpoint all_digits (s : string) : bool :=
  match s with
  | EmptyString => true
  | String c s' => is_digit c && all_digits s'
  end.

(** [int(s, 10)] on a string of digits. *)
Fixpoint decimal_value (s : string) (acc : Z) : Z :=
  match s with
  | EmptyString => acc
  | String c s' => decimal_value s' (10 * acc + digit_value c)
  end.

Fixpoint split (sep : ascii) (s : string) : list string :=
  match s with
  | EmptyString => [EmptyString]
  | String c s' =>
      if Ascii.eqb c sep then EmptyString :: split sep s'
      else
        match split sep s' with
        | h :: tl => String c h :: tl
        | [] => [String c EmptyString]
        end
  end.

(** [IPv4Address._parse_octet]; [None] stands for its [ValueError]. *)
Definition parse_octet (octet_str : string) : option Z :=
  match octet_str with
  | EmptyString => None
  | String c rest =>
      if negb (all_digits octet_str) then None
      else if (3 <? String.length octet_str)%nat then None
      else if negb (String.eqb octet_str "0") && Ascii.eqb c "0" then None
      else
        let octet_int := decimal_value octet_str 0 in
        if 255 <? octet_int then None else Some octet_int
  end.

(** [IPv4Address._ip_int_from_string], after the test for ["/"]. *)
Definition ipv4_of_string (ip_str : string) : option Z :=
  if str_contains "/" ip_str then None
  else
    match split "." ip_str with
    | [a; b; c; d] =>
        a ← parse_octet a; b ← parse_octet b; c ← parse_octet c; d ← parse_octet d;
        Some (Z.lor (Z.lor (Z.lor (Z.shiftl a 24) (Z.shiftl b 16)) (Z.shiftl c 8)) d)
    | _ => None
    end.

Inductive address : Type :=
| IPv4Address (ip : Z)
| IPv6Address (ip : Z).

Definition version (a : address) : Z :=
  match a with IPv4Address _ => 4 | IPv6Address _ => 6 end.

Definition max_prefixlen (a : address) : Z :=
  match a with IPv4Address _ => 32 | IPv6Address _ => 128 end.

Definition ip_int (a : address) : Z :=
  match a with IPv4Address n => n | IPv6Address n => n end.

(** A network as the constructor is given it: version, address, prefix
    length. *)
Record network : Type := mkNetwork {
  net_version : Z;
  network_address : Z;
  prefixlen : Z
}.

Definition bits_of_version (v : Z) : Z := if v =? 4 then 32 else 128.

Definition all_ones (bits : Z) : Z := 2 ^ bits - 1.

(** [int.bit_length]. *)
Definition bit_length (n : Z) : Z :=
  if n =? 0 then 0 else Z.log2 (Z.abs n) + 1.

Definition count_righthand_zero_bits (number bits : Z) : Z :=
  if number =? 0 then bits
  else Z.min bits (bit_length (Z.land (Z.lnot number) (number - 1))).

(** [IPv4Network((addr, prefixlen))] and [IPv6Network(...)], strict: the
    address and the prefix length must be in range and no host bit set. *)
Definition make_network (v : Z) (addr plen : Z) : result network :=
  let bits := bits_of_version v in
  if (addr <? 0) || (all_ones bits <? addr) then Raise ValueError
  else if (plen <? 0) || (bits <? plen) then Raise ValueError
  else
    let netmask := Z.lxor (all_ones bits) (Z.shiftr (all_ones bits) plen) in
    if negb (Z.land addr netmask =? addr) then Raise ValueError
    else Ok (mkNetwork v addr plen).

(** The [while] loop of [summarize_address_range]. *)
Fixpoint summarize_loop (fuel : nat) (v : Z) (first_int last_int : Z)
  : option (result (list network)) :=
  match fuel with
  | O => None
  | S fuel =>
      if first_int <=? last_int then
        let ip_bits := bits_of_version v in
        let nbits := Z.min (count_righthand_zero_bits first_int ip_bits)
                           (bit_length (last_int - first_int + 1) - 1) in
        match make_network v first_int (ip_bits - nbits) with
        | Raise e => Some (Raise e)
        | Ok net =>
            let first_int := first_int + Z.shiftl 1 nbits in
            if first_int - 1 =? all_ones ip_bits then Some (Ok [net])
            else
              match summarize_loop fuel v first_int last_int with
              | Some (Ok nets) => Some (Ok (net :: nets))
              | other => other
              end
        end
      else Some (Ok [])
  end.

Definition summarize_address_range (fuel : nat) (first last : address)
  : option (result (list network)) :=
  if negb (version first =? version last) then Some (Raise TypeError)
  else if ip_int last <? ip_int first then Some (Raise ValueError)
  else summarize_loop fuel (version first) (ip_int first) (ip_int last).

(** [str(n)] for a non-negative integer. *)
Definition str_of_int (n : Z) : string := pretty (Z.to_N n).

Definition ipv4_str (ip : Z) : string :=
  str_of_int (Z.land (Z.shiftr ip 24) 255) +:+ "." +:+
  str_of_int (Z.land (Z.shiftr ip 16) 255) +:+ "." +:+
  str_of_int (Z.land (Z.shiftr ip 8) 255) +:+ "." +:+
  str_of_int (Z.land ip 255).

Section Cidr.
(** The IPv6 text format: reading an address, printing one. *)
Variable ipv6_of_string : string → option Z.
Variable ipv6_str : Z → string.

Definition ip_address (s : string) : result address :=
  match ipv4_of_string s with
  | Some n => Ok (IPv4Address n)
  | None =>
      match ipv6_of_string s with
      | Some n => Ok (IPv6Address n)
      | None => Raise ValueError
      end
  end.

Definition network_str (n : network) : string :=
  (if net_version n =? 4 then ipv4_str (network_address n)
   else ipv6_str (network_address n))
  +:+ "/" +:+ str_of_int (prefixlen n).

Definition get_cidr (fuel : nat) (start_ip end_ip : string)
  : option (result (list string)) :=
  match ip_address start_ip with
  | Raise e => Some (Raise e)
  | Ok first =>
      match ip_address end_ip with
      | Raise e => Some (Raise e)
      | Ok last =>
          match summarize_address_range fuel first last with
          | None => None
          | Some (Raise e) => Some (Raise e)
          | Some (Ok nets) => Some (Ok (map network_str nets))
          end
      end
  end.
End Cidr.

(** ** Vocabulary of the statements *)

(** What every tree built by [insert_node] satisfies. *)
Record tree_inv (t : PKITree) : Prop := mkInv {
  inv_data_parent : ∀ k,
    is_Some (node_data t !! k) → is_Some (child_to_parent t !! k);
  inv_parent_data : ∀ k p,
    child_to_parent t !! k = Some p → p ≠ EmptyString → is_Some (node_data t !! k);
  inv_children_seeded : ∀ p,
    is_Some (parent_to_child t !! p) → is_Some (child_to_parent t !! p);
  inv_parent_seeded : ∀ k p,
    child_to_parent t !! k = Some p → is_Some (node_data t !! k) →
    is_Some (child_to_parent t !! p);
  inv_children : ∀ p l,
    parent_to_child t !! p = Some l →
    l ≠ [] ∧ ∀ c, c ∈ l → is_Some (node_data t !! c) ∧ child_to_parent t !! c = Some p
}.

(** The maps after a call that is not ignored. *)
Definition inserted (t : PKITree) (ski aki : string) (data : dict) : PKITree :=
  let aki' := if decide (ski = aki) then EmptyString else aki in
  let c2p := <[ski := aki']> (child_to_parent t) in
  mkTree
    (if decide (ski ≠ aki) then dd_append aki ski (parent_to_child t)
     else parent_to_child t)
    (if decide (is_Some (c2p !! aki')) then c2p else <[aki' := EmptyString]> c2p)
    (<[ski := data]> (node_data t)).

(** The parent chain from an SKI ends, after finitely many lookups, at a
    node whose parent is empty or the node itself. *)
Inductive rooted (t : PKITree) : string → Prop :=
| rooted_self s : get_parent t s = Some s → rooted t s
| rooted_empty s : get_parent t s = Some EmptyString → rooted t s
| rooted_step s p : get_parent t s = Some p → rooted t p → rooted t s.

(** Records used in the examples. *)
Definition ca_record (ski aki : string) (resources : list json) : dict :=
  [("type", JStr "ca_cert"); ("ski", JStr ski); ("aki", JStr aki);
   ("file", JStr ("rpki.example.net/repo/" +:+ ski +:+ ".cer"));
   ("subordinate_resources", JList resources)].

Definition roa_record (ski aki : string) (vrps : list json) : dict :=
  [("type", JStr "roa"); ("ski", JStr ski); ("aki", JStr aki);
   ("file", JStr ("rpki.example.net/repo/" +:+ ski +:+ ".roa"));
   ("vrps", JList vrps)].

Definition vrp (prefix : string) (asid : Z) : json :=
  JDict [("prefix", JStr prefix); ("asid", JInt asid)].

(** A child CA under a root that was never inserted. *)
Definition orphan_tree : PKITree :=
  build [("C", "R", ca_record "C" "R" [JDict [("ip_prefix", JStr "10.1.0.0/16")]])].

(** A second record for an SKI that is already there, naming another
    parent. *)
Definition duplicate_calls : list call :=
  [("A", "", ca_record "A" "" []); ("A", "P", ca_record "A" "P" [])].

(** Two records that name each other as parent. *)
Definition cycle_tree : PKITree :=
  build [("A", "B", ca_record "A" "B" []); ("B", "A", ca_record "B" "A" [])].

(** The scenario of the specification: root [R], child CA [C], ROA [A]. *)
Definition scenario_calls : list call :=
  [("R", "", ("tal", JStr "test") ::
             ca_record "R" "" [JDict [("ip_prefix", JStr "10.0.0.0/8")];
                               JDict [("asid", JInt 65000)]]);
   ("C", "R", ca_record "C" "R" [JDict [("ip_prefix", JStr "10.1.0.0/16")]]);
   ("A", "C", roa_record "A" "C" [vrp "10.1.1.0/24" 65001])].

Definition scenario_tree : PKITree := build scenario_calls.

(** A CA certificate that is not RIR-owned and has issued nothing. *)
Definition childless_tree : PKITree :=
  build [("X", "", ca_record "X" "" [JDict [("asid", JInt 65000)]])].

(** The second list has the first as a prefix: nothing was taken out. *)
Definition grows (acc acc' : list json * list json) : Prop :=
  ∃ l, acc'.2 = acc.2 ++ l.

(** [f] applied to each item in turn, stopping at the first exception. *)
Fixpoint mapM {A B} (f : A → result B) (l : list A) : result (list B) :=
  match l with
  | [] => Ok []
  | x :: l => y <- f x ;; ys <- mapM f l ;; Ok (y :: ys)
  end.

(** The libraries as used in the examples: a trie is the finite map from
    prefix text to SKI, and the range normalizer reads IPv4 text only. *)
Definition trie_setitem (m : gmap string string) (pfx : json) (ski : string)
  : result (gmap string string) :=
  match pfx with
  | JStr s => Ok (<[s := ski]> m)
  | _ => Raise TypeError
  end.

Definition cidr_text (start_ip end_ip : json) : result (list string) :=
  match start_ip, end_ip with
  | JStr s, JStr e =>
      match get_cidr (λ _, None) (λ _, EmptyString) 64 s e with
      | Some r => r
      | None => Raise ValueError
      end
  | _, _ => Raise TypeError
  end.

Definition collect (fuel : nat) (t : PKITree) (root resource_type : string)
    (recursive : bool) : option (result (gmap string string * gmap string string * list json)) :=
  get_resource_list ∅ ∅ trie_setitem cidr_text fuel t root resource_type recursive.

(** A CA certificate holding one bounded and one unbounded ASN range. *)
Definition asrange (min max : Z) : json :=
  JDict [("asrange", JDict [("min", JInt min); ("max", JInt max)])].

Definition ranges_tree : PKITree :=
  build [("N", "", ca_record "N" "" [asrange 64512 64515; asrange 70000 4294967295;
                                     JDict [("ip_range", JDict [("min", JStr "10.0.0.1");
                                                                ("max", JStr "10.0.0.2")])]])].

(** CIDR blocks as sets of addresses. *)
Definition block_bits (n : network) : Z :=
  bits_of_version (net_version n) - prefixlen n.

Definition block_size (n : network) : Z := 2 ^ block_bits n.

Definition in_block (n : network) (x : Z) : Prop :=
  network_address n ≤ x < network_address n + block_size n.

(** A well-formed IPv4 block: prefix length within 0..32, the address a
    32-bit number aligned to the size of the block. *)
Definition is_cidr4 (n : network) : Prop :=
  net_version n = 4
  ∧ 0 ≤ prefixlen n ≤ 32
  ∧ 0 ≤ network_address n < 2 ^ 32
  ∧ (block_size n | network_address n).

(** The blocks follow one another from [a] to [b] without gap or overlap. *)
Fixpoint tiles (a : Z) (l : list network) (b : Z) : Prop :=
  match l with
  | [] => a = b + 1
  | n :: l => network_address n = a ∧ tiles (a + block_size n) l b
  end.

(** The addresses in some block are exactly those from [a] to [b]. *)
Definition covers (l : list network) (a b : Z) : Prop :=
  ∀ x, (∃ n, n ∈ l ∧ in_block n x) ↔ a ≤ x ≤ b.

(** A tiling in which every block is the largest aligned block that
    starts where it does and stays below [b]. *)
Fixpoint greedy (a : Z) (l : list network) (b : Z) : Prop :=
  match l with
  | [] => a = b + 1
  | n :: l =>
      network_address n = a
      ∧ (∀ j, 0 ≤ j → (2 ^ j | a) → a + 2 ^ j - 1 ≤ b → j ≤ block_bits n)
      ∧ greedy (a + block_size n) l b
  end.

(** ** Further vocabulary *)

(** The call that takes effect for [ski]: the first one that carries it,
    given by its [aki] and its data. *)
Fixpoint first_call (ski : string) (calls : list call) : option (string * dict) :=
  match calls with
  | [] => None
  | c :: rest =>
      if String.eqb c.1.1 ski then Some (c.1.2, c.2) else first_call ski rest
  end.

(** The SKIs of the calls that take effect, name [p] as parent and are not
    [p] itself, in the order of the calls. [seen] holds the SKIs of the
    calls before. *)
Fixpoint children_of (p : string) (seen : list string) (calls : list call) : list string :=
  match calls with
  | [] => []
  | c :: rest =>
      if bool_decide (c.1.1 ∈ seen) then children_of p seen rest
      else if bool_decide (c.1.2 = p ∧ c.1.1 ≠ p)
           then c.1.1 :: children_of p (c.1.1 :: seen) rest
           else children_of p (c.1.1 :: seen) rest
  end.

(** A list of non-empty SKIs in which each is followed by its recorded
    parent, a different SKI. *)
Fixpoint parent_chain (t : PKITree) (path : list string) : Prop :=
  match path with
  | [] => True
  | x :: rest =>
      x ≠ EmptyString
      ∧ match rest with
        | [] => True
        | y :: _ => get_parent t x = Some y ∧ y ≠ x
        end
      ∧ parent_chain t rest
  end.

(** Every call names as parent itself, or an SKI an earlier call carried,
    or an SKI no call carries. *)
Definition ancestor_first (calls : list call) : Prop :=
  ∀ before c after, calls = before ++ c :: after →
    c.1.2 = c.1.1 ∨ c.1.2 ∈ skis before ∨ c.1.2 ∉ skis calls.

(** A record the classification predicates can read: it has a [type],
    and unless it carries [tal] or is a ROA its [subordinate_resources]
    is a list. *)
Definition readable_record (data : dict) : Prop :=
  (∃ ty, dict_get "type" data = Some ty
         ∧ (dict_has "tal" data = true
            ∨ json_eqb ty (JStr "roa") = true
            ∨ ∃ l, dict_get "subordinate_resources" data = Some (JList l))).

(** A record of a type the traversal does not handle. *)
Definition unhandled_tree : PKITree :=
  build [("M", "", [("type", JStr "mft"); ("ski", JStr "M")])].

(** Entries of the first trie: no default route, no colon in the key, the
    value an SKI with node data; and of the second: the same with a colon
    in the key. *)
Definition v4_entries (t : PKITree) (m : gmap string string) : Prop :=
  ∀ k v, m !! k = Some v →
    k ≠ "0.0.0.0/0" ∧ k ≠ "::/0" ∧ str_contains ":" k = false
    ∧ is_Some (get_data t v).

Definition v6_entries (t : PKITree) (m : gmap string string) : Prop :=
  ∀ k v, m !! k = Some v →
    k ≠ "0.0.0.0/0" ∧ k ≠ "::/0" ∧ str_contains ":" k = true
    ∧ is_Some (get_data t v).

(** ** The resource index: [populate_resources], [search_asn],
    [search_prefix] *)

(** [d[k] = v] on a dict: the value of an existing key is replaced in
    place, a new key is added at the end. *)
Fixpoint dict_set {A} (k : string) (v : A) (d : list (string * A)) : list (string * A) :=
  match d with
  | [] => [(k, v)]
  | (k', v') :: d' =>
      if String.eqb k k' then (k, v) :: d' else (k', v') :: dict_set k v d'
  end.

Section Index.
(** Besides the libraries of the traversal: [prefix in pyt] on a trie,
    and [int(s)] on a string. *)
Variable PyTricia : Type.
Variable pyt_new4 pyt_new6 : PyTricia.
Variable pyt_setitem : PyTricia → json → string → result PyTricia.
Variable cidr_of : json → json → result (list string).
Variable pyt_contains : PyTricia → string → result bool.
Variable py_int : string → result Z.

(** The three per-node caches of [PKITree.__init__]. *)
Record resources : Type := mkResources {
  resource_dict_pfx_v4 : list (string * PyTricia);
  resource_dict_pfx_v6 : list (string * PyTricia);
  resource_dict_asn : list (string * list json)
}.

Definition no_resources : resources := mkResources [] [] [].

(** The body of the loop of [populate_resources] for one key. *)
Definition populate_node (fuel : nat) (t : PKITree) (res : resources) (node : string)
  : option (result resources) :=
  match is_roa t node with
  | Raise e => Some (Raise e)
  | Ok roa =>
      if truthy roa then Some (Ok res)
      else
        match is_rir_owned_rc t node with
        | Raise e => Some (Raise e)
        | Ok rir =>
            if truthy rir then Some (Ok res)
            else
              match get_resource_list pyt_new4 pyt_new6 pyt_setitem cidr_of
                      fuel t node "all" false with
              | None => None
              | Some (Raise e) => Some (Raise e)
              | Some (Ok (pyt4, pyt6, asn_list)) =>
                  Some (asn_set <- py_set asn_list ;;
                        Ok (mkResources
                              (dict_set node pyt4 (resource_dict_pfx_v4 res))
                              (dict_set node pyt6 (resource_dict_pfx_v6 res))
                              (dict_set node asn_set (resource_dict_asn res))))
              end
        end
  end.

(** [populate_resources]; [keys] is [node_data.keys()], in the order of
    insertion. *)
Fixpoint populate_resources (fuel : nat) (t : PKITree) (keys : list string)
    (res : resources) : option (result resources) :=
  match keys with
  | [] => Some (Ok res)
  | node :: rest =>
      match populate_node fuel t res node with
      | None => None
      | Some (Raise e) => Some (Raise e)
      | Some (Ok res) => populate_resources fuel t rest res
      end
  end.

(** [asn in asn_set]: the value looked up must be hashable. *)
Definition set_contains (x : json) (s : list json) : result bool :=
  if hashable x then Ok (list_contains x s) else Raise TypeError.

(** The test on the resource type shared by the two searches. *)
Definition type_matches (t : PKITree) (node resource_type : string) : result bool :=
  if String.eqb resource_type "all" then Ok true
  else
    ty <- type_of (get_data t node) ;;
    Ok (json_eqb ty (JStr resource_type)).

Definition search_asn_item (t : PKITree) (asn : json) (resource_type : string)
    (res_list : list string) (item : string * list json) : result (list string) :=
  found <- set_contains asn item.2 ;;
  if found then
    keep <- type_matches t item.1 resource_type ;;
    Ok (if keep then res_list ++ [item.1] else res_list)
  else Ok res_list.

Definition search_asn (t : PKITree) (res : resources) (asn : json)
    (resource_type : string) : result (list string) :=
  asn <- match asn with
         | JStr s => n <- py_int (str_replace "AS" "" s) ;; Ok (JInt n)
         | _ => Ok asn
         end ;;
  foldM (search_asn_item t asn resource_type) [] (resource_dict_asn res).

Definition search_prefix_item (t : PKITree) (prefix resource_type : string)
    (res_list : list string) (item : string * PyTricia) : result (list string) :=
  found <- pyt_contains item.2 prefix ;;
  if found then
    keep <- type_matches t item.1 resource_type ;;
    Ok (if keep then res_list ++ [item.1] else res_list)
  else Ok res_list.

Definition search_prefix (t : PKITree) (res : resources) (prefix resource_type : string)
  : result (list string) :=
  let curr_resource_dict_pfx :=
    if str_contains ":" prefix then resource_dict_pfx_v6 res
    else resource_dict_pfx_v4 res in
  foldM (search_prefix_item t prefix resource_type) [] curr_resource_dict_pfx.
End Index.

Arguments mkResources {PyTricia}.
Arguments resource_dict_pfx_v4 {PyTricia}.
Arguments resource_dict_pfx_v6 {PyTricia}.
Arguments resource_dict_asn {PyTricia}.
Arguments no_resources {PyTricia}.
Arguments populate_node {PyTricia}.
Arguments populate_resources {PyTricia}.
Arguments search_prefix_item {PyTricia}.
Arguments search_prefix {PyTricia}.
Arguments search_asn {PyTricia}.

(** A node [populate_resources] indexes: neither predicate is true of it. *)
Definition indexable (t : PKITree) (node : string) : Prop :=
  (∃ roa, is_roa t node = Ok roa ∧ truthy roa = false)
  ∧ (∃ rir, is_rir_owned_rc t node = Ok rir ∧ truthy rir = false).

(** The keys of a dict after [d[k] = v]. *)
Fixpoint key_add (k : string) (l : list string) : list string :=
  match l with
  | [] => [k]
  | k' :: l' => if String.eqb k k' then k :: l' else k' :: key_add k l'
  end.

Section IndexEntries.
Variable PyTricia : Type.
Variable pyt_new4 pyt_new6 : PyTricia.
Variable pyt_setitem : PyTricia → json → string → result PyTricia.
Variable cidr_of : json → json → result (list string).

(** The three caches have the same keys, every key is an indexable node,
    and its entries are what [get_resource_list] returns for it without
    recursion. *)
Definition index_entries (t : PKITree) (res : resources PyTricia) : Prop :=
  map fst (resource_dict_pfx_v4 res) = map fst (resource_dict_asn res)
  ∧ map fst (resource_dict_pfx_v6 res) = map fst (resource_dict_asn res)
  ∧ ∀ node asn_set, dict_get node (resource_dict_asn res) = Some asn_set →
      indexable t node
      ∧ ∃ p4 p6 asns,
          get_resource_list pyt_new4 pyt_new6 pyt_setitem cidr_of 2 t node "all" false
          = Some (Ok (p4, p6, asns))
          ∧ py_set asns = Ok asn_set
          ∧ dict_get node (resource_dict_pfx_v4 res) = Some p4
          ∧ dict_get node (resource_dict_pfx_v6 res) = Some p6.
End IndexEntries.

Arguments index_entries {PyTricia}.

(** The index of the scenario, with the tries as finite maps that hold
    exactly the keys assigned, and [int] reading strings of digits. *)
Definition trie_contains (m : gmap string string) (prefix : string) : result bool :=
  Ok (bool_decide (is_Some (m !! prefix))).

Definition digits_int (s : string) : result Z :=
  match s with
  | EmptyString => Raise ValueError
  | _ => if all_digits s then Ok (decimal_value s 0) else Raise ValueError
  end.

Definition scenario_index : resources (gmap string string) :=
  mkResources [("C", {["10.1.0.0/16" := "C"]})] [("C", ∅)] [("C", [])].

(** ** [calculate_end_ip] and [get_cidr] with its optional arguments *)

(** [calculate_end_ip] can raise [IndexError] besides the exceptions that
    occur elsewhere. *)
Inductive outcome (A : Type) : Type :=
| Returns (a : A)
| Raises (e : exn)
| RaisesIndexError.
Arguments Returns {A} a.
Arguments Raises {A} e.
Arguments RaisesIndexError {A}.

Definition of_result {A} (r : result A) : outcome A :=
  match r with
  | Ok a => Returns a
  | Raise e => Raises e
  end.

Section EndIp.
(** [int(s)] is taken as given. *)
Variable py_int : string → result Z.
Variable ipv6_of_string : string → option Z.
Variable ipv6_str : Z → string.

(** [calculate_end_ip(start_ip, num_ips)]; [num_ips] is [None] when
    [get_cidr] was given neither [end_ip] nor [num_ips]. *)
Definition calculate_end_ip (start_ip : string) (num_ips : option Z) : outcome string :=
  match mapM py_int (split "." start_ip) with
  | Raise e => Raises e
  | Ok start_parts =>
      match start_parts with
      | p0 :: p1 :: p2 :: p3 :: _ =>
          let start_int :=
            Z.lor (Z.lor (Z.lor (Z.shiftl p0 24) (Z.shiftl p1 16)) (Z.shiftl p2 8)) p3 in
          match num_ips with
          | None => Raises TypeError
          | Some num_ips =>
              let end_int := start_int + num_ips - 1 in
              Returns (ipv4_str end_int)
          end
      | _ => RaisesIndexError
      end
  end.

(** [get_cidr(start_ip, end_ip, num_ips)]. *)
Definition get_cidr_opt (fuel : nat) (start_ip : string) (end_ip : option string)
    (num_ips : option Z) : option (outcome (list string)) :=
  match end_ip with
  | Some end_ip => of_result <$> get_cidr ipv6_of_string ipv6_str fuel start_ip end_ip
  | None =>
      match calculate_end_ip start_ip num_ips with
      | Returns end_ip =>
          of_result <$> get_cidr ipv6_of_string ipv6_str fuel start_ip end_ip
      | Raises e => Some (Raises e)
      | RaisesIndexError => Some RaisesIndexError
      end
  end.
End EndIp.

(** The number of addresses in a list of blocks. *)
Definition total_size (l : list network) : Z :=
  foldr (λ n acc, block_size n + acc) 0 l.

(** The text of an octet reads back as the octet and holds no separator. *)
Definition octet_round_trip (o : nat) : bool :=
  let s := str_of_int (Z.of_nat o) in
  match parse_octet s with
  | Some n => n =? Z.of_nat o
  | None => false
  end
  && negb (str_contains "." s) && negb (str_contains "/" s).

(** ** [buildTree] and [get_root_dict] *)

(** [load_rpki_archive] reads the archive and gives [json.loads] of each
    line; [buildTree] is given here the list it returns. *)

(** [insert_node] takes [ski: str] and [aki: str], and the maps of the
    tree are keyed by strings. A key that cannot be hashed (a list or an
    object) makes the first lookup with it raise [TypeError]. A key
    that can be hashed but is not a string (a number, a boolean or
    [null]) gives a tree with a key that is not a string, which is not
    represented. *)
Definition as_key (v : json) : option string :=
  match v with
  | JStr s => Some s
  | _ => None
  end.

(** How a run ends: with a result or an exception, at an entry that
    would enter a key that is not a string, or with the fuel used up. *)
Inductive run (A : Type) : Type :=
| Done (r : result A)
| NonStringKey
| OutOfFuel.
Arguments Done {A} r.
Arguments NonStringKey {A}.
Arguments OutOfFuel {A}.

(** [tree.insert_node(ski, aki, data=data)] with the keys as read from
    the entry. [ski] is looked up first ([ski in self.node_data]); when
    it is there already the call returns and [aki] is not used; otherwise
    [aki] is looked up next ([self.parent_to_child[aki]], as [ski] and
    [aki] differ when only one of them is a string).
    [keys] is [node_data.keys()], in the order of insertion. *)
Definition insert_entry (tree : PKITree) (keys : list string) (ski aki : json) (d : dict)
  : run (PKITree * list string) :=
  if negb (hashable ski) then Done (Raise TypeError)
  else
    match as_key ski with
    | None => NonStringKey
    | Some ski =>
        if decide (is_Some (node_data tree !! ski)) then Done (Ok (tree, keys))
        else if negb (hashable aki) then Done (Raise TypeError)
        else
          match as_key aki with
          | None => NonStringKey
          | Some aki => Done (Ok (insert_node tree ski aki d, keys ++ [ski]))
          end
    end.

(** The body of the loop of [buildTree] for one entry of the archive.
    The counter is only logged. *)
Definition buildTree_step (tree : PKITree) (keys : list string) (data : json)
  : run (PKITree * list string) :=
  match contains "type" data with
  | Raise e => Done (Raise e)
  | Ok false => Done (Ok (tree, keys))
  | Ok true =>
      match subscript data "type" with
      | Raise e => Done (Raise e)
      | Ok ty =>
          if json_eqb ty (JStr "roa") || json_eqb ty (JStr "ca_cert") then
            match subscript data "ski" with
            | Raise e => Done (Raise e)
            | Ok ski =>
                match (has_aki <- contains "aki" data ;;
                       if negb has_aki then Ok (JStr EmptyString)
                       else subscript data "aki") with
                | Raise e => Done (Raise e)
                | Ok aki =>
                    match data with
                    | JDict d => insert_entry tree keys ski aki d
                    | _ => Done (Raise TypeError) (* only an object has a type *)
                    end
                end
            end
          else Done (Ok (tree, keys))
      end
  end.

Fixpoint buildTree_loop (tree : PKITree) (keys : list string) (data_list : list json)
  : run (PKITree * list string) :=
  match data_list with
  | [] => Done (Ok (tree, keys))
  | data :: rest =>
      match buildTree_step tree keys data with
      | Done (Ok (tree, keys)) => buildTree_loop tree keys rest
      | r => r
      end
  end.

Section BuildTree.
Variable PyTricia : Type.
Variable pyt_new4 pyt_new6 : PyTricia.
Variable pyt_setitem : PyTricia → json → string → result PyTricia.
Variable cidr_of : json → json → result (list string).

(** [buildTree] on the entries of the archive: the tree and its caches. *)
Definition buildTree (fuel : nat) (data_list : list json)
  : run (PKITree * resources PyTricia) :=
  match buildTree_loop empty_tree [] data_list with
  | Done (Ok (tree, keys)) =>
      match populate_resources pyt_new4 pyt_new6 pyt_setitem cidr_of fuel tree keys
              no_resources with
      | None => OutOfFuel
      | Some (Raise e) => Done (Raise e)
      | Some (Ok res) => Done (Ok (tree, res))
      end
  | Done (Raise e) => Done (Raise e)
  | NonStringKey => NonStringKey
  | OutOfFuel => OutOfFuel
  end.
End BuildTree.

Arguments buildTree {PyTricia}.

(** An entry [buildTree] passes to [insert_node]: an object whose [type]
    is [roa] or [ca_cert]. *)
Definition tree_record (d : dict) : bool :=
  match dict_get "type" d with
  | Some ty => json_eqb ty (JStr "roa") || json_eqb ty (JStr "ca_cert")
  | None => false
  end.

Definition has_ski (ski : string) (d : dict) : bool :=
  match dict_get "ski" d with
  | Some (JStr s) => String.eqb s ski
  | _ => false
  end.

(** The first such entry of the archive with the given [ski]. *)
Fixpoint first_record (ski : string) (data_list : list json) : option dict :=
  match data_list with
  | [] => None
  | JDict d :: rest =>
      if tree_record d && has_ski ski d then Some d
      else first_record ski rest
  | _ :: rest => first_record ski rest
  end.

(** The parent recorded for an entry: its [aki], or the empty string when
    it has none or names itself. *)
Definition record_parent (ski : string) (d : dict) : string :=
  match dict_get "aki" d with
  | Some (JStr aki) => if decide (aki = ski) then EmptyString else aki
  | _ => EmptyString
  end.

(** The [aki] an entry is inserted with when it is a string or absent. *)
Definition record_aki (d : dict) : string :=
  match dict_get "aki" d with
  | Some (JStr aki) => aki
  | _ => EmptyString
  end.

(** The call of [insert_node] an entry with a string [ski] gives rise
    to. Its [aki] is used only when the call is not a duplicate. *)
Definition record_call (data : json) : option call :=
  match data with
  | JDict d =>
      if tree_record d then
        match dict_get "ski" d with
        | Some (JStr ski) => Some (ski, record_aki d, d)
        | _ => None
        end
      else None
  | _ => None
  end.

(** The archive of the scenario, with an entry of another type, a line
    that is not an object and a second entry for [C]. *)
Definition scenario_archive : list json :=
  [ JDict [("type", JStr "mft"); ("file", JStr "rpki.example.net/repo/R.mft")];
    JDict (("tal", JStr "test") ::
           ca_record "R" "" [JDict [("ip_prefix", JStr "10.0.0.0/8")];
                             JDict [("asid", JInt 65000)]]);
    JList [];
    JDict (ca_record "C" "R" [JDict [("ip_prefix", JStr "10.1.0.0/16")]]);
    JDict (roa_record "A" "C" [vrp "10.1.1.0/24" 65001]);
    JDict (ca_record "C" "A" []) ].

Section Roots.
(** [str.upper] is taken as given. *)
Variable py_upper : string → string.

(** The body of the loop of [get_root_dict] for one item of
    [node_data.items()]. *)
Definition get_root_dict_step (root_dict : list (string * string))
    (item : string * dict) : result (list (string * string)) :=
  let '(ski, data) := item in
  if dict_has "tal" data then
    if (0 <? String.length ski)%nat then
      tal <- dict_item data "tal" ;;
      tal <- as_str tal ;;
      Ok (dict_set (py_upper tal) ski root_dict)
    else Ok root_dict
  else Ok root_dict.

(** [get_root_dict]; [items] is [node_data.items()], in the order of
    insertion. *)
Definition get_root_dict (items : list (string * dict)) : result (list (string * string)) :=
  foldM get_root_dict_step [] items.

(** The item that names the root [tal]: a non-empty SKI whose record
    carries a [tal] that reads [tal] in upper case. *)
Definition names_root (tal : string) (item : string * dict) : bool :=
  (0 <? String.length item.1)%nat
  && match dict_get "tal" item.2 with
     | Some (JStr s) => String.eqb (py_upper s) tal
     | _ => false
     end.
End Roots.

(** [node_data.items()] for the keys in the order of insertion. *)
Definition node_items (t : PKITree) (keys : list string) : list (string * dict) :=
  omap (λ k, pair k <$> get_data t k) keys.

(** [str.upper] on ASCII text, for the examples. *)
Definition ascii_upper (c : ascii) : ascii :=
  let n := nat_of_ascii c in
  if ((97 <=? n) && (n <=? 122))%nat then ascii_of_nat (n - 32) else c.

Fixpoint upper_ascii (s : string) : string :=
  match s with
  | EmptyString => EmptyString
  | String c s' => String (ascii_upper c) (upper_ascii s')
  end.

(** Two roots whose names differ in case only. *)
Definition two_roots : list (string * dict) :=
  [("R", [("tal", JStr "test"); ("type", JStr "ca_cert")]);
   ("C", [("type", JStr "ca_cert")]);
   ("S", [("tal", JStr "Test"); ("type", JStr "ca_cert")])].

(** ** The traversal of [get_resource_list], level by level *)

(** What the loop body takes from the record of a node before it stores
    anything: the node is skipped ([continue]); or [curr_pfx_list] and the
    ASNs that end up appended to [asn_list]; or the type is not handled
    and only a warning is logged. *)
Inductive yield : Type :=
| Skipped
| Resources (prefixes asns : list json)
| Unhandled.

Definition is_str (v : json) : bool :=
  match v with
  | JStr _ => true
  | _ => false
  end.

(** [children] when there are some, for [queue.extend(children)]. *)
Definition kids (t : PKITree) (n : string) : list string :=
  default [] (get_children t n).

(** The queue [get_resource_list] starts with. *)
Definition init_queue (t : PKITree) (root : string) (recursive : bool) : list string :=
  if recursive then root :: kids t root else [root].

(** The keys assigned in the first trie and in the second, of the
    prefixes of a node: the default routes are left out; a prefix with a
    colon goes to the second trie, any other to the first. *)
Definition is_default_route (pfx : json) : bool :=
  json_eqb pfx (JStr "0.0.0.0/0") || json_eqb pfx (JStr "::/0").

Definition has_colon (pfx : json) : bool :=
  match pfx with
  | JStr s => str_contains ":" s
  | _ => false
  end.

Definition keys_v4 (prefixes : list json) : list json :=
  List.filter (λ p, negb (is_default_route p) && negb (has_colon p)) prefixes.

Definition keys_v6 (prefixes : list json) : list json :=
  List.filter (λ p, negb (is_default_route p) && has_colon p) prefixes.

Section Traversal.
Variable PyTricia : Type.
Variable pyt_setitem : PyTricia → json → string → result PyTricia.
Variable cidr_of : json → json → result (list string).

(** The reading of the record in the loop body of [get_resource_list]. *)
Definition node_yield (t : PKITree) (resource_type : string) (n : string) : result yield :=
  match get_data t n with
  | None => Raise AttributeError
  | Some data =>
      ty <- dict_item data "type" ;;
      if json_eqb ty (JStr "roa") then
        if String.eqb resource_type "ca_cert" then Ok Skipped
        else
          vrps <- dict_item data "vrps" ;;
          r <- extract_vrps vrps [] ;;
          Ok (Resources r.1.1 r.2)
      else if json_eqb ty (JStr "ca_cert") then
        if String.eqb resource_type "roa" then Ok Skipped
        else
          sr <- dict_item data "subordinate_resources" ;;
          r <- extract_resources cidr_of sr ;;
          Ok (Resources r.1 r.2)
      else Ok Unhandled
  end.

Definition node_prefixes (t : PKITree) (resource_type : string) (n : string) : list json :=
  match node_yield t resource_type n with
  | Ok (Resources prefixes _) => prefixes
  | _ => []
  end.

Definition node_asns (t : PKITree) (resource_type : string) (n : string) : list json :=
  match node_yield t resource_type n with
  | Ok (Resources _ asns) => asns
  | _ => []
  end.

(** A node the traversal gets through: it is skipped, or it is a ROA or
    a CA certificate whose record can be read and whose prefixes are
    texts. *)
Definition handled (t : PKITree) (resource_type : string) (n : string) : bool :=
  match node_yield t resource_type n with
  | Ok Skipped => true
  | Ok (Resources prefixes _) => forallb is_str prefixes
  | _ => false
  end.

(** The SKIs the visit of a node appends to the queue. *)
Definition enqueued (t : PKITree) (resource_type : string) (recursive : bool)
    (n : string) : list string :=
  if recursive then
    match node_yield t resource_type n with
    | Ok Skipped => []
    | _ => kids t n
    end
  else [].

Definition next_level (t : PKITree) (resource_type : string) (recursive : bool)
    (q : list string) : list string :=
  flat_map (enqueued t resource_type recursive) q.

(** The SKIs in the order of the visits, level after level, when no
    visit lies more than [depth] levels down: past that, [None]. *)
Fixpoint traversal (depth : nat) (t : PKITree) (resource_type : string)
    (recursive : bool) (q : list string) : option (list string) :=
  match q with
  | [] => Some []
  | _ =>
      match depth with
      | O => None
      | S depth =>
          (λ rest, q ++ rest)
            <$> traversal depth t resource_type recursive
                  (next_level t resource_type recursive q)
      end
  end.

(** [pyt[k] = ski] for each key in turn. *)
Definition assign_all (ski : string) (p : PyTricia) (keys : list json) : result PyTricia :=
  foldM (λ p k, pyt_setitem p k ski) p keys.

(** A trie after the visits in [order]: each node assigns the selected
    keys of its prefixes. *)
Definition fill (select : list json → list json) (t : PKITree) (resource_type : string)
    (order : list string) (p : PyTricia) : result PyTricia :=
  foldM (λ p n, assign_all n p (select (node_prefixes t resource_type n))) p order.

(** The ASNs gathered by the visits in [order]. *)
Definition collected_asns (t : PKITree) (resource_type : string) (order : list string)
  : list json :=
  flat_map (node_asns t resource_type) order.
End Traversal.

Arguments assign_all {PyTricia}.
Arguments fill {PyTricia}.

(** A ROA whose VRPs include the two default routes. *)
Definition default_routes_tree : PKITree :=
  build [("D", "", roa_record "D" "" [vrp "0.0.0.0/0" 65010; vrp "::/0" 65011;
                                      vrp "2001:db8::/32" 65012])].

(** * Properties *)

(** ** Insertion *)

Lemma dd_get_insert ski v (c2p : gmap string string) :
  <[ski := v]> (dd_get ski c2p).2 = <[ski := v]> c2p.
Proof.
  unfold dd_get. destruct (c2p !! ski); simpl; [done|].
  by rewrite insert_insert_eq.
Qed.

Lemma dd_get_value ski (c2p : gmap string string) :
  (dd_get ski c2p).1 = default EmptyString (c2p !! ski).
Proof. unfold dd_get. by destruct (c2p !! ski). Qed.

Lemma insert_node_fresh t ski aki data :
  tree_inv t → node_data t !! ski = None →
  insert_node t ski aki data = inserted t ski aki data.
Proof.
  intros Hinv Hfresh. unfold insert_node, inserted.
  destruct (decide (is_Some (node_data t !! ski))) as [[d Hd]|_]; [congruence|].
  destruct (dd_get ski (child_to_parent t)) as [cur c2p] eqn:Hget.
  assert (cur = EmptyString) as ->.
  { pose proof (dd_get_value ski (child_to_parent t)) as Hv.
    rewrite Hget in Hv. simpl in Hv. subst cur.
    destruct (child_to_parent t !! ski) as [p|] eqn:Hp; [|done]. simpl.
    destruct (decide (p = EmptyString)) as [|Hne]; [done|].
    destruct (inv_parent_data t Hinv ski p Hp Hne) as [d Hd]. congruence. }
  simpl.
  pose proof (dd_get_insert ski (if decide (ski = aki) then EmptyString else aki)
                (child_to_parent t)) as Hins.
  rewrite Hget in Hins. simpl in Hins. by rewrite Hins.
Qed.

Lemma insert_node_present t ski aki data :
  is_Some (node_data t !! ski) → insert_node t ski aki data = t.
Proof.
  intros H. unfold insert_node. by destruct (decide (is_Some (node_data t !! ski))).
Qed.

Lemma inserted_lookup_self t ski aki data :
  child_to_parent (inserted t ski aki data) !! ski
  = Some (if decide (ski = aki) then EmptyString else aki).
Proof.
  unfold inserted. simpl.
  set (aki' := if decide (ski = aki) then EmptyString else aki).
  destruct (decide (is_Some (<[ski:=aki']> (child_to_parent t) !! aki'))) as [|Hn].
  - by rewrite lookup_insert_eq.
  - destruct (decide (aki' = ski)) as [->|Hne].
    + exfalso. apply Hn. rewrite lookup_insert_eq. by eexists.
    + rewrite lookup_insert_ne; [|done]. by rewrite lookup_insert_eq.
Qed.

Lemma inserted_lookup_other t ski aki data k :
  k ≠ ski → is_Some (child_to_parent t !! k) →
  child_to_parent (inserted t ski aki data) !! k = child_to_parent t !! k.
Proof.
  intros Hk Hsome. unfold inserted. simpl.
  set (aki' := if decide (ski = aki) then EmptyString else aki).
  destruct (decide (is_Some (<[ski:=aki']> (child_to_parent t) !! aki'))) as [|Hn].
  - by rewrite lookup_insert_ne.
  - destruct (decide (aki' = k)) as [->|Hne].
    + exfalso. apply Hn. by rewrite lookup_insert_ne.
    + rewrite lookup_insert_ne; [|done]. by rewrite lookup_insert_ne.
Qed.

Lemma inserted_lookup_cases t ski aki data k p :
  child_to_parent (inserted t ski aki data) !! k = Some p →
  (k = ski ∧ p = if decide (ski = aki) then EmptyString else aki)
  ∨ (k ≠ ski ∧ child_to_parent t !! k = Some p)
  ∨ (k ≠ ski ∧ p = EmptyString ∧ child_to_parent t !! k = None
     ∧ k = if decide (ski = aki) then EmptyString else aki).
Proof.
  intros H. destruct (decide (k = ski)) as [->|Hk].
  - left. rewrite inserted_lookup_self in H. by inversion H.
  - right. revert H. unfold inserted. simpl.
    set (aki' := if decide (ski = aki) then EmptyString else aki).
    destruct (decide (is_Some (<[ski:=aki']> (child_to_parent t) !! aki'))) as [|Hn].
    + rewrite lookup_insert_ne; [|done]. by left.
    + destruct (decide (aki' = k)) as [->|Hne].
      * rewrite lookup_insert_eq. intros [= <-]. right.
        repeat split; [done|].
        destruct (child_to_parent t !! k) eqn:E; [|done].
        exfalso. apply Hn. rewrite lookup_insert_ne; [|done]. by rewrite E.
      * rewrite lookup_insert_ne; [|done]. rewrite lookup_insert_ne; [|done]. by left.
Qed.

Lemma inserted_parent_mono t ski aki data k :
  is_Some (child_to_parent t !! k) →
  is_Some (child_to_parent (inserted t ski aki data) !! k).
Proof.
  intros H. destruct (decide (k = ski)) as [->|Hk].
  - rewrite inserted_lookup_self. by eexists.
  - by rewrite inserted_lookup_other.
Qed.

Lemma inserted_aki_seeded t ski aki data :
  is_Some (child_to_parent (inserted t ski aki data) !! aki).
Proof.
  destruct (decide (ski = aki)) as [<-|Hne].
  - rewrite inserted_lookup_self. by eexists.
  - unfold inserted. simpl. destruct (decide (ski = aki)) as [|_]; [done|].
    destruct (decide (is_Some (<[ski:=aki]> (child_to_parent t) !! aki))) as [|Hn]; [done|].
    rewrite lookup_insert_eq. by eexists.
Qed.

Lemma inserted_children t ski aki data p l :
  parent_to_child (inserted t ski aki data) !! p = Some l →
  (ski ≠ aki ∧ p = aki ∧ l = default [] (parent_to_child t !! aki) ++ [ski])
  ∨ ((ski = aki ∨ p ≠ aki) ∧ parent_to_child t !! p = Some l).
Proof.
  unfold inserted. simpl. destruct (decide (ski ≠ aki)) as [Hne|He].
  - unfold dd_append. destruct (decide (p = aki)) as [->|Hp].
    + rewrite lookup_insert_eq. intros [= <-]. by left.
    + rewrite lookup_insert_ne; [|done]. intros H. right. split; [by right|done].
  - intros H. right. split; [|done]. left. by destruct (decide (ski = aki)).
Qed.

Lemma tree_inv_inserted t ski aki data :
  tree_inv t → node_data t !! ski = None → tree_inv (inserted t ski aki data).
Proof.
  intros Hinv Hfresh. split.
  - intros k [d Hd]. simpl in Hd.
    destruct (decide (k = ski)) as [->|Hk].
    + rewrite inserted_lookup_self. by eexists.
    + rewrite lookup_insert_ne in Hd; [|done].
      apply inserted_parent_mono. apply (inv_data_parent t Hinv). by eexists.
  - intros k p Hp Hne. simpl.
    destruct (inserted_lookup_cases _ _ _ _ _ _ Hp) as [[-> _]|[[Hk Hold]|(_ & -> & _)]].
    + rewrite lookup_insert_eq. by eexists.
    + rewrite lookup_insert_ne; [|done]. by apply (inv_parent_data t Hinv k p).
    + done.
  - intros p [l Hl].
    destruct (inserted_children _ _ _ _ _ _ Hl) as [(_ & -> & _)|[_ Hold]].
    + apply inserted_aki_seeded.
    + apply inserted_parent_mono, (inv_children_seeded t Hinv). by eexists.
  - intros k p Hp [d Hd]. simpl in Hd.
    destruct (inserted_lookup_cases _ _ _ _ _ _ Hp) as [[-> ->]|[[Hk Hold]|(Hk & _ & Hnone & _)]].
    + destruct (decide (ski = aki)) as [<-|Hne].
      * unfold inserted. simpl. destruct (decide (ski = ski)) as [_|]; [|done].
        destruct (decide (is_Some (<[ski:=EmptyString]> (child_to_parent t) !! EmptyString)));
          [done|]. rewrite lookup_insert_eq. by eexists.
      * apply inserted_aki_seeded.
    + rewrite lookup_insert_ne in Hd; [|done].
      apply inserted_parent_mono, (inv_parent_seeded t Hinv k p Hold). by eexists.
    + rewrite lookup_insert_ne in Hd; [|done].
      destruct (inv_data_parent t Hinv k) as [q Hq]; [by eexists|]. congruence.
  - intros p l Hl.
    assert (Hold_ok : ∀ l0, parent_to_child t !! p = Some l0 → ∀ c, c ∈ l0 →
              is_Some (node_data (inserted t ski aki data) !! c)
              ∧ child_to_parent (inserted t ski aki data) !! c = Some p).
    { intros l0 Hl0 c Hc.
      destruct (inv_children t Hinv p l0 Hl0) as [_ Hall].
      destruct (Hall c Hc) as [[d Hd] Hcp].
      assert (c ≠ ski) by (intros ->; congruence).
      split.
      - simpl. rewrite lookup_insert_ne; [|done]. by eexists.
      - rewrite inserted_lookup_other; [done|done|]. by eexists. }
    destruct (inserted_children _ _ _ _ _ _ Hl) as [(Hne & -> & ->)|[_ Hold]].
    + split; [by destruct (default [] _)|].
      intros c [Hc|Hc]%elem_of_app.
      * destruct (parent_to_child t !! aki) as [l0|] eqn:E; simpl in Hc.
        -- by apply (Hold_ok l0).
        -- by apply elem_of_nil in Hc.
      * apply list_elem_of_singleton in Hc as ->. split.
        -- simpl. rewrite lookup_insert_eq. by eexists.
        -- rewrite inserted_lookup_self. by rewrite decide_False.
    + split; [by apply (inv_children t Hinv p l)|]. by apply Hold_ok.
Qed.

Lemma tree_inv_empty : tree_inv empty_tree.
Proof.
  split; simpl.
  - intros k [d Hd]. by rewrite lookup_empty in Hd.
  - intros k p Hp. by rewrite lookup_empty in Hp.
  - intros p [l Hl]. by rewrite lookup_empty in Hl.
  - intros k p Hp. by rewrite lookup_empty in Hp.
  - intros p l Hl. by rewrite lookup_empty in Hl.
Qed.

Lemma tree_inv_insert_node t ski aki data :
  tree_inv t → tree_inv (insert_node t ski aki data).
Proof.
  intros Hinv. destruct (node_data t !! ski) as [d|] eqn:Hd.
  - rewrite insert_node_present; [done|by eexists].
  - rewrite insert_node_fresh; [|done..]. by apply tree_inv_inserted.
Qed.

Lemma build_snoc calls c : build (calls ++ [c]) = apply_call (build calls) c.
Proof. unfold build. by rewrite foldl_app. Qed.

Lemma tree_inv_build calls : tree_inv (build calls).
Proof.
  induction calls as [|c calls IH] using rev_ind.
  - apply tree_inv_empty.
  - rewrite build_snoc. by apply tree_inv_insert_node.
Qed.

Lemma node_data_insert_node t ski aki data k :
  is_Some (node_data (insert_node t ski aki data) !! k)
  ↔ k = ski ∨ is_Some (node_data t !! k).
Proof.
  unfold insert_node.
  destruct (decide (is_Some (node_data t !! ski))) as [Hs|Hn].
  - split; [by right|]. by intros [->|?].
  - assert (∀ p2c c2p, is_Some (node_data (mkTree p2c c2p (<[ski:=data]> (node_data t))) !! k)
                       ↔ k = ski ∨ is_Some (node_data t !! k)) as Hnd.
    { intros p2c c2p. simpl. destruct (decide (k = ski)) as [->|Hk].
      - rewrite lookup_insert_eq. split; [by left|by eexists].
      - rewrite lookup_insert_ne; [|done]. split; [by right|]. by intros [?|?]. }
    destruct (dd_get ski (child_to_parent t)) as [cur c2p].
    destruct (0 <? String.length cur)%nat; apply Hnd.
Qed.

Lemma node_data_build calls k :
  is_Some (node_data (build calls) !! k) ↔ k ∈ skis calls.
Proof.
  induction calls as [|c calls IH] using rev_ind.
  - simpl. rewrite lookup_empty. split; [by intros [? ?]|by intros ?%elem_of_nil].
  - unfold skis in *. rewrite build_snoc, map_app. unfold apply_call.
    rewrite node_data_insert_node, IH, elem_of_app. simpl.
    rewrite list_elem_of_singleton. tauto.
Qed.

Lemma parent_entry_insert_node t ski aki data k :
  tree_inv t → is_Some (child_to_parent t !! k) →
  is_Some (child_to_parent (insert_node t ski aki data) !! k).
Proof.
  intros Hinv Hk. destruct (node_data t !! ski) as [d|] eqn:Hd.
  - rewrite insert_node_present; [done|by eexists].
  - rewrite insert_node_fresh; [|done..]. by apply inserted_parent_mono.
Qed.

Lemma parent_entry_calls t calls k :
  tree_inv t → is_Some (child_to_parent t !! k) →
  is_Some (child_to_parent (foldl apply_call t calls) !! k).
Proof.
  revert t. induction calls as [|c calls IH]; intros t Hinv Hk; [done|].
  simpl. apply IH.
  - by apply tree_inv_insert_node.
  - by apply parent_entry_insert_node.
Qed.

(** C5. For a fresh SKI (one without node data in a tree built by
    [insert_node]), after [insert_node ski aki data] the parent recorded
    for [ski] is [aki], unless [aki] equals [ski], in which case it is the
    empty string. *)
Theorem insert_node_parent (calls : list call) (ski aki : string) (data : dict) :
  get_data (build calls) ski = None →
  get_parent (insert_node (build calls) ski aki data) ski
  = Some (if decide (aki = ski) then EmptyString else aki).
Proof.
  intros Hfresh. rewrite insert_node_fresh; [|apply tree_inv_build|done].
  unfold get_parent. rewrite inserted_lookup_self.
  destruct (decide (ski = aki)), (decide (aki = ski)); congruence.
Qed.

Lemma insert_node_parent_witness :
  get_data (build [("R", "", ca_record "R" "" [])]) "C" = None
  ∧ get_parent (insert_node (build [("R", "", ca_record "R" "" [])])
                  "C" "R" (ca_record "C" "R" [])) "C"
    = Some (if decide ("R" = "C") then EmptyString else "R").
Proof.
  split; [reflexivity|].
  apply (insert_node_parent [("R", "", ca_record "R" "" [])] "C" "R").
  reflexivity.
Defined.

(** C6. When the SKI already has node data, a further [insert_node] for
    it, with any [aki] and [data], leaves [parent_to_child],
    [child_to_parent] and [node_data] unchanged. *)
Theorem insert_node_duplicate (t : PKITree) (ski aki : string) (data : dict) :
  is_Some (get_data t ski) →
  parent_to_child (insert_node t ski aki data) = parent_to_child t
  ∧ child_to_parent (insert_node t ski aki data) = child_to_parent t
  ∧ node_data (insert_node t ski aki data) = node_data t.
Proof. intros H. by rewrite insert_node_present. Qed.

Lemma insert_node_duplicate_witness :
  is_Some (get_data scenario_tree "C")
  ∧ parent_to_child (insert_node scenario_tree "C" "X" []) = parent_to_child scenario_tree
  ∧ child_to_parent (insert_node scenario_tree "C" "X" []) = child_to_parent scenario_tree
  ∧ node_data (insert_node scenario_tree "C" "X" []) = node_data scenario_tree.
Proof.
  assert (is_Some (get_data scenario_tree "C")) as H by (vm_compute; eauto).
  split; [exact H|]. exact (insert_node_duplicate scenario_tree "C" "X" [] H).
Defined.

(** Inserting twice is the same as inserting once, whatever the second
    call carries. *)
Lemma insert_node_twice t ski aki data aki' data' :
  insert_node (insert_node t ski aki data) ski aki' data' = insert_node t ski aki data.
Proof. apply insert_node_present, node_data_insert_node. by left. Qed.

(** C7, as the code has it. After any sequence of [insert_node] calls,
    an SKI that the tree references as a parent has an entry in
    [child_to_parent], so [get_parent] answers a string for it, whether or
    not its own record was inserted. The tree references it as a parent
    when it has a child list, or is the recorded parent of an inserted
    node, or is the [aki] of a call whose [ski] had not been inserted
    before. *)
Theorem parent_entry_seeded (calls : list call) (p : string) :
  is_Some (get_children (build calls) p)
  ∨ (∃ c, is_Some (get_data (build calls) c) ∧ get_parent (build calls) c = Some p)
  ∨ (∃ before after ski data,
        calls = before ++ (ski, p, data) :: after
        ∧ ski ∉ skis before) →
  is_Some (get_parent (build calls) p).
Proof.
  pose proof (tree_inv_build calls) as Hinv.
  intros [Hch|[(c & Hd & Hp)|(before & after & ski & data & -> & Hfresh)]].
  - by apply (inv_children_seeded _ Hinv).
  - by apply (inv_parent_seeded _ Hinv c p).
  - unfold build. rewrite foldl_app. simpl.
    apply parent_entry_calls; [apply tree_inv_insert_node, tree_inv_build|].
    unfold apply_call. simpl. fold (build before).
    rewrite insert_node_fresh; [apply inserted_aki_seeded|apply tree_inv_build|].
    destruct (node_data (build before) !! ski) as [d|] eqn:E; [|done].
    exfalso. apply Hfresh, node_data_build. by eexists.
Qed.

Lemma parent_entry_seeded_witness :
  (is_Some (get_children orphan_tree "R")
   ∨ (∃ c, is_Some (get_data orphan_tree c) ∧ get_parent orphan_tree c = Some "R")
   ∨ (∃ before after ski data,
         [("C", "R", ca_record "C" "R" [JDict [("ip_prefix", JStr "10.1.0.0/16")]])]
         = before ++ (ski, "R", data) :: after
         ∧ ski ∉ skis before))
  ∧ get_data orphan_tree "R" = None
  ∧ is_Some (get_parent orphan_tree "R").
Proof.
  assert (is_Some (get_children orphan_tree "R")) as H by (vm_compute; eauto).
  split; [by left|]. split; [reflexivity|].
  apply (parent_entry_seeded
           [("C", "R", ca_record "C" "R" [JDict [("ip_prefix", JStr "10.1.0.0/16")]])] "R").
  left. exact H.
Defined.

(** The [aki] of a call that is ignored as a duplicate gets no entry. *)
Lemma parent_entry_duplicate_call :
  (∃ data, ("A", "P", data) ∈ duplicate_calls)
  ∧ get_parent (build duplicate_calls) "P" = None.
Proof.
  split; [|reflexivity]. eexists. apply list_elem_of_further, list_elem_of_here.
Qed.

(** ** Paths to the root *)

Lemma nonempty_length (s : string) : (0 <? String.length s)%nat = true ↔ s ≠ EmptyString.
Proof. destruct s; simpl; split; intros; try done. Qed.

Lemma get_path_loop_unfold fuel t s acc :
  get_path_loop (S fuel) t (Some s) acc =
  if (0 <? String.length s)%nat then
    if decide (get_parent t s = Some s) then Some (Ok (acc ++ [s]))
    else get_path_loop fuel t (get_parent t s) (acc ++ [s])
  else Some (Ok acc).
Proof. reflexivity. Qed.

(** More fuel does not change an answer. *)
Lemma get_path_loop_mono fuel fuel' t ski acc r :
  (fuel ≤ fuel')%nat →
  get_path_loop fuel t ski acc = Some r → get_path_loop fuel' t ski acc = Some r.
Proof.
  revert fuel' ski acc. induction fuel as [|fuel IH]; intros fuel' ski acc Hle; [done|].
  destruct fuel' as [|fuel']; [lia|]. simpl.
  destruct ski as [s|]; [|done].
  destruct (0 <? String.length s)%nat; [|done].
  destruct (decide (get_parent t s = Some s)); [done|].
  apply IH. lia.
Qed.

Lemma get_path_loop_rooted t s :
  rooted t s → s ≠ EmptyString → ∀ acc,
  ∃ fuel tail r,
    (∀ fuel', (fuel ≤ fuel')%nat →
       get_path_loop fuel' t (Some s) acc = Some (Ok (acc ++ s :: tail)))
    ∧ last (s :: tail) = Some r
    ∧ (get_parent t r = Some EmptyString ∨ get_parent t r = Some r).
Proof.
  assert (Hself : ∀ s acc, s ≠ EmptyString → get_parent t s = Some s →
            ∃ fuel tail r,
              (∀ fuel', (fuel ≤ fuel')%nat →
                 get_path_loop fuel' t (Some s) acc = Some (Ok (acc ++ s :: tail)))
              ∧ last (s :: tail) = Some r
              ∧ (get_parent t r = Some EmptyString ∨ get_parent t r = Some r)).
  { intros s0 acc Hne Hp. exists 1%nat, [], s0. split; [|by auto].
    intros [|fuel'] Hle; [lia|]. rewrite get_path_loop_unfold.
    apply nonempty_length in Hne. rewrite Hne. by rewrite decide_True. }
  assert (Hempty : ∀ s acc, s ≠ EmptyString → get_parent t s = Some EmptyString →
            ∃ fuel tail r,
              (∀ fuel', (fuel ≤ fuel')%nat →
                 get_path_loop fuel' t (Some s) acc = Some (Ok (acc ++ s :: tail)))
              ∧ last (s :: tail) = Some r
              ∧ (get_parent t r = Some EmptyString ∨ get_parent t r = Some r)).
  { intros s0 acc Hne Hp. exists 2%nat, [], s0. split; [|by auto].
    intros [|[|fuel']] Hle; [lia..|]. rewrite get_path_loop_unfold.
    pose proof Hne as Hlen. apply nonempty_length in Hlen. rewrite Hlen, Hp.
    rewrite decide_False; [|congruence]. by rewrite get_path_loop_unfold. }
  induction 1 as [s Hp|s Hp|s p Hp Hroot IH]; intros Hne acc.
  - by apply Hself.
  - by apply Hempty.
  - destruct (decide (p = s)) as [->|Hps]; [by apply Hself|].
    destruct (decide (p = EmptyString)) as [->|Hpe]; [by apply Hempty|].
    destruct (IH Hpe (acc ++ [s])) as (fuel & tail & r & Hrun & Hlast & Hend).
    exists (S fuel), (p :: tail), r. split; [|done].
    intros [|fuel'] Hle; [lia|]. rewrite get_path_loop_unfold.
    pose proof Hne as Hlen. apply nonempty_length in Hlen. rewrite Hlen, Hp.
    rewrite decide_False; [|congruence].
    rewrite Hrun; [|lia]. by rewrite <- app_assoc.
Qed.

(** C2, as the code has it. For a non-empty SKI whose parent chain
    reaches, in finitely many lookups, a node whose parent is empty or the
    node itself, [get_path] returns (with enough fuel, and with any larger
    amount): the path starts at the SKI and ends at such a node. *)
Theorem get_path_rooted (t : PKITree) (ski : string) :
  ski ≠ EmptyString → rooted t ski →
  ∃ fuel path r,
    (∀ fuel', (fuel ≤ fuel')%nat → get_path fuel' t ski = Some (Ok path))
    ∧ head path = Some ski
    ∧ last path = Some r
    ∧ (get_parent t r = Some EmptyString ∨ get_parent t r = Some r).
Proof.
  intros Hne Hroot.
  destruct (get_path_loop_rooted t ski Hroot Hne []) as (fuel & tail & r & Hrun & Hlast & Hend).
  exists fuel, (ski :: tail), r. by repeat split.
Qed.

Lemma get_path_rooted_witness :
  "A" ≠ EmptyString ∧ rooted scenario_tree "A"
  ∧ ∃ fuel path r,
      (∀ fuel', (fuel ≤ fuel')%nat → get_path fuel' scenario_tree "A" = Some (Ok path))
      ∧ head path = Some "A"
      ∧ last path = Some r
      ∧ (get_parent scenario_tree r = Some EmptyString ∨ get_parent scenario_tree r = Some r).
Proof.
  assert (rooted scenario_tree "A") as Hroot.
  { apply (rooted_step _ "A" "C"); [reflexivity|].
    apply (rooted_step _ "C" "R"); [reflexivity|].
    apply rooted_empty. reflexivity. }
  split; [done|]. split; [exact Hroot|].
  exact (get_path_rooted scenario_tree "A" ltac:(done) Hroot).
Defined.

Example get_path_scenario : get_path 4 scenario_tree "A" = Some (Ok ["A"; "C"; "R"]).
Proof. reflexivity. Qed.

(** The empty SKI has the empty path. *)
Lemma get_path_empty_ski fuel t : get_path (S fuel) t EmptyString = Some (Ok []).
Proof. reflexivity. Qed.

(** On two records naming each other as parent every parent lookup is
    defined, and [get_path] finds no end with any amount of fuel. *)
Lemma get_path_cycle_diverges :
  get_parent cycle_tree "A" = Some "B"
  ∧ get_parent cycle_tree "B" = Some "A"
  ∧ ∀ fuel, get_path fuel cycle_tree "A" = None.
Proof.
  assert (get_parent cycle_tree "A" = Some "B") as HA by reflexivity.
  assert (get_parent cycle_tree "B" = Some "A") as HB by reflexivity.
  split; [done|]. split; [done|].
  assert (∀ fuel acc,
            get_path_loop fuel cycle_tree (Some "A") acc = None
            ∧ get_path_loop fuel cycle_tree (Some "B") acc = None) as H.
  { induction fuel as [|fuel IH]; intros acc; [done|].
    rewrite !get_path_loop_unfold, HA, HB.
    split; (destruct (decide _) as [?|_]; [congruence|apply IH]). }
  intros fuel. apply H.
Qed.

(** ** Lookups of an SKI without node data *)

(** C4, as the code has it. For an SKI that no call has inserted:
    [get_data] and [get_url] answer [None]; [get_parent] answers [None] or
    the empty string; [get_children] answers [None] unless some node has
    the SKI as its recorded parent. None of the four raises. *)
Theorem lookups_without_data (py_str : json → string) (calls : list call) (ski : string) :
  ski ∉ skis calls →
  get_data (build calls) ski = None
  ∧ get_url py_str (build calls) ski = Ok None
  ∧ (get_parent (build calls) ski = None
     ∨ get_parent (build calls) ski = Some EmptyString)
  ∧ ((∀ c, get_parent (build calls) c ≠ Some ski) →
     get_children (build calls) ski = None).
Proof.
  intros Hnew. pose proof (tree_inv_build calls) as Hinv.
  assert (get_data (build calls) ski = None) as Hdata.
  { unfold get_data. destruct (node_data (build calls) !! ski) as [d|] eqn:E; [|done].
    exfalso. apply Hnew, node_data_build. by eexists. }
  split; [done|]. split; [unfold get_url; by rewrite Hdata|]. split.
  - unfold get_parent. destruct (child_to_parent (build calls) !! ski) as [p|] eqn:Hp; [|by left].
    right. destruct (decide (p = EmptyString)) as [->|Hne]; [done|].
    destruct (inv_parent_data _ Hinv ski p Hp Hne) as [d Hd].
    unfold get_data in Hdata. congruence.
  - intros Hnone. unfold get_children.
    destruct (parent_to_child (build calls) !! ski) as [l|] eqn:Hl; [|done].
    destruct (inv_children _ Hinv ski l Hl) as [Hnil Hall].
    destruct l as [|c l]; [done|].
    destruct (Hall c) as [_ Hc]; [by left|]. by destruct (Hnone c).
Qed.

Lemma lookups_without_data_witness :
  ("Z" ∉ skis scenario_calls)
  ∧ get_data (build scenario_calls) "Z" = None
  ∧ get_url (λ _, EmptyString) (build scenario_calls) "Z" = Ok None
  ∧ (get_parent (build scenario_calls) "Z" = None
     ∨ get_parent (build scenario_calls) "Z" = Some EmptyString)
  ∧ ((∀ c, get_parent (build scenario_calls) c ≠ Some "Z") →
     get_children (build scenario_calls) "Z" = None).
Proof.
  assert ("Z" ∉ skis scenario_calls) as H.
  { simpl. intros Hin. repeat (apply elem_of_cons in Hin as [Hin|Hin]; [discriminate|]).
    by apply elem_of_nil in Hin. }
  split; [exact H|].
  exact (lookups_without_data (λ _, EmptyString) scenario_calls "Z" H).
Defined.

(** The SKI [R] is named as a parent but was never inserted: it has no
    node data, yet [get_children] answers its child list, [get_path] a
    non-empty path, and [get_ca_domain] raises. On the empty tree
    [get_path] raises as well. *)
Lemma lookups_without_data_fail :
  get_data orphan_tree "R" = None
  ∧ get_children orphan_tree "R" = Some ["C"]
  ∧ get_path 3 orphan_tree "R" = Some (Ok ["R"])
  ∧ get_ca_domain orphan_tree "R" = Raise TypeError
  ∧ get_path 3 empty_tree "R" = Some (Raise TypeError).
Proof. repeat split; reflexivity. Qed.

(** [get_ca_domain] raises for every SKI without node data. *)
Lemma get_ca_domain_without_data t ski :
  get_data t ski = None → get_ca_domain t ski = Raise TypeError.
Proof. intros H. unfold get_ca_domain. by rewrite H. Qed.

Example get_ca_domain_scenario :
  get_ca_domain scenario_tree "C" = Ok "rpki.example.net".
Proof. reflexivity. Qed.

(** ** Classification *)

(** A CA certificate that is not RIR-owned and has no child list is
    answered [True] by [has_issued_roas]. *)
Lemma has_issued_roas_no_children t ski data ty :
  get_data t ski = Some data →
  dict_item data "type" = Ok ty → json_eqb ty (JStr "ca_cert") = true →
  is_rir_owned_rc t ski = Ok (Some false) →
  get_children t ski = None →
  has_issued_roas t ski = Ok (Some true).
Proof.
  intros Hd Hty Hca Hrir Hch. unfold has_issued_roas.
  rewrite Hd, Hty. simpl. rewrite Hca. simpl. rewrite Hrir. simpl. by rewrite Hch.
Qed.

(** C3 at the failing input: [X] is a [ca_cert], not RIR-owned, without
    children, and [has_issued_roas] answers [True]; the sibling predicate
    [is_end_node_certificate] answers [True] on it too. *)
Theorem has_issued_roas_childless :
  get_children childless_tree "X" = None
  ∧ is_rir_owned_rc childless_tree "X" = Ok (Some false)
  ∧ is_end_node_certificate childless_tree "X" = Ok (Some true)
  ∧ has_issued_roas childless_tree "X" = Ok (Some true).
Proof. repeat split; reflexivity. Qed.

(** With a child list, the answer is whether some child is a ROA. *)
Lemma has_issued_roas_children t ski data ty l :
  get_data t ski = Some data →
  dict_item data "type" = Ok ty → json_eqb ty (JStr "ca_cert") = true →
  is_rir_owned_rc t ski = Ok (Some false) →
  get_children t ski = Some l →
  has_issued_roas t ski = (b <- some_child_roa t l ;; Ok (Some b)).
Proof.
  intros Hd Hty Hca Hrir Hch. unfold has_issued_roas.
  rewrite Hd, Hty. simpl. rewrite Hca. simpl. rewrite Hrir. simpl. by rewrite Hch.
Qed.

Example has_issued_roas_scenario :
  has_issued_roas scenario_tree "C" = Ok (Some true)
  ∧ has_issued_roas scenario_tree "R" = Ok (Some false)
  ∧ has_issued_roas scenario_tree "A" = Ok (Some false).
Proof. repeat split; reflexivity. Qed.

(** ** Resource collection *)

Lemma foldM_app {A B} (f : B → A → result B) (b : B) (l1 l2 : list A) :
  foldM f b (l1 ++ l2) = (b' <- foldM f b l1 ;; foldM f b' l2).
Proof.
  revert b. induction l1 as [|x l1 IH]; intros b; [done|].
  simpl. destruct (f b x); simpl; [apply IH|done].
Qed.

Lemma bind_ok_inv {A B} (m : result A) (k : A → result B) b :
  (x <- m ;; k x) = Ok b → ∃ a, m = Ok a ∧ k a = Ok b.
Proof. destruct m as [a|e]; simpl; [eauto|done]. Qed.

(** Python's [==] on values that can be hashed. *)
Lemma json_eqb_refl v : hashable v = true → json_eqb v v = true.
Proof.
  destruct v as [|b|n|s|l|d]; simpl; try done.
  - by destruct b.
  - intros _. apply Z.eqb_refl.
  - intros _. apply String.eqb_refl.
Qed.

Lemma json_eqb_trans x y z :
  hashable y = true → json_eqb x y = true → json_eqb y z = true → json_eqb x z = true.
Proof.
  intros Hy.
  destruct y as [|b|n|s|l|d]; try done;
    destruct x as [|b1|n1|s1|l1|d1]; try done;
    destruct z as [|b2|n2|s2|l2|d2]; try done; simpl;
    rewrite ?Z.eqb_eq, ?String.eqb_eq, ?Bool.eqb_true_iff;
    try congruence;
    repeat match goal with b : bool |- _ => destruct b end; lia.
Qed.

Lemma list_contains_app x l1 l2 :
  list_contains x (l1 ++ l2) = list_contains x l1 || list_contains x l2.
Proof. apply existsb_app. Qed.

Lemma list_contains_elem x l :
  hashable x = true → x ∈ l → list_contains x l = true.
Proof.
  intros Hx Hin. apply existsb_exists. exists x. split.
  - by apply list_elem_of_In.
  - by apply json_eqb_refl.
Qed.

Lemma set_add_all_contains x l seen :
  forallb hashable l = true →
  list_contains x seen = true ∨ list_contains x l = true →
  list_contains x (set_add_all l seen) = true.
Proof.
  revert seen. induction l as [|y l IH]; intros seen Hh Hx; simpl in *.
  - destruct Hx as [Hx|Hx]; [done|discriminate].
  - apply andb_true_iff in Hh as [Hy Hl].
    destruct (list_contains y seen) eqn:Hseen.
    + apply IH; [done|]. destruct Hx as [Hx|Hx]; [by left|].
      apply orb_true_iff in Hx as [Hxy|Hx]; [|by right]. left.
      apply existsb_exists in Hseen as (s & Hs & Hys).
      apply existsb_exists. exists s. split; [done|].
      by apply (json_eqb_trans x y s).
    + apply IH; [done|]. rewrite list_contains_app. simpl.
      destruct Hx as [Hx|Hx]; [left; by rewrite Hx|].
      apply orb_true_iff in Hx as [Hxy|Hx]; [|by right]. left.
      rewrite Hxy. by rewrite !orb_true_r.
Qed.

Lemma py_set_contains x l s :
  py_set l = Ok s → x ∈ l → list_contains x s = true.
Proof.
  unfold py_set. destruct (forallb hashable l) eqn:Hh; [|done].
  intros [= <-] Hin. apply set_add_all_contains; [done|]. right.
  apply list_contains_elem; [|done].
  rewrite forallb_forall in Hh. apply Hh. by apply list_elem_of_In.
Qed.

(** [extract_vrps] on a list of VRPs each carrying [prefix] and [asid]. *)
Lemma foldM_extract_vrp vrps prefixes asids pl al :
  mapM (λ v, subscript v "prefix") vrps = Ok prefixes →
  mapM (λ v, subscript v "asid") vrps = Ok asids →
  foldM extract_vrp (pl, al) vrps = Ok (pl ++ prefixes, al ++ asids).
Proof.
  revert prefixes asids pl al.
  induction vrps as [|v vrps IH]; intros prefixes asids pl al Hp Ha; simpl in *.
  - injection Hp as <-. injection Ha as <-. by rewrite !app_nil_r.
  - destruct (subscript v "prefix") as [p|]; [|done]. simpl in *.
    destruct (subscript v "asid") as [a|]; [|done]. simpl in *.
    destruct (mapM (λ v, subscript v "prefix") vrps) as [ps|]; [|done].
    destruct (mapM (λ v, subscript v "asid") vrps) as [as'|]; [|done].
    simpl in *. injection Hp as <-. injection Ha as <-.
    rewrite (IH ps as' _ _ eq_refl eq_refl). by rewrite <- !app_assoc.
Qed.

Lemma extract_vrps_ok vrps prefixes asids al :
  mapM (λ v, subscript v "prefix") vrps = Ok prefixes →
  mapM (λ v, subscript v "asid") vrps = Ok asids →
  extract_vrps (JList vrps) al = Ok (prefixes, [], al ++ asids).
Proof.
  intros Hp Ha. unfold extract_vrps. simpl.
  by rewrite (foldM_extract_vrp vrps prefixes asids [] al Hp Ha).
Qed.

(** Whatever [extract_vrps] is given, the enclosing list only grows. *)
Lemma foldM_extract_vrp_grows items pl al pl' al' :
  foldM extract_vrp (pl, al) items = Ok (pl', al') → ∃ l, al' = al ++ l.
Proof.
  revert pl al. induction items as [|v items IH]; intros pl al; simpl.
  - intros [= _ <-]. exists []. by rewrite app_nil_r.
  - destruct (subscript v "prefix") as [p|]; [|done]. simpl.
    destruct (subscript v "asid") as [a|]; [|done]. simpl.
    intros H. destruct (IH _ _ H) as [l ->]. exists (a :: l). by rewrite <- app_assoc.
Qed.

Lemma extract_vrps_grows vrps al pl origin outer :
  extract_vrps vrps al = Ok (pl, origin, outer) → origin = [] ∧ ∃ l, outer = al ++ l.
Proof.
  unfold extract_vrps. destruct (iterate vrps) as [items|]; [|done]. simpl.
  destruct (foldM extract_vrp ([], al) items) as [[pl' al']|] eqn:E; [|done]. simpl.
  intros [= <- <- <-]. split; [done|]. by apply (foldM_extract_vrp_grows items [] al pl').
Qed.

Lemma foldM_preserves {A B} (R : B → B → Prop) `{!Reflexive R, !Transitive R}
    (f : B → A → result B) :
  (∀ b x b', f b x = Ok b' → R b b') →
  ∀ l b r, foldM f b l = Ok r → R b r.
Proof.
  intros Hf. induction l as [|y l IH]; intros b r; simpl.
  - by intros [= <-].
  - destruct (f b y) as [b'|] eqn:E; [|done]. simpl. intros H.
    transitivity b'; [by apply (Hf b y)|by apply IH].
Qed.

Lemma foldM_visits {A B} (R : B → B → Prop) `{!Reflexive R, !Transitive R}
    (f : B → A → result B) :
  (∀ b x b', f b x = Ok b' → R b b') →
  ∀ l b r x, foldM f b l = Ok r → x ∈ l →
  ∃ b1 b2, f b1 x = Ok b2 ∧ R b2 r.
Proof.
  intros Hf. induction l as [|y l IH]; intros b r x; simpl.
  - intros _ Hin. by apply elem_of_nil in Hin.
  - destruct (f b y) as [b'|] eqn:E; [|done]. simpl.
    intros H [->|Hin]%elem_of_cons.
    + exists b, b'. split; [done|]. by apply (foldM_preserves R f Hf l).
    + by apply (IH b').
Qed.

#[local] Instance grows_refl : Reflexive grows.
Proof. intros acc. exists []. by rewrite app_nil_r. Qed.

#[local] Instance grows_trans : Transitive grows.
Proof.
  intros a b c [l1 H1] [l2 H2]. exists (l1 ++ l2). by rewrite H2, H1, app_assoc.
Qed.

Lemma elem_of_range a b x : x ∈ range a b ↔ a ≤ x < b.
Proof.
  unfold range. rewrite list_elem_of_fmap. split.
  - intros (i & -> & Hi). apply elem_of_seq in Hi. lia.
  - intros H. exists (Z.to_nat (x - a)). split; [lia|]. apply elem_of_seq. lia.
Qed.

Section CollectProps.
Variable PyTricia : Type.
Variable pyt_new4 pyt_new6 : PyTricia.
Variable pyt_setitem : PyTricia → json → string → result PyTricia.
Variable cidr_of : json → json → result (list string).

Local Abbreviation visit' := (visit pyt_setitem cidr_of).
Local Abbreviation store' := (store pyt_setitem).
Local Abbreviation collect_loop' := (collect_loop pyt_setitem cidr_of).
Local Abbreviation get_resource_list' :=
  (get_resource_list pyt_new4 pyt_new6 pyt_setitem cidr_of).
Local Abbreviation state' := (state PyTricia).

Lemma store_grows t recursive child pl curr (st st' : state') :
  store' t recursive child pl curr st = Ok st' →
  ∃ l q, curr = Some l ∧ asn_list st' = asn_list st ++ l ∧ queue st' = queue st ++ q.
Proof.
  unfold store.
  destruct (foldM _ _ pl) as [tries|]; [|done]. simpl.
  destruct curr as [l|]; [|done]. intros [= <-]. simpl. exists l.
  destruct recursive; [|exists []; by rewrite app_nil_r].
  destruct (get_children t child) as [children|]; [|exists []; by rewrite app_nil_r].
  destruct (0 <? length children)%nat; [by exists children|].
  exists []. by rewrite app_nil_r.
Qed.

Lemma visit_grows t rt recursive child (st st' : state') :
  visit' t rt recursive child st = Ok st' →
  ∃ l q, asn_list st' = asn_list st ++ l ∧ queue st' = queue st ++ q.
Proof.
  unfold visit.
  destruct (get_data t child) as [data|]; [|done].
  destruct (dict_item data "type") as [ty|]; [|done]. simpl.
  assert (Hskip : Ok st = Ok st' →
            ∃ l q, asn_list st' = asn_list st ++ l ∧ queue st' = queue st ++ q).
  { intros [= <-]. exists [], []. by rewrite !app_nil_r. }
  destruct (json_eqb ty (JStr "roa")).
  - destruct (String.eqb rt "ca_cert"); [done|].
    destruct (dict_item data "vrps") as [vrps|]; [|done]. simpl.
    destruct (extract_vrps vrps (asn_list st)) as [[[pl origin] outer]|] eqn:E; [|done].
    simpl. destruct (extract_vrps_grows _ _ _ _ _ E) as [-> [l ->]].
    intros H. apply store_grows in H as (l' & q & _ & Hasn & Hq). simpl in *.
    exists (l ++ l'), q. by rewrite Hasn, app_assoc.
  - destruct (json_eqb ty (JStr "ca_cert")).
    + destruct (String.eqb rt "roa"); [done|].
      destruct (dict_item data "subordinate_resources") as [sr|]; [|done]. simpl.
      destruct (extract_resources cidr_of sr) as [r|]; [|done]. simpl.
      intros H. apply store_grows in H as (l' & q & _ & Hasn & Hq). by exists l', q.
    + intros H. apply store_grows in H as (l' & q & _ & Hasn & Hq). by exists l', q.
Qed.

Lemma collect_loop_unfold fuel t rt recursive (st : state') :
  collect_loop' (S fuel) t rt recursive st =
  match queue st with
  | [] => Some (Ok st)
  | child :: rest =>
      match visit' t rt recursive child
              (mkState (S (ctr st)) (pyt4 st) (pyt6 st) (asn_list st)
                 (curr_asn_list st) rest) with
      | Raise e => Some (Raise e)
      | Ok st => collect_loop' fuel t rt recursive st
      end
  end.
Proof. reflexivity. Qed.

Lemma collect_loop_grows fuel t rt recursive (st st' : state') :
  collect_loop' fuel t rt recursive st = Some (Ok st') →
  ∃ l, asn_list st' = asn_list st ++ l.
Proof.
  revert st. induction fuel as [|fuel IH]; intros st; [done|].
  rewrite collect_loop_unfold. destruct (queue st) as [|child rest].
  - intros [= <-]. exists []. by rewrite app_nil_r.
  - destruct (visit _ _ _ _ _ _ _) as [st1|] eqn:Hv; [|done].
    intros H. apply IH in H as [l Hl].
    apply visit_grows in Hv as (l1 & _ & Hl1 & _). simpl in Hl1.
    exists (l1 ++ l). by rewrite Hl, Hl1, app_assoc.
Qed.

(** Every SKI in the queue is visited, and what the visit leaves in
    [asn_list] is still there when the loop ends. *)
Lemma collect_loop_visits fuel t rt recursive (st st' : state') n :
  collect_loop' fuel t rt recursive st = Some (Ok st') →
  n ∈ queue st →
  ∃ st1 st2 l,
    visit' t rt recursive n st1 = Ok st2 ∧ asn_list st' = asn_list st2 ++ l.
Proof.
  revert st. induction fuel as [|fuel IH]; intros st; [done|].
  rewrite collect_loop_unfold. destruct (queue st) as [|child rest] eqn:Hq.
  - intros _ Hin. by apply elem_of_nil in Hin.
  - destruct (visit _ _ _ _ _ _ _) as [st1|] eqn:Hv; [|done].
    intros Hloop [->|Hin]%elem_of_cons.
    + destruct (collect_loop_grows _ _ _ _ _ _ Hloop) as [l Hl]. eauto.
    + apply (IH st1 Hloop).
      apply visit_grows in Hv as (_ & q & _ & Hq1). simpl in Hq1.
      rewrite Hq1. apply elem_of_app. by left.
Qed.

Lemma init_state_root t root recursive :
  root ∈ queue (init_state pyt_new4 pyt_new6 t root recursive).
Proof.
  unfold init_state. simpl.
  destruct recursive; [destruct (get_children t root)|]; simpl; by left.
Qed.

Lemma get_resource_list_ok fuel t root rt recursive p4 p6 asns :
  get_resource_list' fuel t root rt recursive = Some (Ok (p4, p6, asns)) →
  ∃ st', collect_loop' fuel t rt recursive (init_state pyt_new4 pyt_new6 t root recursive)
           = Some (Ok st')
         ∧ py_set (asn_list st') = Ok asns.
Proof.
  unfold get_resource_list.
  destruct (collect_loop _ _ _ _ _ _ _) as [[st'|]|]; [|done..].
  destruct (py_set (asn_list st')) as [s|] eqn:E; [|done]. simpl.
  intros [= _ _ <-]. by exists st'.
Qed.

Lemma extract_item_grows acc kv acc' :
  extract_item cidr_of acc kv = Ok acc' → grows acc acc'.
Proof.
  destruct acc as [pl al], kv as [k v]. unfold extract_item.
  assert (Hsame : Ok (pl, al) = Ok acc' → grows (pl, al) acc').
  { intros [= <-]. reflexivity. }
  destruct (bool_decide _); [done|].
  destruct (String.eqb k "ip_prefix"); [intros [= <-]; by exists []; simpl; rewrite app_nil_r|].
  destruct (String.eqb k "asid"); [intros [= <-]; by exists [v]|].
  destruct (String.eqb k "ip_range").
  { destruct (subscript v "min") as [mn|]; [|done]. simpl.
    destruct (subscript v "max") as [mx|]; [|done]. simpl.
    destruct (cidr_of mn mx) as [cidrs|]; [|done]. simpl.
    intros [= <-]. exists []. simpl. by rewrite app_nil_r. }
  destruct (String.eqb k "asrange"); [|done].
  destruct (subscript v "min") as [mn|]; [|done]. simpl.
  destruct (subscript v "max") as [mx|]; [|done]. simpl.
  destruct (json_eqb mx (JInt MAX_ASN_NUM)); [done|].
  destruct (as_int mx) as [last|]; [|done]. simpl.
  destruct (as_int mn) as [first|]; [|done]. simpl.
  intros [= <-]. by eexists.
Qed.

Lemma extract_resource_grows acc resource acc' :
  extract_resource cidr_of acc resource = Ok acc' → grows acc acc'.
Proof.
  unfold extract_resource. destruct (items resource) as [kvs|]; [|done]. simpl.
  apply (foldM_preserves grows), extract_item_grows.
Qed.

Lemma extract_item_asrange acc v mn mx :
  subscript v "min" = Ok mn → subscript v "max" = Ok mx →
  extract_item cidr_of acc ("asrange", v) =
  if json_eqb mx (JInt MAX_ASN_NUM) then Ok acc
  else
    last <- as_int mx ;;
    first <- as_int mn ;;
    Ok (acc.1, acc.2 ++ map JInt (range first (last + 1))).
Proof.
  intros Hmin Hmax. destruct acc as [pl al]. unfold extract_item.
  change (bool_decide ("asrange" ∈ ["asid_inherit"; "ip_inherit"])) with false.
  change ("asrange" =? "ip_prefix")%string with false.
  change ("asrange" =? "asid")%string with false.
  change ("asrange" =? "ip_range")%string with false.
  change ("asrange" =? "asrange")%string with true.
  cbv iota. by rewrite Hmin, Hmax.
Qed.

(** What a visit of a CA certificate leaves in [asn_list]. *)
Lemma visit_ca_cert t rt recursive child data ty sr (st st' : state') :
  get_data t child = Some data →
  dict_item data "type" = Ok ty → json_eqb ty (JStr "ca_cert") = true →
  String.eqb rt "roa" = false →
  dict_item data "subordinate_resources" = Ok sr →
  visit' t rt recursive child st = Ok st' →
  ∃ pl al, extract_resources cidr_of sr = Ok (pl, al)
           ∧ asn_list st' = asn_list st ++ al.
Proof.
  intros Hd Hty Hca Hrt Hsr. unfold visit. rewrite Hd, Hty. simpl.
  assert (json_eqb ty (JStr "roa") = false) as ->.
  { destruct ty as [| | |s| |]; try done. simpl in *.
    apply String.eqb_eq in Hca as ->. reflexivity. }
  rewrite Hca, Hrt, Hsr. simpl.
  destruct (extract_resources cidr_of sr) as [[pl al]|]; [|done]. simpl.
  intros H. apply store_grows in H as (l & q & [= <-] & Hasn & _). by exists pl, al.
Qed.

Lemma extract_resources_asrange rs d v a b pl al :
  extract_resources cidr_of (JList rs) = Ok (pl, al) →
  JDict d ∈ rs → ("asrange", v) ∈ d →
  subscript v "min" = Ok (JInt a) → subscript v "max" = Ok (JInt b) →
  b ≠ MAX_ASN_NUM →
  ∀ x, a ≤ x ≤ b → JInt x ∈ al.
Proof.
  unfold extract_resources. simpl. intros Hfold Hd Hkv Hmin Hmax Hb x Hx.
  destruct (foldM_visits grows (extract_resource cidr_of) extract_resource_grows
              rs _ _ _ Hfold Hd) as (acc1 & acc2 & Hres & [l2 Hl2]).
  unfold extract_resource in Hres. simpl in Hres.
  destruct (foldM_visits grows (extract_item cidr_of) extract_item_grows
              d _ _ _ Hres Hkv) as (acc3 & acc4 & Hitem & [l4 Hl4]).
  rewrite (extract_item_asrange _ _ _ _ Hmin Hmax) in Hitem. simpl in Hitem.
  destruct (b =? MAX_ASN_NUM) eqn:E; [apply Z.eqb_eq in E; done|].
  injection Hitem as <-. simpl in *. rewrite Hl2, Hl4.
  apply elem_of_app. left. apply elem_of_app. left. apply elem_of_app. right.
  apply list_elem_of_fmap. exists x. split; [done|]. apply elem_of_range. lia.
Qed.

(** C10. In [get_resource_list] the data of the visited SKI is copied
    before it is tested for [None]: for an SKI without node data the visit
    raises [AttributeError], whatever the state', the resource type and the
    recursive flag; the loop never completes with such an SKI in its
    queue, and [get_resource_list] started at it raises. *)
Theorem get_resource_list_missing_data (t : PKITree) (rt : string) (recursive : bool)
    (ski : string) :
  get_data t ski = None →
  (∀ st, visit' t rt recursive ski st = Raise AttributeError)
  ∧ (∀ fuel st st', collect_loop' fuel t rt recursive st = Some (Ok st') →
       ski ∉ queue st)
  ∧ (∀ fuel, get_resource_list' (S fuel) t ski rt recursive = Some (Raise AttributeError)).
Proof.
  intros Hd.
  assert (∀ st, visit' t rt recursive ski st = Raise AttributeError) as Hvisit.
  { intros st. unfold visit. by rewrite Hd. }
  split; [done|]. split.
  - intros fuel st st' Hloop Hin.
    destruct (collect_loop_visits _ _ _ _ _ _ _ Hloop Hin) as (st1 & st2 & l & Hv & _).
    by rewrite Hvisit in Hv.
  - intros fuel. unfold get_resource_list.
    rewrite collect_loop_unfold.
    assert (∃ rest, queue (init_state pyt_new4 pyt_new6 t ski recursive) = ski :: rest)
      as [rest ->].
    { unfold init_state. simpl.
      destruct recursive; [destruct (get_children t ski)|]; simpl; eauto. }
    by rewrite Hvisit.
Qed.

(** *** The traversal, level by level *)

Local Abbreviation node_yield' := (node_yield cidr_of).
Local Abbreviation node_prefixes' := (node_prefixes cidr_of).
Local Abbreviation node_asns' := (node_asns cidr_of).
Local Abbreviation handled' := (handled cidr_of).
Local Abbreviation enqueued' := (enqueued cidr_of).
Local Abbreviation next_level' := (next_level cidr_of).
Local Abbreviation traversal' := (traversal cidr_of).
Local Abbreviation assign_all' := (assign_all pyt_setitem).
Local Abbreviation fill' := (fill pyt_setitem cidr_of).
Local Abbreviation collected_asns' := (collected_asns cidr_of).

Lemma foldM_extract_vrp_outer items : ∀ pl al,
  foldM extract_vrp (pl, al) items
  = (r <- foldM extract_vrp (pl, []) items ;; Ok (r.1, al ++ r.2)).
Proof.
  induction items as [|v items IH]; intros pl al; simpl.
  - by rewrite app_nil_r.
  - destruct (subscript v "prefix") as [p|]; [|done]. simpl.
    destruct (subscript v "asid") as [a|]; [|done]. simpl.
    rewrite (IH _ (al ++ [a])), (IH _ [a]).
    destruct (foldM extract_vrp (pl ++ [p], []) items) as [[pl' l]|]; [|done].
    simpl. by rewrite <- app_assoc.
Qed.

(** [extract_vrps] appends to the enclosing list what it would put in
    an empty one. *)
Lemma extract_vrps_outer vrps al :
  extract_vrps vrps al = (r <- extract_vrps vrps [] ;; Ok (r.1.1, [], al ++ r.2)).
Proof.
  unfold extract_vrps. destruct (iterate vrps) as [items|]; [|done]. simpl.
  rewrite (foldM_extract_vrp_outer items [] al).
  by destruct (foldM extract_vrp ([], []) items) as [[pl l]|].
Qed.

Lemma queue_extend t (recursive : bool) n (q : list string) :
  (if recursive then
     match get_children t n with
     | Some children => if (0 <? length children)%nat then q ++ children else q
     | None => q
     end
   else q)
  = q ++ (if recursive then kids t n else []).
Proof.
  unfold kids. destruct recursive; [|by rewrite app_nil_r].
  destruct (get_children t n) as [[|c l]|]; simpl; by rewrite ?app_nil_r.
Qed.

Lemma visit_skipped t rt recursive n (st : state') :
  node_yield' t rt n = Ok Skipped → visit' t rt recursive n st = Ok st.
Proof.
  unfold node_yield, visit. destruct (get_data t n) as [data|]; [|done].
  destruct (dict_item data "type") as [ty|]; [|done]. simpl.
  destruct (json_eqb ty (JStr "roa")).
  - destruct (String.eqb rt "ca_cert"); [done|].
    destruct (dict_item data "vrps") as [vrps|]; [|done]. simpl.
    by destruct (extract_vrps vrps []).
  - destruct (json_eqb ty (JStr "ca_cert")); [|done].
    destruct (String.eqb rt "roa"); [done|].
    destruct (dict_item data "subordinate_resources") as [sr|]; [|done]. simpl.
    by destruct (extract_resources cidr_of sr).
Qed.

Lemma visit_resources t rt recursive n (st : state') pl al a b :
  node_yield' t rt n = Ok (Resources pl al) →
  foldM (add_prefix pyt_setitem n) (pyt4 st, pyt6 st) pl = Ok (a, b) →
  ∃ curr,
    visit' t rt recursive n st
    = Ok (mkState (ctr st) a b (asn_list st ++ al) (Some curr)
            (queue st ++ enqueued' t rt recursive n)).
Proof.
  intros Hyield Hfold.
  assert (enqueued' t rt recursive n = if recursive then kids t n else []) as ->.
  { unfold enqueued. by rewrite Hyield. }
  revert Hyield. unfold node_yield, visit.
  destruct (get_data t n) as [data|]; [|done].
  destruct (dict_item data "type") as [ty|]; [|done]. simpl.
  destruct (json_eqb ty (JStr "roa")).
  - destruct (String.eqb rt "ca_cert"); [done|].
    destruct (dict_item data "vrps") as [vrps|]; [|done]. simpl.
    rewrite (extract_vrps_outer vrps (asn_list st)).
    destruct (extract_vrps vrps []) as [[[pl0 o] l]|]; [|done]. simpl.
    intros [= <- <-]. unfold store. simpl. rewrite Hfold. simpl.
    exists []. by rewrite queue_extend, app_nil_r.
  - destruct (json_eqb ty (JStr "ca_cert")); [|done].
    destruct (String.eqb rt "roa"); [done|].
    destruct (dict_item data "subordinate_resources") as [sr|]; [|done]. simpl.
    destruct (extract_resources cidr_of sr) as [[pl0 l]|]; [|done]. simpl.
    intros [= <- <-]. unfold store. simpl. rewrite Hfold. simpl.
    exists l. by rewrite queue_extend.
Qed.

(** The loop over the prefixes of a node assigns the keys of the first
    trie to the first and those of the second to the second. *)
Lemma add_prefix_split n pl : ∀ a b a' b',
  forallb is_str pl = true →
  assign_all' n a (keys_v4 pl) = Ok a' →
  assign_all' n b (keys_v6 pl) = Ok b' →
  foldM (add_prefix pyt_setitem n) (a, b) pl = Ok (a', b').
Proof.
  induction pl as [|pfx pl IH]; intros a b a' b' Hstr H4 H6.
  - unfold assign_all in *. simpl in *. congruence.
  - simpl in Hstr. apply andb_true_iff in Hstr as [Hpfx Hstr].
    destruct pfx as [| | |s| |]; try done.
    unfold assign_all, keys_v4, keys_v6 in *. simpl in H4, H6.
    simpl. unfold add_prefix at 1. unfold is_default_route in *.
    destruct (json_eqb (JStr s) (JStr "0.0.0.0/0") || json_eqb (JStr s) (JStr "::/0")).
    + simpl in *. by apply IH.
    + simpl in *. destruct (str_contains ":" s); simpl in *.
      * destruct (pyt_setitem b (JStr s) n) as [b1|]; [|done]. simpl in *. by apply IH.
      * destruct (pyt_setitem a (JStr s) n) as [a1|]; [|done]. simpl in *. by apply IH.
Qed.

Lemma fill_cons select t rt n order (p : PyTricia) :
  fill' select t rt (n :: order) p
  = (p1 <- assign_all' n p (select (node_prefixes' t rt n)) ;; fill' select t rt order p1).
Proof. done. Qed.

Lemma fill_app select t rt order1 order2 (p : PyTricia) :
  fill' select t rt (order1 ++ order2) p
  = (p1 <- fill' select t rt order1 p ;; fill' select t rt order2 p1).
Proof. apply foldM_app. Qed.

Lemma next_level_cons t rt recursive n q :
  next_level' t rt recursive (n :: q)
  = enqueued' t rt recursive n ++ next_level' t rt recursive q.
Proof. done. Qed.

Lemma collected_asns_cons t rt n order :
  collected_asns' t rt (n :: order) = node_asns' t rt n ++ collected_asns' t rt order.
Proof. done. Qed.

Lemma enqueued_skipped t rt recursive n :
  node_yield' t rt n = Ok Skipped → enqueued' t rt recursive n = [].
Proof. intros H. unfold enqueued. rewrite H. by destruct recursive. Qed.

(** The visits of the SKIs at the front of the queue, whatever follows
    them: the SKIs they append come after. *)
Lemma collect_level t rt recursive todo : ∀ (st : state') acc a b,
  queue st = todo ++ acc →
  forallb (handled' t rt) todo = true →
  fill' keys_v4 t rt todo (pyt4 st) = Ok a →
  fill' keys_v6 t rt todo (pyt6 st) = Ok b →
  ∃ st',
    (∀ fuel, collect_loop' (length todo + fuel) t rt recursive st
             = collect_loop' fuel t rt recursive st')
    ∧ queue st' = acc ++ next_level' t rt recursive todo
    ∧ pyt4 st' = a ∧ pyt6 st' = b
    ∧ asn_list st' = asn_list st ++ collected_asns' t rt todo.
Proof.
  induction todo as [|n todo IH]; intros st acc a b Hq Hok H4 H6.
  - simpl in *. injection H4 as <-. injection H6 as <-.
    exists st. by rewrite !app_nil_r.
  - simpl in Hok. apply andb_true_iff in Hok as [Hn Hok].
    rewrite fill_cons in H4, H6.
    apply bind_ok_inv in H4 as (a1 & Ha1 & H4). apply bind_ok_inv in H6 as (b1 & Hb1 & H6).
    unfold handled in Hn. unfold node_prefixes in Ha1, Hb1.
    destruct (node_yield' t rt n) as [[|pl al|]|] eqn:Hyield; try done.
    + simpl in Ha1, Hb1. injection Ha1 as <-. injection Hb1 as <-.
      destruct (IH (mkState (S (ctr st)) (pyt4 st) (pyt6 st) (asn_list st)
                      (curr_asn_list st) (todo ++ acc)) acc a b)
        as (st' & Hrun & Hq' & H4' & H6' & Hasn); [done..|].
      exists st'. split; [|split; [|split; [done|split; [done|]]]].
      * intros fuel. cbn [length Nat.add]. rewrite collect_loop_unfold, Hq.
        cbn [app]. rewrite (visit_skipped _ _ _ _ _ Hyield). apply Hrun.
      * by rewrite Hq', next_level_cons, (enqueued_skipped _ _ _ _ Hyield).
      * rewrite Hasn, collected_asns_cons. simpl. unfold node_asns.
        by rewrite Hyield.
    + pose proof (add_prefix_split n pl _ _ _ _ Hn Ha1 Hb1) as Hfold.
      destruct (visit_resources t rt recursive n
                  (mkState (S (ctr st)) (pyt4 st) (pyt6 st) (asn_list st)
                     (curr_asn_list st) (todo ++ acc)) pl al a1 b1 Hyield Hfold)
        as [curr Hvisit].
      simpl in Hvisit.
      destruct (IH (mkState (S (ctr st)) a1 b1 (asn_list st ++ al) (Some curr)
                      ((todo ++ acc) ++ enqueued' t rt recursive n))
                  (acc ++ enqueued' t rt recursive n) a b)
        as (st' & Hrun & Hq' & H4' & H6' & Hasn); [by rewrite <- app_assoc|done..|].
      exists st'. split; [|split; [|split; [done|split; [done|]]]].
      * intros fuel. cbn [length Nat.add]. rewrite collect_loop_unfold, Hq.
        cbn [app]. rewrite Hvisit. apply Hrun.
      * by rewrite Hq', next_level_cons, <- app_assoc.
      * rewrite Hasn, collected_asns_cons. simpl. unfold node_asns.
        rewrite Hyield. by rewrite <- app_assoc.
Qed.

(** The whole loop, when the traversal has no more than [depth] levels. *)
Lemma collect_levels t rt recursive depth : ∀ (st : state') order a b,
  traversal' depth t rt recursive (queue st) = Some order →
  forallb (handled' t rt) order = true →
  fill' keys_v4 t rt order (pyt4 st) = Ok a →
  fill' keys_v6 t rt order (pyt6 st) = Ok b →
  ∃ st',
    (∀ fuel, collect_loop' (length order + S fuel) t rt recursive st = Some (Ok st'))
    ∧ pyt4 st' = a ∧ pyt6 st' = b
    ∧ asn_list st' = asn_list st ++ collected_asns' t rt order.
Proof.
  induction depth as [|depth IH]; intros st order a b Htrav Hok H4 H6.
  - destruct (queue st) as [|n q] eqn:Hq; [|done]. simpl in Htrav.
    injection Htrav as <-. simpl in *. injection H4 as <-. injection H6 as <-.
    exists st. split; [|by rewrite app_nil_r].
    intros fuel. cbn [length Nat.add]. rewrite ?collect_loop_unfold. by rewrite Hq.
  - destruct (queue st) as [|n q] eqn:Hq.
    { simpl in Htrav. injection Htrav as <-. simpl in *.
      injection H4 as <-. injection H6 as <-.
      exists st. split; [|by rewrite app_nil_r].
      intros fuel. cbn [length Nat.add]. rewrite ?collect_loop_unfold. by rewrite Hq. }
    cbn [traversal] in Htrav.
    destruct (traversal' depth t rt recursive (next_level' t rt recursive (n :: q)))
      as [rest|] eqn:Hrest; [|done].
    simpl in Htrav. injection Htrav as <-.
    change (n :: q ++ rest) with ((n :: q) ++ rest) in *.
    rewrite forallb_app in Hok. apply andb_true_iff in Hok as [Hok1 Hok2].
    rewrite fill_app in H4, H6.
    apply bind_ok_inv in H4 as (a1 & Ha1 & H4). apply bind_ok_inv in H6 as (b1 & Hb1 & H6).
    destruct (collect_level t rt recursive (n :: q) st [] a1 b1)
      as (st1 & Hrun1 & Hq1 & H41 & H61 & Hasn1); [by rewrite Hq, app_nil_r|done..|].
    simpl in Hq1.
    destruct (IH st1 rest a b) as (st' & Hrun & H4' & H6' & Hasn);
      [by rewrite Hq1|done|by rewrite H41|by rewrite H61|].
    exists st'. split; [|split; [done|split; [done|]]].
    + intros fuel. rewrite length_app, <- Nat.add_assoc, Hrun1. apply Hrun.
    + rewrite Hasn, Hasn1. unfold collected_asns. by rewrite flat_map_app, app_assoc.
Qed.

Lemma init_state_queue t root recursive :
  queue (init_state pyt_new4 pyt_new6 t root recursive) = init_queue t root recursive.
Proof.
  unfold init_state, init_queue, kids. simpl.
  destruct recursive; [|done]. by destruct (get_children t root).
Qed.

(** [get_resource_list] returns when the traversal is finite, every
    node on it is handled, the tries accept the keys and the ASNs can be
    hashed; the tries are the new ones with the keys of each node
    assigned in the order of the visits, and the set is that of the ASNs
    of the nodes. *)
Lemma get_resource_list_total t rt recursive root depth order p4 p6 asns :
  traversal' depth t rt recursive (init_queue t root recursive) = Some order →
  forallb (handled' t rt) order = true →
  fill' keys_v4 t rt order pyt_new4 = Ok p4 →
  fill' keys_v6 t rt order pyt_new6 = Ok p6 →
  py_set (collected_asns' t rt order) = Ok asns →
  ∀ fuel, (length order < fuel)%nat →
    get_resource_list' fuel t root rt recursive = Some (Ok (p4, p6, asns)).
Proof.
  intros Htrav Hok H4 H6 Hset fuel Hfuel.
  rewrite <- init_state_queue in Htrav.
  destruct (collect_levels t rt recursive depth _ order p4 p6 Htrav Hok H4 H6)
    as (st' & Hrun & H4' & H6' & Hasn).
  unfold get_resource_list.
  replace fuel with (length order + S (fuel - S (length order)))%nat by lia.
  rewrite Hrun. simpl in Hasn. rewrite Hasn, Hset. simpl. by rewrite H4', H6'.
Qed.

Lemma json_eqb_ca_cert_not_roa ty :
  json_eqb ty (JStr "ca_cert") = true → json_eqb ty (JStr "roa") = false.
Proof.
  destruct ty as [| | |s| |]; try done. simpl.
  by intros ->%String.eqb_eq.
Qed.

Lemma node_yield_roa_skipped t child data ty :
  get_data t child = Some data →
  dict_item data "type" = Ok ty → json_eqb ty (JStr "roa") = true →
  node_yield' t "ca_cert" child = Ok Skipped.
Proof. intros Hd Hty Hroa. unfold node_yield. rewrite Hd, Hty. simpl. by rewrite Hroa. Qed.

Lemma node_yield_roa t rt child data ty vrps prefixes asids :
  get_data t child = Some data →
  dict_item data "type" = Ok ty → json_eqb ty (JStr "roa") = true →
  rt ≠ "ca_cert" →
  dict_item data "vrps" = Ok (JList vrps) →
  mapM (λ v, subscript v "prefix") vrps = Ok prefixes →
  mapM (λ v, subscript v "asid") vrps = Ok asids →
  node_yield' t rt child = Ok (Resources prefixes asids).
Proof.
  intros Hd Hty Hroa Hrt Hvrps Hp Ha. unfold node_yield. rewrite Hd, Hty. simpl.
  rewrite Hroa. apply String.eqb_neq in Hrt. rewrite Hrt, Hvrps. simpl.
  by rewrite (extract_vrps_ok vrps prefixes asids [] Hp Ha).
Qed.

Lemma node_yield_ca_cert t rt node data ty sr :
  get_data t node = Some data →
  dict_item data "type" = Ok ty → json_eqb ty (JStr "ca_cert") = true →
  rt ≠ "roa" →
  dict_item data "subordinate_resources" = Ok sr →
  node_yield' t rt node = (r <- extract_resources cidr_of sr ;; Ok (Resources r.1 r.2)).
Proof.
  intros Hd Hty Hca Hrt Hsr. unfold node_yield. rewrite Hd, Hty. simpl.
  rewrite (json_eqb_ca_cert_not_roa _ Hca), Hca.
  apply String.eqb_neq in Hrt. by rewrite Hrt, Hsr.
Qed.

Lemma collected_asns_elem t rt order n x :
  n ∈ order → x ∈ node_asns' t rt n → x ∈ collected_asns' t rt order.
Proof.
  intros Hn Hx. unfold collected_asns. apply list_elem_of_In, in_flat_map.
  exists n. split; by apply list_elem_of_In.
Qed.

(** The assignments of one node, between those of the nodes before and
    after it. *)
Lemma fill_at select t rt before n after (p p' : PyTricia) :
  fill' select t rt (before ++ n :: after) p = Ok p' →
  ∃ p1 p2, fill' select t rt before p = Ok p1
           ∧ assign_all' n p1 (select (node_prefixes' t rt n)) = Ok p2
           ∧ fill' select t rt after p2 = Ok p'.
Proof.
  rewrite fill_app. intros (p1 & H1 & H)%bind_ok_inv.
  rewrite fill_cons in H. apply bind_ok_inv in H as (p2 & H2 & H3).
  by exists p1, p2.
Qed.

(** C1, as the code has it. [get_resource_list] returns when the
    traversal is finite, every node on it can be read, the tries accept
    the keys and the ASNs can be hashed. For every ROA it visits: when
    the resource type is ["ca_cert"] the ROA is skipped and contributes
    nothing. Otherwise the prefix of each of its VRPs, the default routes
    [0.0.0.0/0] and [::/0] excepted, is assigned under the SKI of the
    ROA, to the second trie when it holds a colon and to the first when
    it does not, at the ROA's turn in the order of the visits; and the
    origin ASN of each of its VRPs is in the set returned, with either
    value of the recursive flag. *)
Theorem roa_visit_adds_origin_asns (t : PKITree) (rt : string) (recursive : bool)
    (root : string) (depth : nat) (order : list string) (p4 p6 : PyTricia)
    (asns : list json) :
  traversal' depth t rt recursive (init_queue t root recursive) = Some order →
  forallb (handled' t rt) order = true →
  fill' keys_v4 t rt order pyt_new4 = Ok p4 →
  fill' keys_v6 t rt order pyt_new6 = Ok p6 →
  py_set (collected_asns' t rt order) = Ok asns →
  (∀ fuel, (length order < fuel)%nat →
     get_resource_list' fuel t root rt recursive = Some (Ok (p4, p6, asns)))
  ∧ ∀ before child after data ty vrps prefixes asids,
      order = before ++ child :: after →
      get_data t child = Some data →
      dict_item data "type" = Ok ty → json_eqb ty (JStr "roa") = true →
      dict_item data "vrps" = Ok (JList vrps) →
      mapM (λ v, subscript v "prefix") vrps = Ok prefixes →
      mapM (λ v, subscript v "asid") vrps = Ok asids →
      (rt = "ca_cert" →
         node_prefixes' t rt child = [] ∧ node_asns' t rt child = []
         ∧ enqueued' t rt recursive child = []
         ∧ ∀ st, visit' t rt recursive child st = Ok st)
      ∧ (rt ≠ "ca_cert" →
         node_prefixes' t rt child = prefixes ∧ node_asns' t rt child = asids
         ∧ (∃ a b, fill' keys_v4 t rt before pyt_new4 = Ok a
                   ∧ assign_all' child a (keys_v4 prefixes) = Ok b
                   ∧ fill' keys_v4 t rt after b = Ok p4)
         ∧ (∃ a b, fill' keys_v6 t rt before pyt_new6 = Ok a
                   ∧ assign_all' child a (keys_v6 prefixes) = Ok b
                   ∧ fill' keys_v6 t rt after b = Ok p6)
         ∧ ∀ a, a ∈ asids → list_contains a asns = true).
Proof.
  intros Htrav Hok H4 H6 Hset.
  split; [by apply (get_resource_list_total t rt recursive root depth order)|].
  intros before child after data ty vrps prefixes asids -> Hd Hty Hroa Hvrps Hp Ha.
  split.
  - intros ->.
    pose proof (node_yield_roa_skipped t child data ty Hd Hty Hroa) as Hyield.
    unfold node_prefixes, node_asns. rewrite Hyield.
    split; [done|]. split; [done|].
    split; [by apply enqueued_skipped|].
    intros st. by apply visit_skipped.
  - intros Hrt.
    pose proof (node_yield_roa t rt child data ty vrps prefixes asids
                  Hd Hty Hroa Hrt Hvrps Hp Ha) as Hyield.
    assert (node_prefixes' t rt child = prefixes) as Hpre
      by (unfold node_prefixes; by rewrite Hyield).
    assert (node_asns' t rt child = asids) as Hasn
      by (unfold node_asns; by rewrite Hyield).
    split; [done|]. split; [done|]. split; [|split].
    + destruct (fill_at _ _ _ _ _ _ _ _ H4) as (a & b & ? & ? & ?).
      exists a, b. by rewrite <- Hpre.
    + destruct (fill_at _ _ _ _ _ _ _ _ H6) as (a & b & ? & ? & ?).
      exists a, b. by rewrite <- Hpre.
    + intros a Hin. apply (py_set_contains _ _ _ Hset).
      apply (collected_asns_elem t rt _ child); [|by rewrite Hasn].
      apply elem_of_app. right. by left.
Qed.

Lemma extract_resources_without pre post before after v mn :
  subscript v "min" = Ok mn → subscript v "max" = Ok (JInt MAX_ASN_NUM) →
  extract_resources cidr_of
    (JList (pre ++ JDict (before ++ ("asrange", v) :: after) :: post))
  = extract_resources cidr_of (JList (pre ++ JDict (before ++ after) :: post)).
Proof.
  intros Hmin Hmax. unfold extract_resources. simpl.
  rewrite !foldM_app. destruct (foldM _ _ pre) as [acc|]; [|done]. simpl.
  unfold extract_resource at 1 3. simpl. rewrite !foldM_app.
  destruct (foldM _ acc before) as [acc'|]; [|done]. simpl.
  by rewrite (extract_item_asrange _ _ _ _ Hmin Hmax).
Qed.

(** C9. [get_resource_list] returns when the traversal is finite, every
    node on it can be read, the tries accept the keys and the ASNs can
    be hashed. For every [asrange] descriptor of a CA certificate it
    visits (the resource type not being ["roa"]): when [max] is
    4294967295 the descriptor leaves the lists as they were, and what the
    node contributes is what it would contribute without the descriptor;
    otherwise exactly the integers from [min] to [max] are appended, and
    each of them is in the ASN set returned. *)
Theorem asrange_collected (t : PKITree) (rt : string) (recursive : bool)
    (root : string) (depth : nat) (order : list string) (p4 p6 : PyTricia)
    (asns : list json) :
  traversal' depth t rt recursive (init_queue t root recursive) = Some order →
  forallb (handled' t rt) order = true →
  fill' keys_v4 t rt order pyt_new4 = Ok p4 →
  fill' keys_v6 t rt order pyt_new6 = Ok p6 →
  py_set (collected_asns' t rt order) = Ok asns →
  (∀ fuel, (length order < fuel)%nat →
     get_resource_list' fuel t root rt recursive = Some (Ok (p4, p6, asns)))
  ∧ ∀ node data ty pre post before after v mn,
      node ∈ order →
      get_data t node = Some data →
      dict_item data "type" = Ok ty → json_eqb ty (JStr "ca_cert") = true →
      rt ≠ "roa" →
      dict_item data "subordinate_resources"
      = Ok (JList (pre ++ JDict (before ++ ("asrange", v) :: after) :: post)) →
      subscript v "min" = Ok mn →
      (subscript v "max" = Ok (JInt MAX_ASN_NUM) →
         (∀ acc, extract_item cidr_of acc ("asrange", v) = Ok acc)
         ∧ node_yield' t rt node
           = (r <- extract_resources cidr_of
                     (JList (pre ++ JDict (before ++ after) :: post)) ;;
              Ok (Resources r.1 r.2)))
      ∧ (∀ a b, mn = JInt a → subscript v "max" = Ok (JInt b) → b ≠ MAX_ASN_NUM →
         (∀ pl al, extract_item cidr_of (pl, al) ("asrange", v)
                   = Ok (pl, al ++ map JInt (range a (b + 1))))
         ∧ (∀ x, a ≤ x ≤ b ↔ JInt x ∈ map JInt (range a (b + 1)))
         ∧ (∀ x, a ≤ x ≤ b →
              JInt x ∈ node_asns' t rt node ∧ list_contains (JInt x) asns = true)).
Proof.
  intros Htrav Hok H4 H6 Hset.
  split; [by apply (get_resource_list_total t rt recursive root depth order)|].
  intros node data ty pre post before after v mn Hnode Hd Hty Hca Hrt Hsr Hmin.
  pose proof (node_yield_ca_cert t rt node data ty _ Hd Hty Hca Hrt Hsr) as Hyield.
  split.
  - intros Hmax. split.
    + intros acc. by rewrite (extract_item_asrange _ _ _ _ Hmin Hmax).
    + by rewrite Hyield, (extract_resources_without _ _ _ _ _ _ Hmin Hmax).
  - intros a b -> Hmax Hb.
    assert ((b =? MAX_ASN_NUM) = false) as Hne by by apply Z.eqb_neq.
    split; [|split].
    + intros pl al. rewrite (extract_item_asrange _ _ _ _ Hmin Hmax). simpl.
      by rewrite Hne.
    + intros x. rewrite list_elem_of_fmap. split.
      * intros Hx. exists x. split; [done|]. apply elem_of_range. lia.
      * intros (y & [= ->] & Hy). apply elem_of_range in Hy. lia.
    + intros x Hx.
      assert (handled' t rt node = true) as Hhandled.
      { rewrite forallb_forall in Hok. apply Hok. by apply list_elem_of_In. }
      unfold handled in Hhandled. rewrite Hyield in Hhandled.
      destruct (extract_resources cidr_of _) as [[pl al]|] eqn:Hex; [|done].
      assert (JInt x ∈ node_asns' t rt node) as Hin.
      { unfold node_asns. rewrite Hyield. simpl.
        apply (extract_resources_asrange _ (before ++ ("asrange", v) :: after) v a b pl al
                 Hex); [|by apply elem_of_app; right; left|done..].
        apply elem_of_app. right. by left. }
      split; [done|].
      apply (py_set_contains _ _ _ Hset).
      by apply (collected_asns_elem t rt _ node).
Qed.

End CollectProps.

Lemma get_resource_list_missing_data_witness :
  get_data scenario_tree "Z" = None
  ∧ (∀ st, visit trie_setitem cidr_text scenario_tree "all" true "Z" st
           = Raise AttributeError)
  ∧ (∀ fuel st st',
       collect_loop trie_setitem cidr_text fuel scenario_tree "all" true st = Some (Ok st') →
       "Z" ∉ queue st)
  ∧ (∀ fuel, collect (S fuel) scenario_tree "Z" "all" true = Some (Raise AttributeError)).
Proof.
  split; [reflexivity|].
  exact (get_resource_list_missing_data (gmap string string) ∅ ∅ trie_setitem cidr_text
           scenario_tree "all" true "Z" eq_refl).
Defined.

Lemma roa_visit_adds_origin_asns_witness :
  traversal cidr_text 2 scenario_tree "all" true (init_queue scenario_tree "C" true)
  = Some ["C"; "A"; "A"]
  ∧ forallb (handled cidr_text scenario_tree "all") ["C"; "A"; "A"] = true
  ∧ fill trie_setitem cidr_text keys_v4 scenario_tree "all" ["C"; "A"; "A"] ∅
    = Ok (<["10.1.1.0/24" := "A"]> {["10.1.0.0/16" := "C"]})
  ∧ fill trie_setitem cidr_text keys_v6 scenario_tree "all" ["C"; "A"; "A"] ∅ = Ok ∅
  ∧ py_set (collected_asns cidr_text scenario_tree "all" ["C"; "A"; "A"]) = Ok [JInt 65001]
  ∧ (∀ fuel, (3 < fuel)%nat →
       collect fuel scenario_tree "C" "all" true
       = Some (Ok (<["10.1.1.0/24" := "A"]> {["10.1.0.0/16" := "C"]}, ∅, [JInt 65001])))
  ∧ node_prefixes cidr_text scenario_tree "all" "A" = [JStr "10.1.1.0/24"]
  ∧ node_asns cidr_text scenario_tree "all" "A" = [JInt 65001]
  ∧ ∀ a, a ∈ [JInt 65001] → list_contains a [JInt 65001] = true.
Proof.
  assert ("all" ≠ "ca_cert") as Hrt by discriminate.
  assert (fill trie_setitem cidr_text keys_v4 scenario_tree "all" ["C"; "A"; "A"] ∅
          = Ok (<["10.1.1.0/24" := "A"]> {["10.1.0.0/16" := "C"]})) as Hfill
    by (vm_compute; reflexivity).
  split; [reflexivity|]. split; [reflexivity|]. split; [exact Hfill|].
  split; [reflexivity|]. split; [reflexivity|].
  pose proof (roa_visit_adds_origin_asns (gmap string string) ∅ ∅ trie_setitem cidr_text
                scenario_tree "all" true "C" 2 ["C"; "A"; "A"] _ ∅ [JInt 65001]
                eq_refl eq_refl Hfill eq_refl eq_refl)
    as [Hresult Hroa].
  split; [exact Hresult|].
  destruct (Hroa ["C"] "A" ["A"] (roa_record "A" "C" [vrp "10.1.1.0/24" 65001])
              (JStr "roa") [vrp "10.1.1.0/24" 65001] [JStr "10.1.1.0/24"] [JInt 65001]
              eq_refl eq_refl eq_refl eq_refl eq_refl eq_refl eq_refl) as [_ Hall].
  destruct (Hall Hrt) as (Hpre & Hasn & _ & _ & Hin).
  split; [exact Hpre|]. split; [exact Hasn|exact Hin].
Defined.

(** The ROA [A] of the scenario carries one VRP with origin 65001: the
    set [get_resource_list] returns for it holds that ASN, with either
    value of the recursive flag, and so does the set returned for the
    subtree of its issuer. *)
Lemma roa_origin_asn_returned :
  collect 2 scenario_tree "A" "all" false
  = Some (Ok ({["10.1.1.0/24" := "A"]}, ∅, [JInt 65001]))
  ∧ collect 2 scenario_tree "A" "roa" true
    = Some (Ok ({["10.1.1.0/24" := "A"]}, ∅, [JInt 65001]))
  ∧ collect 6 scenario_tree "C" "all" true
    = Some (Ok (<["10.1.1.0/24" := "A"]> {["10.1.0.0/16" := "C"]}, ∅, [JInt 65001])).
Proof. repeat split; vm_compute; reflexivity. Qed.

(** The default routes of a ROA are dropped, their origin ASNs are not;
    a prefix with a colon goes to the second trie. *)
Example roa_default_routes_dropped :
  collect 2 default_routes_tree "D" "all" false
  = Some (Ok (∅, {["2001:db8::/32" := "D"]}, [JInt 65010; JInt 65011; JInt 65012]))
  ∧ keys_v4 (node_prefixes cidr_text default_routes_tree "all" "D") = []
  ∧ keys_v6 (node_prefixes cidr_text default_routes_tree "all" "D")
    = [JStr "2001:db8::/32"].
Proof. repeat split; vm_compute; reflexivity. Qed.

Lemma asrange_collected_witness :
  traversal cidr_text 1 ranges_tree "all" true (init_queue ranges_tree "N" true)
  = Some ["N"]
  ∧ forallb (handled cidr_text ranges_tree "all") ["N"] = true
  ∧ fill trie_setitem cidr_text keys_v4 ranges_tree "all" ["N"] ∅
    = Ok (<["10.0.0.2/32" := "N"]> {["10.0.0.1/32" := "N"]})
  ∧ fill trie_setitem cidr_text keys_v6 ranges_tree "all" ["N"] ∅ = Ok ∅
  ∧ py_set (collected_asns cidr_text ranges_tree "all" ["N"])
    = Ok [JInt 64512; JInt 64513; JInt 64514; JInt 64515]
  ∧ (∀ fuel, (1 < fuel)%nat →
       collect fuel ranges_tree "N" "all" true
       = Some (Ok (<["10.0.0.2/32" := "N"]> {["10.0.0.1/32" := "N"]}, ∅,
                   [JInt 64512; JInt 64513; JInt 64514; JInt 64515])))
  ∧ ∀ x, 64512 ≤ x ≤ 64515 →
      JInt x ∈ node_asns cidr_text ranges_tree "all" "N"
      ∧ list_contains (JInt x) [JInt 64512; JInt 64513; JInt 64514; JInt 64515] = true.
Proof.
  assert (fill trie_setitem cidr_text keys_v4 ranges_tree "all" ["N"] ∅
          = Ok (<["10.0.0.2/32" := "N"]> {["10.0.0.1/32" := "N"]})) as Hfill
    by (vm_compute; reflexivity).
  split; [reflexivity|]. split; [reflexivity|]. split; [exact Hfill|].
  split; [reflexivity|]. split; [reflexivity|].
  pose proof (asrange_collected (gmap string string) ∅ ∅ trie_setitem cidr_text
                ranges_tree "all" true "N" 1 ["N"] _ ∅
                [JInt 64512; JInt 64513; JInt 64514; JInt 64515]
                eq_refl eq_refl Hfill eq_refl eq_refl)
    as [Hresult Hnode].
  split; [exact Hresult|].
  assert ("all" ≠ "roa") as Hrt by discriminate.
  destruct (Hnode "N" _ (JStr "ca_cert") []
              [asrange 70000 4294967295;
               JDict [("ip_range", JDict [("min", JStr "10.0.0.1");
                                          ("max", JStr "10.0.0.2")])]]
              [] [] (JDict [("min", JInt 64512); ("max", JInt 64515)]) (JInt 64512)
              ltac:(by left) eq_refl eq_refl eq_refl Hrt eq_refl eq_refl) as [_ Hrange].
  destruct (Hrange 64512 64515 eq_refl eq_refl ltac:(done)) as (_ & _ & Hin).
  exact Hin.
Defined.

(** In the same record the range up to 4294967295 adds nothing: the
    node's resources are those of the record without it. *)
Example asrange_ceiling_skipped :
  node_yield cidr_text ranges_tree "all" "N"
  = Ok (Resources [JStr "10.0.0.1/32"; JStr "10.0.0.2/32"]
          [JInt 64512; JInt 64513; JInt 64514; JInt 64515]).
Proof. vm_compute. reflexivity. Qed.

Example collect_ranges :
  collect 3 ranges_tree "N" "all" true
  = Some (Ok (<["10.0.0.2/32" := "N"]> {["10.0.0.1/32" := "N"]}, ∅,
              [JInt 64512; JInt 64513; JInt 64514; JInt 64515])).
Proof. vm_compute. reflexivity. Qed.

(** ** The range normalizer *)

(** *** Trailing zero bits *)

Lemma odd_decomposition n : 0 < n → ∃ k q, 0 ≤ k ∧ 0 ≤ q ∧ n = 2 ^ k * (2 * q + 1).
Proof.
  destruct n as [|p|p]; try lia. intros _.
  induction p as [p _|p (k & q & Hk & Hq & IH)|].
  - exists 0, (Z.pos p). repeat split; lia.
  - exists (k + 1), q. repeat split; [lia|done|].
    rewrite Z.pow_add_r by lia. rewrite Pos2Z.inj_xO, IH. ring.
  - exists 0, 0. repeat split; lia.
Qed.

Lemma trailing_mask k q :
  0 ≤ k → Z.land (Z.lnot (2 ^ k * (2 * q + 1))) (2 ^ k * (2 * q + 1) - 1) = Z.ones k.
Proof.
  intros Hk. set (n := 2 ^ k * (2 * q + 1)).
  assert (0 < 2 ^ k) as Hpow by (apply Z.pow_pos_nonneg; lia).
  apply Z.bits_inj'. intros i Hi.
  rewrite Z.land_spec, Z.lnot_spec, Z.testbit_ones_nonneg by lia.
  destruct (Z.ltb_spec i k) as [Hlt|Hge].
  - assert (Z.testbit n i = false) as ->.
    { unfold n. rewrite Z.mul_comm. apply Z.mul_pow2_bits_low. lia. }
    simpl. rewrite <- (Z.mod_pow2_bits_low (n - 1) k i) by lia.
    assert ((n - 1) mod 2 ^ k = Z.ones k) as ->.
    { rewrite Z.ones_equiv. symmetry. apply (Z.mod_unique_pos _ _ (2 * q)); [lia|].
      unfold n. lia. }
    apply Z.ones_spec_low. lia.
  - replace i with ((i - k) + k) by lia.
    rewrite <- !Z.div_pow2_bits by lia.
    assert (n / 2 ^ k = 2 * q + 1) as ->.
    { unfold n. rewrite Z.mul_comm. apply Z.div_mul. lia. }
    assert ((n - 1) / 2 ^ k = 2 * q) as ->.
    { symmetry. apply (Z.div_unique_pos _ _ _ (2 ^ k - 1)); [lia|]. unfold n. lia. }
    destruct (Z.eq_dec (i - k) 0) as [->|Hne].
    + rewrite Z.testbit_even_0. apply andb_false_r.
    + replace (i - k) with (Z.succ (i - k - 1)) by lia.
      rewrite Z.testbit_odd_succ, Z.testbit_even_succ by lia.
      apply andb_negb_l.
Qed.

Lemma bit_length_ones k : 0 ≤ k → bit_length (Z.ones k) = k.
Proof.
  intros Hk. unfold bit_length. rewrite Z.ones_equiv.
  destruct (Z.eq_dec k 0) as [->|Hne]; [reflexivity|].
  assert (1 < 2 ^ k) by (apply Z.pow_gt_1; lia).
  destruct (Z.eqb_spec (Z.pred (2 ^ k)) 0) as [E|_]; [lia|].
  rewrite Z.abs_eq by lia. rewrite Z.log2_pred_pow2 by lia. lia.
Qed.

Lemma bit_length_log2 r : 0 < r → bit_length r - 1 = Z.log2 r.
Proof.
  intros Hr. unfold bit_length. destruct (Z.eqb_spec r 0); [lia|].
  rewrite Z.abs_eq by lia. lia.
Qed.

Lemma count_righthand_zero_bits_odd k q bits :
  0 ≤ k → 0 ≤ q →
  count_righthand_zero_bits (2 ^ k * (2 * q + 1)) bits = Z.min bits k.
Proof.
  intros Hk Hq. unfold count_righthand_zero_bits.
  assert (0 < 2 ^ k) as Hpow by (apply Z.pow_pos_nonneg; lia).
  destruct (Z.eqb_spec (2 ^ k * (2 * q + 1)) 0) as [E|_]; [nia|].
  by rewrite trailing_mask, bit_length_ones.
Qed.

Lemma pow2_divide_odd j k q : 0 ≤ j → 0 ≤ k → (2 ^ j | 2 ^ k * (2 * q + 1)) → j ≤ k.
Proof.
  intros Hj Hk [c Hc]. destruct (Z.le_gt_cases j k) as [|Hgt]; [done|]. exfalso.
  replace j with (k + 1 + (j - k - 1)) in Hc by lia.
  rewrite !Z.pow_add_r in Hc by lia.
  assert (0 < 2 ^ k) as Hpow by (apply Z.pow_pos_nonneg; lia).
  assert (2 * q + 1 = 2 * (c * 2 ^ (j - k - 1))) by nia. lia.
Qed.

(** *** One step of the loop *)

(** The number of bits chosen for the block at [first]: the block is
    aligned, stays below [last], and no larger aligned block does. *)
Lemma nbits_spec bits first last :
  0 ≤ bits → 0 ≤ first ≤ last → last < 2 ^ bits →
  let nbits := Z.min (count_righthand_zero_bits first bits)
                     (bit_length (last - first + 1) - 1) in
  0 ≤ nbits ≤ bits
  ∧ (2 ^ nbits | first)
  ∧ first + 2 ^ nbits - 1 ≤ last
  ∧ ∀ j, 0 ≤ j → (2 ^ j | first) → first + 2 ^ j - 1 ≤ last → j ≤ nbits.
Proof.
  intros Hbits Hfl Hlast. rewrite bit_length_log2 by lia.
  set (r := last - first + 1).
  assert (0 < r ≤ 2 ^ bits) as Hr by (unfold r; lia).
  pose proof (Z.log2_nonneg r) as Hlog0.
  pose proof (Z.log2_spec r ltac:(lia)) as [Hlog _].
  assert (Z.log2 r ≤ bits) as Hlogb.
  { rewrite <- (Z.log2_pow2 bits) by lia. apply Z.log2_le_mono. lia. }
  assert (Hsize : ∀ j, 0 ≤ j → first + 2 ^ j - 1 ≤ last → j ≤ Z.log2 r).
  { intros j Hj Hle. apply Z.log2_le_pow2; unfold r; lia. }
  destruct (Z.eq_dec first 0) as [->|Hne].
  - unfold count_righthand_zero_bits. simpl.
    repeat split; try lia.
    + apply Z.divide_0_r.
    + assert (2 ^ Z.min bits (Z.log2 r) ≤ 2 ^ Z.log2 r)
        by (apply Z.pow_le_mono_r; lia). lia.
    + intros j Hj _ Hle. specialize (Hsize j Hj Hle). lia.
  - destruct (odd_decomposition first ltac:(lia)) as (k & q & Hk & Hq & ->).
    rewrite count_righthand_zero_bits_odd by done.
    repeat split; try lia.
    + exists (2 ^ (k - Z.min (Z.min bits k) (Z.log2 r)) * (2 * q + 1)).
      rewrite Z.mul_shuffle0, <- Z.pow_add_r by lia. f_equal. f_equal. lia.
    + assert (2 ^ Z.min (Z.min bits k) (Z.log2 r) ≤ 2 ^ Z.log2 r)
        by (apply Z.pow_le_mono_r; lia). lia.
    + intros j Hj Hdiv Hle. specialize (Hsize j Hj Hle).
      apply pow2_divide_odd in Hdiv; lia.
Qed.

Lemma all_ones_ones bits : all_ones bits = Z.ones bits.
Proof. unfold all_ones. rewrite Z.ones_equiv. lia. Qed.

Lemma testbit_above bits a i : 0 ≤ a < 2 ^ bits → bits ≤ i → Z.testbit a i = false.
Proof.
  intros Ha Hi. destruct (Z.eq_dec a 0) as [->|Hne]; [apply Z.bits_0|].
  apply Z.bits_above_log2; [lia|].
  assert (Z.log2 a < bits); [|lia]. apply Z.log2_lt_pow2; lia.
Qed.

(** The network constructor accepts an aligned address. *)
Lemma make_network_aligned v first nbits :
  0 ≤ first < 2 ^ bits_of_version v → 0 ≤ nbits ≤ bits_of_version v →
  (2 ^ nbits | first) →
  make_network v first (bits_of_version v - nbits)
  = Ok (mkNetwork v first (bits_of_version v - nbits)).
Proof.
  set (bits := bits_of_version v). intros Hfirst Hn [c Hc].
  assert (0 ≤ bits) as Hbits by lia.
  unfold make_network. fold bits. rewrite !all_ones_ones.
  pose proof (Z.ones_equiv bits) as Hones.
  destruct (Z.ltb_spec first 0); [lia|].
  destruct (Z.ltb_spec (Z.ones bits) first); [lia|]. simpl.
  destruct (Z.ltb_spec (bits - nbits) 0); [lia|].
  destruct (Z.ltb_spec bits (bits - nbits)); [lia|]. simpl.
  assert (Z.land first (Z.lxor (Z.ones bits) (Z.shiftr (Z.ones bits) (bits - nbits)))
          = first) as ->; [|by rewrite Z.eqb_refl].
  apply Z.bits_inj'. intros i Hi.
  rewrite Z.land_spec, Z.lxor_spec, Z.shiftr_spec, !Z.testbit_ones_nonneg by lia.
  destruct (Z.lt_ge_cases i nbits) as [Hlow|Hhigh].
  - assert (Z.testbit first i = false) as ->; [|done].
    rewrite Hc. apply Z.mul_pow2_bits_low. lia.
  - destruct (Z.lt_ge_cases i bits) as [Hin|Hout].
    + destruct (Z.ltb_spec i bits); [|lia].
      destruct (Z.ltb_spec (i + (bits - nbits)) bits); [lia|].
      apply andb_true_r.
    + rewrite (testbit_above bits first i); [done|lia|done].
Qed.

Lemma block_bits_make v first nbits :
  block_bits (mkNetwork v first (bits_of_version v - nbits)) = nbits.
Proof. unfold block_bits. simpl. lia. Qed.

(** *** The loop *)

Lemma summarize_loop_greedy fuel first last :
  0 ≤ first → last < 2 ^ 32 → first ≤ last + 1 →
  (Z.to_nat (last - first + 1) < fuel)%nat →
  ∃ nets,
    summarize_loop fuel 4 first last = Some (Ok nets)
    ∧ Forall is_cidr4 nets
    ∧ greedy first nets last.
Proof.
  revert first. induction fuel as [|fuel IH]; intros first Hfirst Hlast Hle Hfuel; [lia|].
  simpl. destruct (Z.leb_spec first last) as [Hfl|Hgt].
  2:{ exists []. split; [done|]. split; [constructor|simpl; lia]. }
  change (bits_of_version 4) with 32.
  pose proof (nbits_spec 32 first last ltac:(lia) ltac:(lia) Hlast) as Hn.
  set (nbits := Z.min (count_righthand_zero_bits first 32)
                      (bit_length (last - first + 1) - 1)) in *.
  simpl in Hn. destruct Hn as (Hrange & Hdiv & Hfit & Hmax).
  pose proof (make_network_aligned 4 first nbits) as Hnet.
  change (bits_of_version 4) with 32 in Hnet.
  rewrite Hnet by (try done; lia). clear Hnet.
  rewrite Z.shiftl_1_l.
  assert (0 < 2 ^ nbits) as Hpow by (apply Z.pow_pos_nonneg; lia).
  set (net := mkNetwork 4 first (32 - nbits)).
  assert (block_bits net = nbits) as Hbb by apply (block_bits_make 4).
  assert (is_cidr4 net) as Hcidr.
  { unfold is_cidr4, block_size. rewrite Hbb. simpl. repeat split; try lia. done. }
  destruct (Z.eqb_spec (first + 2 ^ nbits - 1) (all_ones 32)) as [Hend|Hmore].
  - exists [net]. split; [done|]. split; [by apply Forall_singleton|]. split; [done|].
    split; [by rewrite Hbb|].
    simpl. unfold block_size. rewrite Hbb. unfold all_ones in Hend. lia.
  - destruct (IH (first + 2 ^ nbits)) as (nets & Hrun & Hall & Hgreedy); try lia.
    rewrite Hrun. exists (net :: nets). split; [done|]. split; [by constructor|].
    split; [done|]. split; [by rewrite Hbb|].
    unfold block_size. by rewrite Hbb.
Qed.

Lemma greedy_tiles a l b : greedy a l b → tiles a l b.
Proof.
  revert a. induction l as [|n l IH]; intros a; simpl; [done|].
  intros (Ha & _ & Hrest). split; [done|]. by apply IH.
Qed.

Lemma block_size_pos n : is_cidr4 n → 0 < block_size n.
Proof.
  intros (Hv & Hp & _). unfold block_size, block_bits. rewrite Hv.
  change (bits_of_version 4) with 32. apply Z.pow_pos_nonneg; lia.
Qed.

Lemma tiles_covers a l b :
  Forall is_cidr4 l → tiles a l b → a ≤ b + 1 ∧ covers l a b.
Proof.
  revert a. induction l as [|n l IH]; intros a Hall; simpl.
  - intros ->. split; [lia|]. intros x. split; [|lia].
    intros (n & Hn & _). by apply elem_of_nil in Hn.
  - apply Forall_cons in Hall as [Hn Hall]. intros [Ha Hrest].
    pose proof (block_size_pos n Hn) as Hpos.
    destruct (IH _ Hall Hrest) as [Hle Hcov]. split; [lia|].
    intros x. split.
    + intros (m & [->|Hm]%elem_of_cons & Hx).
      * unfold in_block in Hx. lia.
      * assert (a + block_size n ≤ x ≤ b); [|lia]. apply Hcov. eauto.
    + intros Hx. destruct (Z.lt_ge_cases x (a + block_size n)) as [Hin|Hout].
      * exists n. split; [by left|]. unfold in_block. lia.
      * destruct (proj2 (Hcov x) ltac:(lia)) as (m & Hm & Hxm).
        exists m. split; [by right|done].
Qed.

(** *** Minimality *)

Lemma multiples_apart d p q : 0 < d → (d | p) → (d | q) → p < q → p + d ≤ q.
Proof.
  intros Hd [x ->] [y ->] Hlt. apply Z.mul_lt_mono_pos_r in Hlt; [|done].
  replace (x * d + d) with ((x + 1) * d) by ring.
  apply Z.mul_le_mono_nonneg_r; lia.
Qed.

Lemma multiples_same d p q : 0 < d → (d | p) → (d | q) → q ≤ p < q + d → p = q.
Proof.
  intros Hd Hp Hq [Hle Hlt]. destruct (Z.eq_dec p q) as [|Hne]; [done|].
  pose proof (multiples_apart d q p Hd Hq Hp ltac:(lia)). lia.
Qed.

Lemma pow2_divide_le j k : 0 ≤ j ≤ k → (2 ^ j | 2 ^ k).
Proof.
  intros Hjk. exists (2 ^ (k - j)). rewrite <- Z.pow_add_r by lia. f_equal. lia.
Qed.

Lemma greedy_minimal nets : ∀ a b other,
  Forall is_cidr4 nets → greedy a nets b →
  Forall is_cidr4 other → covers other a b →
  (length nets ≤ length other)%nat.
Proof.
  induction nets as [|n rest IH]; intros a b other Hnets Hgreedy Hother Hcov; [simpl; lia|].
  apply Forall_cons in Hnets as [Hn Hrest].
  destruct Hgreedy as (Haddr & Hmax & Hgreedy).
  pose proof (block_size_pos n Hn) as Hpos.
  destruct (tiles_covers _ _ _ Hrest (greedy_tiles _ _ _ Hgreedy)) as [Hend _].
  assert (0 ≤ block_bits n) as Hk.
  { destruct Hn as (Hv & Hp & _). unfold block_bits. rewrite Hv.
    change (bits_of_version 4) with 32. lia. }
  assert (block_size n | a) as Hdiv.
  { destruct Hn as (_ & _ & _ & Hd). by rewrite <- Haddr. }
  unfold block_size in *. set (k := block_bits n) in *.
  set (E := a + 2 ^ k) in *.
  (* what every block of the other cover satisfies *)
  assert (Hblock : ∀ m, m ∈ other →
            0 ≤ block_bits m ∧ 0 < 2 ^ block_bits m
            ∧ (2 ^ block_bits m | network_address m)
            ∧ a ≤ network_address m
            ∧ network_address m + 2 ^ block_bits m - 1 ≤ b).
  { intros m Hm. rewrite Forall_forall in Hother.
    pose proof (Hother m Hm) as Hc. pose proof (block_size_pos m Hc) as Hmpos.
    destruct Hc as (Hv & Hp & _ & Hd). unfold block_size in *.
    assert (0 ≤ block_bits m) as Hj.
    { unfold block_bits. rewrite Hv. change (bits_of_version 4) with 32. lia. }
    repeat split; try done.
    - apply (Hcov (network_address m)). exists m. split; [done|].
      unfold in_block, block_size. lia.
    - apply (Hcov (network_address m + 2 ^ block_bits m - 1)). exists m.
      split; [done|]. unfold in_block, block_size. lia. }
  set (outside := filter (λ m, E ≤ network_address m) other).
  assert (covers outside E b) as Hcov'.
  { intros x. split.
    - intros (m & Hm & Hx). apply list_elem_of_filter in Hm as [HE Hm].
      assert (a ≤ x ≤ b) by (apply Hcov; eauto).
      unfold in_block in Hx. lia.
    - intros Hx. destruct (proj2 (Hcov x) ltac:(lia)) as (m & Hm & Hxm).
      exists m. split; [|done]. apply list_elem_of_filter. split; [|done].
      destruct (Hblock m Hm) as (Hj & Hjpos & Hjdiv & Hlow & Hhigh).
      unfold in_block, block_size in Hxm. set (j := block_bits m) in *.
      destruct (Z.le_gt_cases E (network_address m)) as [|Hlt]; [done|]. exfalso.
      destruct (Z.le_gt_cases j k) as [Hjk|Hjk].
      + assert (2 ^ j | E) as HdivE.
        { apply Z.divide_add_r; [|by apply pow2_divide_le].
          apply (Z.divide_trans _ (2 ^ k)); [by apply pow2_divide_le|done]. }
        pose proof (multiples_apart _ _ _ Hjpos Hjdiv HdivE Hlt). lia.
      + assert (2 ^ k | network_address m) as Hdivk.
        { apply (Z.divide_trans _ (2 ^ j)); [apply pow2_divide_le; lia|done]. }
        assert (network_address m = a) as Heq.
        { apply (multiples_same (2 ^ k)); first [done | unfold E in Hlt; lia]. }
        rewrite Heq in *. specialize (Hmax j Hj Hjdiv Hhigh). lia. }
  assert (Forall is_cidr4 outside) as Hout.
  { apply Forall_forall. intros m Hm. apply list_elem_of_filter in Hm as [_ Hm].
    rewrite Forall_forall in Hother. by apply Hother. }
  pose proof (IH E b outside Hrest Hgreedy Hout Hcov') as Hlen.
  destruct (proj2 (Hcov a) ltac:(lia)) as (m0 & Hm0 & Ha0).
  assert (length outside < length other)%nat as Hlt.
  { apply (length_filter_lt _ _ m0); [done|]. unfold in_block in Ha0. unfold E. lia. }
  simpl. lia.
Qed.

(** *** Reading addresses *)

Lemma digit_value_nonneg c : is_digit c = true → 0 ≤ digit_value c.
Proof.
  unfold is_digit, digit_value. intros [H _]%andb_true_iff.
  apply Nat.leb_le in H. lia.
Qed.

Lemma decimal_value_nonneg s acc : all_digits s = true → 0 ≤ acc → 0 ≤ decimal_value s acc.
Proof.
  revert acc. induction s as [|c s IH]; intros acc; simpl; [done|].
  intros [Hc Hs]%andb_true_iff Hacc. apply IH; [done|].
  pose proof (digit_value_nonneg c Hc). lia.
Qed.

Lemma parse_octet_range s n : parse_octet s = Some n → 0 ≤ n ≤ 255.
Proof.
  unfold parse_octet. intros H.
  repeat case_match; try discriminate. injection H as <-.
  match goal with
  | Hd : negb (all_digits ?o) = false, Hle : (255 <? decimal_value ?o 0) = false |- _ =>
      apply Z.ltb_ge in Hle; split; [|exact Hle];
      apply (decimal_value_nonneg o 0); [by destruct (all_digits o)|done]
  end.
Qed.

Lemma lor_bound n x y : 0 ≤ n → 0 ≤ x < 2 ^ n → 0 ≤ y < 2 ^ n → 0 ≤ Z.lor x y < 2 ^ n.
Proof.
  intros Hn Hx Hy. split; [apply Z.lor_nonneg; lia|].
  destruct (Z.eq_dec x 0) as [->|Hx0]; [rewrite Z.lor_0_l; lia|].
  destruct (Z.eq_dec y 0) as [->|Hy0]; [rewrite Z.lor_0_r; lia|].
  assert (0 < Z.lor x y) as Hpos.
  { assert (0 ≤ Z.lor x y) by (apply Z.lor_nonneg; lia).
    assert (Z.lor x y ≠ 0); [|lia]. intros [? ?]%Z.lor_eq_0_iff. lia. }
  apply Z.log2_lt_pow2; [done|]. rewrite Z.log2_lor by lia.
  apply Z.max_lub_lt; apply Z.log2_lt_pow2; lia.
Qed.

Lemma ipv4_of_string_range s a : ipv4_of_string s = Some a → 0 ≤ a < 2 ^ 32.
Proof.
  unfold ipv4_of_string. destruct (str_contains "/" s); [done|].
  destruct (split "." s) as [|o1 [|o2 [|o3 [|o4 [|? ?]]]]]; try done.
  destruct (parse_octet o1) as [n1|] eqn:H1; [|done].
  destruct (parse_octet o2) as [n2|] eqn:H2; [|done].
  destruct (parse_octet o3) as [n3|] eqn:H3; [|done].
  destruct (parse_octet o4) as [n4|] eqn:H4; [|done]. simpl.
  apply parse_octet_range in H1, H2, H3, H4. intros [= <-].
  rewrite !Z.shiftl_mul_pow2 by lia.
  repeat apply lor_bound; lia.
Qed.

(** More fuel does not change the answer of the loop. *)
Lemma summarize_loop_mono fuel fuel' v first last r :
  (fuel ≤ fuel')%nat →
  summarize_loop fuel v first last = Some r → summarize_loop fuel' v first last = Some r.
Proof.
  revert fuel' first r. induction fuel as [|fuel IH]; intros fuel' first r Hle; [done|].
  destruct fuel' as [|fuel']; [lia|]. simpl.
  destruct (first <=? last); [|done].
  destruct (make_network _ _ _) as [net|]; [|done].
  destruct (_ =? all_ones _); [done|].
  destruct (summarize_loop fuel v _ last) as [r'|] eqn:E; [|by destruct r].
  by rewrite (IH fuel' _ r' ltac:(lia) E).
Qed.

Section CidrProps.
Variable ipv6_of_string : string → option Z.
Variable ipv6_str : Z → string.

Local Abbreviation get_cidr' := (get_cidr ipv6_of_string ipv6_str).

(** C8. For IPv4 address texts [start_ip] and [end_ip] with
    [start_ip <= end_ip], [get_cidr] returns: the list it gives is the
    text of well-formed CIDR blocks that follow one another from the
    first address to the last without gap or overlap, so their addresses
    are exactly those of the range, and no list of CIDR blocks with
    exactly these addresses is shorter. In particular the range
    10.0.0.0 - 10.0.0.255 gives [10.0.0.0/24] and the range
    10.0.0.1 - 10.0.0.2 gives [10.0.0.1/32; 10.0.0.2/32]. *)
Theorem get_cidr_minimal_cover :
  (∀ (start_ip end_ip : string) (a b : Z),
     ipv4_of_string start_ip = Some a → ipv4_of_string end_ip = Some b → a ≤ b →
     ∃ nets,
       (∀ fuel, (Z.to_nat (b - a + 1) < fuel)%nat →
          get_cidr' fuel start_ip end_ip = Some (Ok (map (network_str ipv6_str) nets)))
       ∧ Forall is_cidr4 nets
       ∧ tiles a nets b
       ∧ covers nets a b
       ∧ (∀ other, Forall is_cidr4 other → covers other a b →
            (length nets ≤ length other)%nat))
  ∧ get_cidr' 257 "10.0.0.0" "10.0.0.255" = Some (Ok ["10.0.0.0/24"])
  ∧ get_cidr' 3 "10.0.0.1" "10.0.0.2" = Some (Ok ["10.0.0.1/32"; "10.0.0.2/32"]).
Proof.
  split; [|split; vm_compute; reflexivity].
  intros start_ip end_ip a b Ha Hb Hab.
  pose proof (ipv4_of_string_range _ _ Ha) as Hra.
  pose proof (ipv4_of_string_range _ _ Hb) as Hrb.
  destruct (summarize_loop_greedy (S (Z.to_nat (b - a + 1))) a b
              (proj1 Hra) (proj2 Hrb) ltac:(lia) ltac:(lia))
    as (nets & Hrun & Hall & Hgreedy).
  pose proof (greedy_tiles _ _ _ Hgreedy) as Htiles.
  exists nets. split; [|split; [done|split; [done|split]]].
  - intros fuel Hfuel. unfold get_cidr, ip_address. rewrite Ha, Hb.
    unfold summarize_address_range. simpl.
    destruct (Z.ltb_spec b a); [lia|].
    by rewrite (summarize_loop_mono (S (Z.to_nat (b - a + 1))) fuel 4 a b _ ltac:(lia) Hrun).
  - by apply tiles_covers.
  - intros other Hother Hcov. by apply (greedy_minimal nets a b).
Qed.

End CidrProps.

Lemma get_cidr_minimal_cover_witness :
  ipv4_of_string "10.0.0.1" = Some 167772161
  ∧ ipv4_of_string "10.0.1.77" = Some 167772493
  ∧ 167772161 ≤ 167772493
  ∧ ∃ nets,
      (∀ fuel, (Z.to_nat (167772493 - 167772161 + 1) < fuel)%nat →
         get_cidr (λ _, None) (λ _, EmptyString) fuel "10.0.0.1" "10.0.1.77"
         = Some (Ok (map (network_str (λ _, EmptyString)) nets)))
      ∧ Forall is_cidr4 nets
      ∧ tiles 167772161 nets 167772493
      ∧ covers nets 167772161 167772493
      ∧ (∀ other, Forall is_cidr4 other → covers other 167772161 167772493 →
           (length nets ≤ length other)%nat).
Proof.
  split; [reflexivity|]. split; [reflexivity|]. split; [lia|].
  apply (proj1 (get_cidr_minimal_cover (λ _, None) (λ _, EmptyString))
           "10.0.0.1" "10.0.1.77" 167772161 167772493); [reflexivity|reflexivity|lia].
Defined.

Example get_cidr_unaligned :
  get_cidr (λ _, None) (λ _, EmptyString) 400 "10.0.0.1" "10.0.1.77"
  = Some (Ok ["10.0.0.1/32"; "10.0.0.2/31"; "10.0.0.4/30"; "10.0.0.8/29";
              "10.0.0.16/28"; "10.0.0.32/27"; "10.0.0.64/26"; "10.0.0.128/25";
              "10.0.1.0/26"; "10.0.1.64/29"; "10.0.1.72/30"; "10.0.1.76/31"]).
Proof. vm_compute. reflexivity. Qed.

(** A range that ends before it starts is rejected. *)
Example get_cidr_reversed :
  get_cidr (λ _, None) (λ _, EmptyString) 1 "10.0.0.2" "10.0.0.1" = Some (Raise ValueError).
Proof. reflexivity. Qed.

(** ** Lookups after a sequence of calls *)

Lemma node_data_insert_node_lookup t ski aki data k :
  node_data (insert_node t ski aki data) !! k
  = match node_data t !! k with
    | Some d => Some d
    | None => if decide (k = ski) then Some data else None
    end.
Proof.
  unfold insert_node.
  destruct (decide (is_Some (node_data t !! ski))) as [[d Hd]|Hn].
  - destruct (node_data t !! k) eqn:Hk; [done|].
    destruct (decide (k = ski)) as [->|]; [congruence|done].
  - assert (∀ p2c c2p, node_data (mkTree p2c c2p (<[ski:=data]> (node_data t))) !! k
              = match node_data t !! k with
                | Some d => Some d
                | None => if decide (k = ski) then Some data else None
                end) as Hnd.
    { intros p2c c2p. simpl. destruct (decide (k = ski)) as [->|Hk].
      - rewrite lookup_insert_eq. destruct (node_data t !! ski) eqn:E; [|done].
        exfalso. apply Hn. by eexists.
      - rewrite lookup_insert_ne by done. by destruct (node_data t !! k). }
    destruct (dd_get ski (child_to_parent t)) as [cur c2p].
    destruct (0 <? String.length cur)%nat; apply Hnd.
Qed.

Lemma first_call_snoc ski calls c :
  first_call ski (calls ++ [c])
  = match first_call ski calls with
    | Some r => Some r
    | None => if String.eqb c.1.1 ski then Some (c.1.2, c.2) else None
    end.
Proof.
  induction calls as [|c' calls IH]; simpl; [done|].
  by destruct (String.eqb c'.1.1 ski).
Qed.

(** A parent entry of a node with data survives every later call. *)
Lemma get_parent_insert_node_stable t ski aki data k :
  tree_inv t → is_Some (node_data t !! k) →
  get_parent (insert_node t ski aki data) k = get_parent t k.
Proof.
  intros Hinv Hk. destruct (node_data t !! ski) as [d|] eqn:Hd.
  - rewrite insert_node_present; [done|by eexists].
  - rewrite insert_node_fresh by done. unfold get_parent.
    apply inserted_lookup_other.
    + intros ->. destruct Hk as [? Hk]. congruence.
    + by apply (inv_data_parent t Hinv).
Qed.

Lemma lookup_first_call (calls : list call) (ski : string) :
  match first_call ski calls with
  | Some (aki, data) =>
      get_data (build calls) ski = Some data
      ∧ get_parent (build calls) ski
        = Some (if decide (aki = ski) then EmptyString else aki)
  | None => get_data (build calls) ski = None
  end.
Proof.
  induction calls as [|c calls IH] using rev_ind; [done|].
  rewrite first_call_snoc, build_snoc. unfold apply_call, get_data in *.
  rewrite node_data_insert_node_lookup.
  destruct (first_call ski calls) as [[aki data]|].
  - destruct IH as [Hd Hp]. rewrite Hd. split; [done|].
    rewrite get_parent_insert_node_stable; [done|apply tree_inv_build|by eexists].
  - rewrite IH. destruct (String.eqb_spec c.1.1 ski) as [<-|Hne].
    + rewrite decide_True by done. split; [done|].
      rewrite insert_node_fresh; [|apply tree_inv_build|done].
      unfold get_parent. rewrite inserted_lookup_self.
      destruct (decide (c.1.1 = c.1.2)), (decide (c.1.2 = c.1.1)); congruence.
    + by rewrite decide_False by done.
Qed.

(** X1. First insertion wins, for the data and for the parent: after any
    sequence of calls, [get_data] of an SKI is the data of the first call
    that carried it and [get_parent] is that call's [aki] (the empty
    string when the call named the SKI itself); an SKI no call carried
    has no data. *)
Theorem first_insertion_wins (calls : list call) (ski : string) :
  match first_call ski calls with
  | Some (aki, data) =>
      get_data (build calls) ski = Some data
      ∧ get_parent (build calls) ski
        = Some (if decide (aki = ski) then EmptyString else aki)
  | None => get_data (build calls) ski = None
  end.
Proof. apply lookup_first_call. Qed.

Lemma first_call_elem ski calls aki data :
  first_call ski calls = Some (aki, data) → (ski, aki, data) ∈ calls.
Proof.
  induction calls as [|[[s a] d] calls IH]; simpl; [done|].
  destruct (String.eqb_spec s ski) as [->|_].
  - intros [= -> ->]. by left.
  - intros H. right. by apply IH.
Qed.

Lemma get_data_from_call calls ski data :
  get_data (build calls) ski = Some data → ∃ aki, (ski, aki, data) ∈ calls.
Proof.
  intros Hd. pose proof (lookup_first_call calls ski) as H.
  destruct (first_call ski calls) as [[aki d]|] eqn:E; [|congruence].
  destruct H as [Hd' _]. exists aki. apply first_call_elem.
  rewrite E. congruence.
Qed.

Lemma children_of_snoc p seen calls c :
  children_of p seen (calls ++ [c])
  = children_of p seen calls
    ++ (if bool_decide (c.1.1 ∈ seen ++ skis calls) then []
        else if bool_decide (c.1.2 = p ∧ c.1.1 ≠ p) then [c.1.1] else []).
Proof.
  revert seen. induction calls as [|c' calls IH]; intros seen.
  - simpl. rewrite app_nil_r. by repeat case_bool_decide.
  - assert (Hmem : ∀ x, x ∈ (c'.1.1 :: seen) ++ skis calls ↔ x ∈ seen ++ skis (c' :: calls)).
    { intros x. unfold skis. simpl. rewrite !elem_of_app, !elem_of_cons, elem_of_app. tauto. }
    simpl. destruct (bool_decide (c'.1.1 ∈ seen)) eqn:Hseen.
    + rewrite IH. f_equal. apply bool_decide_eq_true in Hseen.
      assert (c.1.1 ∈ seen ++ skis calls ↔ c.1.1 ∈ seen ++ skis (c' :: calls)) as Hiff.
      { unfold skis. simpl. rewrite !elem_of_app, elem_of_cons.
        split; [tauto|]. intros [?|[->|?]]; tauto. }
      by rewrite (bool_decide_ext _ _ Hiff).
    + destruct (bool_decide (c'.1.2 = p ∧ c'.1.1 ≠ p));
        by rewrite IH, (bool_decide_ext _ _ (Hmem c.1.1)).
Qed.

Lemma get_children_children_of (calls : list call) (p : string) :
  get_children (build calls) p
  = match children_of p [] calls with
    | [] => None
    | l => Some l
    end.
Proof.
  induction calls as [|c calls IH] using rev_ind; [done|].
  rewrite children_of_snoc, build_snoc. unfold apply_call. simpl.
  destruct (node_data (build calls) !! c.1.1) as [d|] eqn:Hd.
  - rewrite insert_node_present by by eexists.
    rewrite bool_decide_eq_true_2, app_nil_r; [done|].
    apply node_data_build. by eexists.
  - rewrite insert_node_fresh; [|apply tree_inv_build|done].
    rewrite bool_decide_eq_false_2.
    2:{ intros Hin. apply node_data_build in Hin as [? Hin]. congruence. }
    unfold get_children in *. simpl.
    destruct (decide (c.1.1 ≠ c.1.2)) as [Hne|Heq].
    + unfold dd_append. destruct (decide (c.1.2 = p)) as [<-|Hp].
      * rewrite lookup_insert_eq, bool_decide_eq_true_2 by done.
        rewrite IH. by destruct (children_of c.1.2 [] calls).
      * rewrite lookup_insert_ne by done.
        rewrite bool_decide_eq_false_2 by tauto. by rewrite app_nil_r.
    + rewrite bool_decide_eq_false_2, app_nil_r; [done|].
      intros [<- Hne]. apply Heq. congruence.
Qed.

(** X2. After any sequence of calls, [get_children] of [p] is the list of
    the SKIs that were inserted (not ignored as duplicates) with [p] as
    [aki] and are not [p] itself, in the order of the calls; it is [None],
    never the empty list, when there is none. *)
Theorem get_children_build (calls : list call) (p : string) :
  get_children (build calls) p
  = match children_of p [] calls with
    | [] => None
    | l => Some l
    end.
Proof. apply get_children_children_of. Qed.

Lemma children_of_fresh p seen calls x :
  x ∈ children_of p seen calls → (x ∉ seen) ∧ x ≠ p ∧ x ∈ skis calls.
Proof.
  revert seen. induction calls as [|c calls IH]; intros seen; simpl.
  - by intros ?%elem_of_nil.
  - unfold skis in *. simpl. case_bool_decide as Hseen.
    + intros Hx. destruct (IH _ Hx) as (? & ? & ?). repeat split; [done..|by right].
    + case_bool_decide as Hp.
      * intros [->|Hx]%elem_of_cons; [repeat split; [done|tauto|by left]|].
        destruct (IH _ Hx) as (Hns & ? & ?). repeat split; [|done|by right].
        intros ?. apply Hns. by right.
      * intros Hx. destruct (IH _ Hx) as (Hns & ? & ?). repeat split; [|done|by right].
        intros ?. apply Hns. by right.
Qed.

Lemma children_of_NoDup p seen calls : NoDup (children_of p seen calls).
Proof.
  revert seen. induction calls as [|c calls IH]; intros seen; simpl; [constructor|].
  repeat case_bool_decide; try apply IH.
  constructor; [|apply IH].
  intros Hin. apply children_of_fresh in Hin as [Hns _]. apply Hns. by left.
Qed.

(** X3. The shape of a child list: no SKI is listed twice, no SKI is
    listed under itself, and every SKI listed under [p] has node data and
    has [p] as its recorded parent (so it is listed under no other SKI). *)
Theorem child_list_shape (calls : list call) (p : string) (l : list string) :
  get_children (build calls) p = Some l →
  NoDup l
  ∧ ∀ c, c ∈ l →
      c ≠ p
      ∧ is_Some (get_data (build calls) c)
      ∧ get_parent (build calls) c = Some p
      ∧ ∀ p' l', get_children (build calls) p' = Some l' → c ∈ l' → p' = p.
Proof.
  intros Hl. pose proof (tree_inv_build calls) as Hinv.
  assert (l = children_of p [] calls) as Hchildren.
  { rewrite get_children_children_of in Hl. destruct (children_of p [] calls); congruence. }
  split; [rewrite Hchildren; apply children_of_NoDup|].
  intros c Hc. destruct (inv_children _ Hinv p l Hl) as [_ Hall].
  destruct (Hall c Hc) as [Hdata Hparent].
  split; [|split; [done|split; [done|]]].
  - rewrite Hchildren in Hc. by apply children_of_fresh in Hc as (_ & ? & _).
  - intros p' l' Hl' Hc'. destruct (inv_children _ Hinv p' l' Hl') as [_ Hall'].
    destruct (Hall' c Hc') as [_ Hparent']. congruence.
Qed.

Lemma child_list_shape_witness :
  get_children scenario_tree "R" = Some ["C"]
  ∧ NoDup ["C"]
  ∧ ∀ c, c ∈ ["C"] →
      c ≠ "R"
      ∧ is_Some (get_data scenario_tree c)
      ∧ get_parent scenario_tree c = Some "R"
      ∧ ∀ p' l', get_children scenario_tree p' = Some l' → c ∈ l' → p' = "R".
Proof.
  split; [reflexivity|].
  exact (child_list_shape scenario_calls "R" ["C"] eq_refl).
Defined.

(** A node inserted as its own parent is listed under no SKI, not even
    under the empty one, although its recorded parent is empty. *)
Example self_parent_not_listed :
  get_parent (build [("A", "A", [])]) "A" = Some EmptyString
  ∧ get_children (build [("A", "A", [])]) EmptyString = None.
Proof. split; reflexivity. Qed.

(** ** More on paths *)

Lemma get_path_loop_none fuel t acc r :
  get_path_loop fuel t None acc = Some r → r = Raise TypeError.
Proof. destruct fuel; simpl; congruence. Qed.

Lemma parent_chain_last t path r :
  parent_chain t path → last path = Some r → r ≠ EmptyString.
Proof.
  induction path as [|x [|y rest] IH]; simpl; [done|..].
  - intros (Hx & _) [= <-]. done.
  - intros (_ & _ & Hrest) Hlast. by apply IH.
Qed.

Lemma get_path_loop_chain fuel t s acc path :
  get_path_loop fuel t (Some s) acc = Some (Ok path) →
  ∃ tail, path = acc ++ tail
    ∧ ((s = EmptyString ∧ tail = [])
       ∨ (head tail = Some s ∧ parent_chain t tail
          ∧ ∃ r, last tail = Some r
                 ∧ (get_parent t r = Some EmptyString ∨ get_parent t r = Some r))).
Proof.
  revert s acc. induction fuel as [|fuel IH]; intros s acc; [done|].
  rewrite get_path_loop_unfold.
  destruct (0 <? String.length s)%nat eqn:Hlen.
  2:{ intros [= <-]. exists []. rewrite app_nil_r. split; [done|]. left.
      split; [|done]. destruct s; [done|discriminate]. }
  apply nonempty_length in Hlen.
  destruct (decide (get_parent t s = Some s)) as [Hself|Hnot].
  - intros [= <-]. exists [s]. split; [done|]. right. simpl. eauto 10.
  - destruct (get_parent t s) as [p|] eqn:Hp.
    2:{ intros H. apply get_path_loop_none in H. discriminate. }
    intros Hrun. destruct (IH p (acc ++ [s]) Hrun) as (tail & -> & Htail).
    exists (s :: tail). split; [by rewrite <- app_assoc|]. right.
    destruct Htail as [[-> ->]|(Hhead & Hchain & r & Hlast & Hend)].
    + simpl. eauto 10.
    + destruct tail as [|y tail]; [done|]. injection Hhead as ->.
      split; [done|]. split.
      * simpl. split; [done|]. split; [|done]. split; [done|]. congruence.
      * exists r. split; [|done]. done.
Qed.

(** X4. Whenever [get_path] returns a list, on any tree: for the empty
    SKI the list is empty; otherwise it starts at the SKI, every element
    is non-empty and is followed by its recorded parent, and the last
    element has an empty parent or is its own parent. *)
Theorem get_path_is_parent_chain (fuel : nat) (t : PKITree) (ski : string)
    (path : list string) :
  get_path fuel t ski = Some (Ok path) →
  (ski = EmptyString ∧ path = [])
  ∨ (head path = Some ski ∧ parent_chain t path
     ∧ ∃ r, last path = Some r
            ∧ (get_parent t r = Some EmptyString ∨ get_parent t r = Some r)).
Proof.
  intros Hrun. by destruct (get_path_loop_chain _ _ _ _ _ Hrun) as (tail & -> & Htail).
Qed.

Lemma get_path_is_parent_chain_witness :
  get_path 4 scenario_tree "A" = Some (Ok ["A"; "C"; "R"])
  ∧ ((("A" : string) = EmptyString ∧ ["A"; "C"; "R"] = @nil string)
     ∨ (head ["A"; "C"; "R"] = Some "A" ∧ parent_chain scenario_tree ["A"; "C"; "R"]
        ∧ ∃ r, last ["A"; "C"; "R"] = Some r
               ∧ (get_parent scenario_tree r = Some EmptyString
                  ∨ get_parent scenario_tree r = Some r))).
Proof.
  split; [reflexivity|].
  exact (get_path_is_parent_chain 4 scenario_tree "A" ["A"; "C"; "R"] eq_refl).
Defined.

Lemma get_path_loop_no_raise fuel t s acc e :
  tree_inv t → is_Some (get_parent t s) →
  get_path_loop fuel t (Some s) acc ≠ Some (Raise e).
Proof.
  intros Hinv. revert s acc. induction fuel as [|fuel IH]; intros s acc Hs; [done|].
  rewrite get_path_loop_unfold.
  destruct (0 <? String.length s)%nat eqn:Hlen; [|done].
  destruct (decide (get_parent t s = Some s)); [done|].
  destruct Hs as [p Hp]. rewrite Hp.
  destruct (decide (p = EmptyString)) as [->|Hne].
  - destruct fuel; [done|]. by rewrite get_path_loop_unfold.
  - apply IH. apply (inv_parent_seeded t Hinv s p Hp).
    by apply (inv_parent_data t Hinv s p Hp).
Qed.

(** X5. On a tree built by [insert_node], [get_path] raises exactly for a
    non-empty SKI without a parent entry (one never inserted and never
    named as a parent): for such an SKI it raises [TypeError], and for
    every other SKI it never raises, with any amount of fuel. *)
Theorem get_path_raises_iff (calls : list call) (ski : string) :
  (ski ≠ EmptyString → get_parent (build calls) ski = None →
   ∀ fuel, get_path (S (S fuel)) (build calls) ski = Some (Raise TypeError))
  ∧ (∀ fuel e, get_path fuel (build calls) ski = Some (Raise e) →
       ski ≠ EmptyString ∧ get_parent (build calls) ski = None).
Proof.
  split.
  - intros Hne Hnone fuel. unfold get_path. rewrite get_path_loop_unfold.
    apply nonempty_length in Hne. rewrite Hne, Hnone.
    rewrite decide_False by done. reflexivity.
  - intros fuel e Hrun. split.
    + intros ->. destruct fuel; discriminate.
    + destruct (get_parent (build calls) ski) as [p|] eqn:Hp; [|done].
      exfalso. eapply (get_path_loop_no_raise fuel (build calls) ski []);
        [apply tree_inv_build|by rewrite Hp|done].
Qed.

(** *** Termination when parents come first *)

Lemma rooted_inserted t ski aki data k :
  node_data t !! ski = None →
  child_to_parent t !! ski = None ∨ ski = EmptyString →
  rooted t k → k ≠ EmptyString → rooted (inserted t ski aki data) k.
Proof.
  intros Hfresh Hentry Hroot.
  assert (Hkeep : ∀ s p, s ≠ EmptyString → get_parent t s = Some p →
            get_parent (inserted t ski aki data) s = Some p).
  { intros s p Hs Hp. unfold get_parent in *.
    rewrite inserted_lookup_other; [done| |by eexists].
    intros ->. destruct Hentry; congruence. }
  induction Hroot as [s Hp|s Hp|s p Hp Hroot IH]; intros Hne.
  - apply rooted_self. by apply Hkeep.
  - apply rooted_empty. by apply Hkeep.
  - destruct (decide (p = EmptyString)) as [->|Hpe].
    + apply rooted_empty. by apply Hkeep.
    + apply (rooted_step _ s p); [by apply Hkeep|by apply IH].
Qed.

Lemma ancestor_first_invariant all calls :
  (∀ k, k ∈ skis calls → k ∈ skis all) →
  (∀ before c after, calls = before ++ c :: after →
     c.1.2 = c.1.1 ∨ c.1.2 ∈ skis before ∨ c.1.2 ∉ skis all) →
  (∀ k, is_Some (child_to_parent (build calls) !! k) →
     k = EmptyString ∨ k ∈ skis calls ∨ ∃ c, c ∈ calls ∧ c.1.2 = k ∧ c.1.2 ≠ c.1.1)
  ∧ (∀ k, k ≠ EmptyString → is_Some (child_to_parent (build calls) !! k) →
       rooted (build calls) k).
Proof.
  induction calls as [|c calls IH] using rev_ind; intros Hsub Horder.
  { split; intros k; simpl; rewrite lookup_empty.
    - by intros [? ?].
    - by intros _ [? ?]. }
  destruct IH as [Hprov Hrooted].
  { intros k Hk. apply Hsub. unfold skis in *. rewrite map_app, elem_of_app. by left. }
  { intros before c' after ->. apply (Horder before c' (after ++ [c])).
    by rewrite <- app_assoc. }
  assert (Hmono : ∀ k, k = EmptyString ∨ k ∈ skis calls
                       ∨ (∃ c', c' ∈ calls ∧ c'.1.2 = k ∧ c'.1.2 ≠ c'.1.1) →
            k = EmptyString ∨ k ∈ skis (calls ++ [c])
            ∨ ∃ c', c' ∈ calls ++ [c] ∧ c'.1.2 = k ∧ c'.1.2 ≠ c'.1.1).
  { intros k [?|[?|(c' & ? & ?)]]; [by left| |].
    - right. left. unfold skis in *. rewrite map_app, elem_of_app. by left.
    - right. right. exists c'. rewrite elem_of_app. tauto. }
  rewrite build_snoc. unfold apply_call.
  destruct (node_data (build calls) !! c.1.1) as [d|] eqn:Hd.
  { rewrite insert_node_present by by eexists. split; [|done].
    intros k Hk. by apply Hmono, Hprov. }
  rewrite insert_node_fresh; [|apply tree_inv_build|done].
  assert (c.1.1 ∉ skis calls) as Hnew.
  { intros Hin. apply node_data_build in Hin as [? Hin]. congruence. }
  assert (child_to_parent (build calls) !! c.1.1 = None ∨ c.1.1 = EmptyString) as Hentry.
  { destruct (child_to_parent (build calls) !! c.1.1) as [p|] eqn:Hp; [|by left].
    destruct (Hprov c.1.1) as [?|[?|(c' & Hc' & Haki & Hself)]]; [by eexists|by right|done|].
    exfalso. apply list_elem_of_split in Hc' as (before & after & ->).
    destruct (Horder before c' (after ++ [c])) as [?|[Hin|Hout]];
      [by rewrite <- app_assoc|done| |].
    - apply Hnew. rewrite <- Haki. unfold skis in *.
      rewrite map_app, elem_of_app. by left.
    - apply Hout. rewrite Haki. apply Hsub. unfold skis.
      rewrite map_app, elem_of_app. right. by left. }
  split.
  - intros k [p Hp].
    destruct (inserted_lookup_cases _ _ _ _ _ _ Hp) as [[-> _]|[[_ Hold]|(_ & _ & _ & Hk)]].
    + right. left. unfold skis. rewrite map_app, elem_of_app. right. by left.
    + apply Hmono, Hprov. by eexists.
    + destruct (decide (c.1.1 = c.1.2)) as [Heq|Hneq]; [by left|].
      right. right. exists c. rewrite elem_of_app, list_elem_of_singleton.
      repeat split; [by right|done|congruence].
  - intros k Hk [p Hp].
    destruct (inserted_lookup_cases _ _ _ _ _ _ Hp) as [[-> ->]|[[_ Hold]|(_ & -> & _ & _)]].
    + destruct (decide (c.1.1 = c.1.2)) as [Heq|Hneq]; [apply rooted_empty; unfold get_parent; rewrite inserted_lookup_self;
           by rewrite decide_True|].
      destruct (decide (c.1.2 = EmptyString)) as [Hempty|Hnonempty].
      * apply rooted_empty. unfold get_parent. rewrite inserted_lookup_self.
        rewrite decide_False by done. congruence.
      * apply (rooted_step _ c.1.1 c.1.2).
        { unfold get_parent. rewrite inserted_lookup_self. by rewrite decide_False. }
        destruct (child_to_parent (build calls) !! c.1.2) as [q|] eqn:Hq.
        -- apply rooted_inserted; [done..| |done]. apply Hrooted; [done|by eexists].
        -- apply rooted_empty. unfold get_parent.
           destruct (inserted_aki_seeded (build calls) c.1.1 c.1.2 c.2) as [q' Hq'].
           destruct (inserted_lookup_cases _ _ _ _ _ _ Hq')
             as [[Heq' _]|[[_ Hold']|(_ & -> & _ & _)]]; [congruence|congruence|done].
    + apply rooted_inserted; [done..| |done]. apply Hrooted; [done|by eexists].
    + by apply rooted_empty.
Qed.

(** X6. When every call names as parent itself, an SKI carried by an
    earlier call, or an SKI that no call carries (parents come first;
    unresolved references stay unresolved), the tree has no cycle:
    [get_path] returns a path for every non-empty SKI that has a parent
    entry, with enough fuel and with any larger amount. *)
Theorem get_path_terminates_ancestor_first (calls : list call) (ski : string) :
  ancestor_first calls →
  ski ≠ EmptyString →
  is_Some (get_parent (build calls) ski) →
  ∃ fuel path, ∀ fuel', (fuel ≤ fuel')%nat →
    get_path fuel' (build calls) ski = Some (Ok path).
Proof.
  intros Horder Hne Hentry.
  destruct (ancestor_first_invariant calls calls ltac:(done) Horder) as [_ Hrooted].
  destruct (get_path_loop_rooted (build calls) ski (Hrooted ski Hne Hentry) Hne [])
    as (fuel & tail & r & Hrun & _).
  exists fuel, (ski :: tail). intros fuel' Hle. by apply Hrun.
Qed.

Lemma get_path_terminates_ancestor_first_witness :
  ancestor_first scenario_calls
  ∧ ("A" : string) ≠ EmptyString
  ∧ is_Some (get_parent (build scenario_calls) "A")
  ∧ ∃ fuel path, ∀ fuel', (fuel ≤ fuel')%nat →
      get_path fuel' (build scenario_calls) "A" = Some (Ok path).
Proof.
  assert (ancestor_first scenario_calls) as Horder.
  { intros before c after Heq.
    destruct before as [|c0 [|c1 [|c2 [|c3 before]]]]; simpl in Heq.
    - injection Heq as <- _. right. right. vm_compute.
      intros Hin. repeat (apply elem_of_cons in Hin as [Hin|Hin]; [discriminate|]).
      by apply elem_of_nil in Hin.
    - injection Heq as <- <- _. right. left. by left.
    - injection Heq as <- <- <- _. right. left. right. by left.
    - injection Heq as _ _ _ Heq. discriminate.
    - injection Heq as _ _ _ Heq. discriminate. }
  assert (is_Some (get_parent (build scenario_calls) "A")) as Hentry
    by (vm_compute; eauto).
  split; [exact Horder|]. split; [done|]. split; [exact Hentry|].
  exact (get_path_terminates_ancestor_first scenario_calls "A" Horder ltac:(done) Hentry).
Defined.

(** ** More on the classification predicates *)

(** X7. Each of the four predicates answers [None] exactly when the SKI
    has no node data: the "unknown" answer is never given for a node that
    exists, and a missing node never yields [False] or an exception. *)
Theorem predicates_unknown_iff (t : PKITree) (ski : string) :
  (is_roa t ski = Ok None ↔ get_data t ski = None)
  ∧ (is_rir_owned_rc t ski = Ok None ↔ get_data t ski = None)
  ∧ (is_end_node_certificate t ski = Ok None ↔ get_data t ski = None)
  ∧ (has_issued_roas t ski = Ok None ↔ get_data t ski = None).
Proof.
  unfold is_rir_owned_rc, is_end_node_certificate, has_issued_roas.
  assert (Hroa : is_roa t ski = Ok None ↔ get_data t ski = None).
  { unfold is_roa. destruct (get_data t ski) as [data|]; [|done].
    split; [|done]. intros (ty & _ & H)%bind_ok_inv. by destruct (json_eqb _ _). }
  split; [done|]. clear Hroa.
  destruct (get_data t ski) as [data|]; [|done].
  repeat split; try done.
  - destruct (dict_has "tal" data); [done|].
    intros (roa & _ & H)%bind_ok_inv. destruct (truthy roa); [done|].
    by apply bind_ok_inv in H as (? & _ & ?).
  - intros (roa & _ & H)%bind_ok_inv. destruct (truthy roa); [done|].
    destruct (get_children t ski); [|done].
    by apply bind_ok_inv in H as (? & _ & ?).
  - intros (ty & _ & H)%bind_ok_inv. destruct (negb _); [done|].
    apply bind_ok_inv in H as (rir & _ & H). destruct (truthy rir); [done|].
    destruct (get_children t ski); [|done].
    by apply bind_ok_inv in H as (? & _ & ?).
Qed.

Lemma json_eqb_str ty s : json_eqb ty (JStr s) = true → ty = JStr s.
Proof.
  destruct ty; simpl; try done. by intros ->%String.eqb_eq.
Qed.

(** X8. A ROA is never an end node and has never issued ROAs; it is
    RIR-owned only when its record carries [tal]. *)
Theorem roa_classification (t : PKITree) (ski : string) (data : dict) :
  get_data t ski = Some data →
  is_roa t ski = Ok (Some true) →
  is_end_node_certificate t ski = Ok (Some false)
  ∧ has_issued_roas t ski = Ok (Some false)
  ∧ is_rir_owned_rc t ski = Ok (Some (dict_has "tal" data)).
Proof.
  intros Hd Hroa. unfold is_end_node_certificate, has_issued_roas, is_rir_owned_rc.
  rewrite Hd, Hroa. simpl. split; [done|].
  unfold is_roa in Hroa. rewrite Hd in Hroa.
  apply bind_ok_inv in Hroa as (ty & Hty & H). rewrite Hty. simpl.
  destruct (json_eqb ty (JStr "roa")) eqn:E; [|done].
  apply json_eqb_str in E as ->. simpl. split; [done|].
  by destruct (dict_has "tal" data).
Qed.

Lemma roa_classification_witness :
  get_data scenario_tree "A" = Some (roa_record "A" "C" [vrp "10.1.1.0/24" 65001])
  ∧ is_roa scenario_tree "A" = Ok (Some true)
  ∧ is_end_node_certificate scenario_tree "A" = Ok (Some false)
  ∧ has_issued_roas scenario_tree "A" = Ok (Some false)
  ∧ is_rir_owned_rc scenario_tree "A"
    = Ok (Some (dict_has "tal" (roa_record "A" "C" [vrp "10.1.1.0/24" 65001]))).
Proof.
  split; [reflexivity|]. split; [reflexivity|].
  exact (roa_classification scenario_tree "A" _ eq_refl eq_refl).
Defined.

Lemma dict_item_get data k v : dict_get k data = Some v → dict_item data k = Ok v.
Proof. intros H. unfold dict_item. by rewrite H. Qed.

Lemma any_hit_list data l hits :
  dict_get "subordinate_resources" data = Some (JList l) →
  ∃ b, any_hit data hits = Ok b.
Proof.
  intros Hsr. induction hits as [|hit hits [b IH]]; simpl; [eauto|].
  rewrite (dict_item_get _ _ _ Hsr). simpl.
  destruct (list_contains hit l); eauto.
Qed.

Lemma children_roa_total calls l :
  (∀ c, c ∈ calls → readable_record c.2) →
  (∀ c, c ∈ l → is_Some (get_data (build calls) c)) →
  (∃ b, all_children_roa (build calls) l = Ok b)
  ∧ (∃ b, some_child_roa (build calls) l = Ok b).
Proof.
  intros Hcalls. induction l as [|c l IH]; intros Hl; simpl; [eauto|].
  destruct (Hl c) as [d Hd]; [by left|]. rewrite Hd. simpl.
  destruct (get_data_from_call _ _ _ Hd) as [aki Hin].
  destruct (Hcalls _ Hin) as (ty & Hty & _). simpl in Hty.
  rewrite (dict_item_get _ _ _ Hty). simpl.
  destruct IH as [[b1 H1] [b2 H2]]; [intros c' Hc'; apply Hl; by right|].
  destruct (json_eqb ty (JStr "roa")); simpl; eauto.
Qed.

(** X9. On a tree built from records that each have a [type] and, unless
    they carry [tal] or are ROAs, a list of [subordinate_resources], none
    of the four predicates raises, for any SKI: every child a predicate
    looks at has node data with a [type]. *)
Theorem predicates_never_raise (calls : list call) (ski : string) :
  (∀ c, c ∈ calls → readable_record c.2) →
  (∃ a, is_roa (build calls) ski = Ok a)
  ∧ (∃ a, is_rir_owned_rc (build calls) ski = Ok a)
  ∧ (∃ a, is_end_node_certificate (build calls) ski = Ok a)
  ∧ (∃ a, has_issued_roas (build calls) ski = Ok a).
Proof.
  intros Hcalls. pose proof (tree_inv_build calls) as Hinv.
  assert (Hchildren : ∀ l, get_children (build calls) ski = Some l →
            (∃ b, all_children_roa (build calls) l = Ok b)
            ∧ (∃ b, some_child_roa (build calls) l = Ok b)).
  { intros l Hl. apply children_roa_total; [done|].
    intros c Hc. by apply (inv_children _ Hinv ski l Hl). }
  destruct (get_data (build calls) ski) as [data|] eqn:Hd.
  2:{ unfold is_rir_owned_rc, is_end_node_certificate, has_issued_roas, is_roa.
      rewrite Hd. repeat split; eauto. }
  destruct (get_data_from_call _ _ _ Hd) as [aki Hin].
  destruct (Hcalls _ Hin) as (ty & Hty & Hrest). simpl in Hty, Hrest.
  apply dict_item_get in Hty.
  assert (is_roa (build calls) ski = Ok (Some (json_eqb ty (JStr "roa")))) as Hroa.
  { unfold is_roa. rewrite Hd, Hty. simpl. by destruct (json_eqb _ _). }
  assert (∃ a, is_rir_owned_rc (build calls) ski = Ok a) as [rir Hrir].
  { unfold is_rir_owned_rc. rewrite Hd, Hroa.
    remember (any_hit data hit_list) as found eqn:Hfound. simpl.
    destruct (dict_has "tal" data); [eauto|].
    destruct (json_eqb ty (JStr "roa")) eqn:E; simpl; [eauto|].
    destruct Hrest as [?|[?|[l Hl]]]; [done..|].
    destruct (any_hit_list data l hit_list Hl) as [b Hb].
    rewrite Hfound, Hb. simpl. eauto. }
  split; [eauto|]. split; [eauto|]. split.
  - unfold is_end_node_certificate. rewrite Hd, Hroa. simpl.
    destruct (json_eqb ty (JStr "roa")); simpl; [eauto|].
    destruct (get_children (build calls) ski) as [l|] eqn:Hl; [|eauto].
    destruct (Hchildren l eq_refl) as [[b ->] _]. simpl. eauto.
  - unfold has_issued_roas. rewrite Hd, Hty. simpl.
    destruct (negb (json_eqb ty (JStr "ca_cert"))); [eauto|].
    rewrite Hrir. simpl. destruct (truthy rir); [eauto|].
    destruct (get_children (build calls) ski) as [l|] eqn:Hl; [|eauto].
    destruct (Hchildren l eq_refl) as [_ [b ->]]. simpl. eauto.
Qed.

Lemma predicates_never_raise_witness :
  (∀ c, c ∈ scenario_calls → readable_record c.2)
  ∧ (∃ a, is_roa (build scenario_calls) "C" = Ok a)
  ∧ (∃ a, is_rir_owned_rc (build scenario_calls) "C" = Ok a)
  ∧ (∃ a, is_end_node_certificate (build scenario_calls) "C" = Ok a)
  ∧ (∃ a, has_issued_roas (build scenario_calls) "C" = Ok a).
Proof.
  assert (∀ c, c ∈ scenario_calls → readable_record c.2) as H.
  { intros c Hc. unfold scenario_calls in Hc.
    repeat (apply elem_of_cons in Hc as [->|Hc]);
      [..|by apply elem_of_nil in Hc]; eexists; (split; [reflexivity|]).
    - by left.
    - right. right. eexists. reflexivity.
    - right. by left. }
  split; [exact H|]. exact (predicates_never_raise scenario_calls "C" H).
Defined.

(** ** More on resource collection *)

Section CollectMore.
Variable PyTricia : Type.
Variable pyt_new4 pyt_new6 : PyTricia.
Variable pyt_setitem : PyTricia → json → string → result PyTricia.
Variable cidr_of : json → json → result (list string).

Local Abbreviation visit' := (visit pyt_setitem cidr_of).
Local Abbreviation store' := (store pyt_setitem).
Local Abbreviation collect_loop' := (collect_loop pyt_setitem cidr_of).
Local Abbreviation get_resource_list' :=
  (get_resource_list pyt_new4 pyt_new6 pyt_setitem cidr_of).
Local Abbreviation state' := (state PyTricia).

Lemma store_non_recursive t t' child pl curr (st : state') :
  store' t false child pl curr st = store' t' false child pl curr st.
Proof. reflexivity. Qed.

Lemma visit_non_recursive t t' rt child (st : state') :
  get_data t' child = get_data t child →
  visit' t' rt false child st = visit' t rt false child st.
Proof. intros Hd. unfold visit. by rewrite Hd. Qed.

Lemma visit_non_recursive_queue t rt child (st st' : state') :
  visit' t rt false child st = Ok st' → queue st' = queue st.
Proof.
  unfold visit. destruct (get_data t child) as [data|]; [|done].
  destruct (dict_item data "type") as [ty|]; [|done]. simpl.
  assert (Hstore : ∀ pl curr (s s' : state'),
            store' t false child pl curr s = Ok s' → queue s' = queue s).
  { intros pl curr s s'. unfold store.
    destruct (foldM _ _ pl) as [tries|]; [|done]. simpl.
    destruct curr; [|done]. by intros [= <-]. }
  destruct (json_eqb ty (JStr "roa")).
  - destruct (String.eqb rt "ca_cert"); [by intros [= <-]|].
    destruct (dict_item data "vrps") as [vrps|]; [|done]. simpl.
    destruct (extract_vrps vrps (asn_list st)) as [[[pl origin] outer]|]; [|done].
    simpl. intros H. by apply Hstore in H.
  - destruct (json_eqb ty (JStr "ca_cert")).
    + destruct (String.eqb rt "roa"); [by intros [= <-]|].
      destruct (dict_item data "subordinate_resources") as [sr|]; [|done]. simpl.
      destruct (extract_resources cidr_of sr) as [r|]; [|done]. simpl.
      intros H. by apply Hstore in H.
    + intros H. by apply Hstore in H.
Qed.

Lemma get_resource_list_once t root rt fuel :
  get_resource_list' (S (S fuel)) t root rt false
  = Some (match visit' t rt false root (mkState 1 pyt_new4 pyt_new6 [] None []) with
          | Raise e => Raise e
          | Ok st => asns <- py_set (asn_list st) ;; Ok (pyt4 st, pyt6 st, asns)
          end).
Proof.
  unfold get_resource_list.
  rewrite collect_loop_unfold. unfold init_state.
  cbn [ctr pyt4 pyt6 asn_list curr_asn_list queue].
  destruct (visit _ _ _ _ _ _ _) as [st|] eqn:Hv; [|done].
  apply visit_non_recursive_queue in Hv. cbn [queue] in Hv.
  by rewrite collect_loop_unfold, Hv.
Qed.

(** X10. Without recursion [get_resource_list] looks at the root only:
    it returns after one visit (two units of fuel are enough, more change
    nothing), and what it returns depends on the root's own record alone,
    not on the rest of the tree. *)
Theorem get_resource_list_non_recursive (t : PKITree) (root rt : string) :
  (∃ r, ∀ fuel, get_resource_list' (S (S fuel)) t root rt false = Some r)
  ∧ (∀ t' fuel, get_data t' root = get_data t root →
       get_resource_list' (S (S fuel)) t' root rt false
       = get_resource_list' (S (S fuel)) t root rt false).
Proof.
  split.
  - eexists. intros fuel. apply get_resource_list_once.
  - intros t' fuel Hd. rewrite !get_resource_list_once.
    by rewrite (visit_non_recursive t t' rt root _ Hd).
Qed.

(** X11. A root whose [type] is neither ["roa"] nor ["ca_cert"] makes
    [get_resource_list] raise [UnboundLocalError], for any resource type
    and either value of the recursive flag: [curr_asn_list] has not been
    assigned when it is read. *)
Theorem get_resource_list_unhandled_type (t : PKITree) (root rt : string)
    (recursive : bool) (data : dict) (ty : json) :
  get_data t root = Some data →
  dict_item data "type" = Ok ty →
  json_eqb ty (JStr "roa") = false →
  json_eqb ty (JStr "ca_cert") = false →
  ∀ fuel, get_resource_list' (S fuel) t root rt recursive
          = Some (Raise UnboundLocalError).
Proof.
  intros Hd Hty Hroa Hca fuel. unfold get_resource_list.
  rewrite collect_loop_unfold.
  assert (∃ rest, queue (init_state pyt_new4 pyt_new6 t root recursive) = root :: rest)
    as [rest ->].
  { unfold init_state. simpl.
    destruct recursive; [destruct (get_children t root)|]; simpl; eauto. }
  unfold visit. rewrite Hd, Hty. simpl. by rewrite Hroa, Hca.
Qed.

(** With resource type ["roa"] the visit of a CA certificate changes
    nothing, and in particular adds nothing to the queue. *)
Lemma visit_ca_cert_skipped t recursive child data ty (st : state') :
  get_data t child = Some data →
  dict_item data "type" = Ok ty → json_eqb ty (JStr "ca_cert") = true →
  visit' t "roa" recursive child st = Ok st.
Proof.
  intros Hd Hty Hca. unfold visit. rewrite Hd, Hty. simpl.
  apply json_eqb_str in Hca as ->. reflexivity.
Qed.

Lemma collect_loop_all_ca_cert t recursive fuel (st : state') :
  (∀ n, n ∈ queue st → ∃ data ty,
      get_data t n = Some data ∧ dict_item data "type" = Ok ty
      ∧ json_eqb ty (JStr "ca_cert") = true) →
  (length (queue st) < fuel)%nat →
  ∃ st', collect_loop' fuel t "roa" recursive st = Some (Ok st')
         ∧ asn_list st' = asn_list st ∧ pyt4 st' = pyt4 st ∧ pyt6 st' = pyt6 st.
Proof.
  revert st. induction fuel as [|fuel IH]; intros st Hall Hlen; [lia|].
  rewrite collect_loop_unfold. destruct (queue st) as [|n rest] eqn:Hq; [eauto|].
  destruct (Hall n) as (data & ty & Hd & Hty & Hca); [by left|].
  rewrite (visit_ca_cert_skipped _ _ _ _ _ _ Hd Hty Hca).
  destruct (IH (mkState (S (ctr st)) (pyt4 st) (pyt6 st) (asn_list st)
                  (curr_asn_list st) rest)) as (st' & Hrun & ? & ? & ?).
  - intros n' Hn'. apply Hall. by right.
  - simpl in *. lia.
  - eauto.
Qed.

(** X12. With resource type ["roa"] the traversal does not descend
    through CA certificates: when the root and all its direct children
    are CA certificates, [get_resource_list] returns empty tries and an
    empty ASN set, whatever ROAs lie further down. *)
Theorem get_resource_list_roa_shallow (t : PKITree) (root : string)
    (recursive : bool) (fuel : nat) :
  (∀ n, n = root ∨ n ∈ default [] (get_children t root) →
     ∃ data ty, get_data t n = Some data ∧ dict_item data "type" = Ok ty
                ∧ json_eqb ty (JStr "ca_cert") = true) →
  (S (length (default [] (get_children t root))) < fuel)%nat →
  get_resource_list' fuel t root "roa" recursive
  = Some (Ok (pyt_new4, pyt_new6, [])).
Proof.
  intros Hall Hfuel. unfold get_resource_list.
  destruct (collect_loop_all_ca_cert t recursive fuel
              (init_state pyt_new4 pyt_new6 t root recursive))
    as (st' & -> & Hasn & H4 & H6).
  - unfold init_state. simpl. intros n Hn. apply Hall.
    destruct recursive; [destruct (get_children t root)|]; simpl in *.
    + apply elem_of_cons in Hn as [->|Hn]; [by left|by right].
    + apply list_elem_of_singleton in Hn. by left.
    + apply list_elem_of_singleton in Hn. by left.
  - unfold init_state. simpl.
    destruct recursive; [destruct (get_children t root)|]; simpl in *; lia.
  - rewrite Hasn, H4, H6. reflexivity.
Qed.

Section TrieInvariant.
Variable t : PKITree.
Variable P4 P6 : PyTricia → Prop.

(** What an assignment [pyt[k] = v] does to the two properties, when the
    key is no default route, [v] has node data, and the key has no colon
    (for [P4]) or has one (for [P6]). *)
Hypothesis setitem_v4 : ∀ p k v p',
  pyt_setitem p k v = Ok p' →
  json_eqb k (JStr "0.0.0.0/0") = false → json_eqb k (JStr "::/0") = false →
  contains ":" k = Ok false → is_Some (get_data t v) →
  P4 p → P4 p'.
Hypothesis setitem_v6 : ∀ p k v p',
  pyt_setitem p k v = Ok p' →
  json_eqb k (JStr "0.0.0.0/0") = false → json_eqb k (JStr "::/0") = false →
  contains ":" k = Ok true → is_Some (get_data t v) →
  P6 p → P6 p'.

Lemma add_prefix_invariant child tries pfx tries' :
  is_Some (get_data t child) →
  add_prefix pyt_setitem child tries pfx = Ok tries' →
  P4 tries.1 ∧ P6 tries.2 → P4 tries'.1 ∧ P6 tries'.2.
Proof.
  intros Hchild. unfold add_prefix.
  destruct (json_eqb pfx (JStr "0.0.0.0/0")) eqn:E1; [by intros [= <-]|].
  destruct (json_eqb pfx (JStr "::/0")) eqn:E2; [by intros [= <-]|]. simpl.
  destruct (contains ":" pfx) as [[|]|] eqn:Ec; [| |done]; simpl.
  - destruct (pyt_setitem tries.2 pfx child) as [p6|] eqn:Es; [|done]. simpl.
    intros [= <-] [H4 H6]. simpl. split; [done|]. by apply (setitem_v6 _ _ _ _ Es).
  - destruct (pyt_setitem tries.1 pfx child) as [p4|] eqn:Es; [|done]. simpl.
    intros [= <-] [H4 H6]. simpl. split; [|done]. by apply (setitem_v4 _ _ _ _ Es).
Qed.

Lemma foldM_add_prefix_invariant child pl tries tries' :
  is_Some (get_data t child) →
  foldM (add_prefix pyt_setitem child) tries pl = Ok tries' →
  P4 tries.1 ∧ P6 tries.2 → P4 tries'.1 ∧ P6 tries'.2.
Proof.
  intros Hchild. revert tries. induction pl as [|pfx pl IH]; intros tries; simpl.
  - by intros [= <-].
  - destruct (add_prefix pyt_setitem child tries pfx) as [tries1|] eqn:Ha; [|done].
    simpl. intros Hfold Hinit. apply (IH tries1 Hfold).
    by apply (add_prefix_invariant child tries pfx).
Qed.

Lemma store_invariant recursive child pl curr (st st' : state') :
  is_Some (get_data t child) →
  store' t recursive child pl curr st = Ok st' →
  P4 (pyt4 st) ∧ P6 (pyt6 st) → P4 (pyt4 st') ∧ P6 (pyt6 st').
Proof.
  intros Hchild. unfold store.
  destruct (foldM _ _ pl) as [tries|] eqn:Hfold; [|done]. simpl.
  destruct curr; [|done]. intros [= <-] Hinit. simpl.
  by apply (foldM_add_prefix_invariant child pl (pyt4 st, pyt6 st)).
Qed.

Lemma visit_invariant rt recursive child (st st' : state') :
  visit' t rt recursive child st = Ok st' →
  P4 (pyt4 st) ∧ P6 (pyt6 st) → P4 (pyt4 st') ∧ P6 (pyt6 st').
Proof.
  unfold visit. destruct (get_data t child) as [data|] eqn:Hd; [|done].
  assert (is_Some (get_data t child)) as Hchild by by rewrite Hd.
  destruct (dict_item data "type") as [ty|]; [|done]. simpl.
  destruct (json_eqb ty (JStr "roa")).
  - destruct (String.eqb rt "ca_cert"); [by intros [= <-]|].
    destruct (dict_item data "vrps") as [vrps|]; [|done]. simpl.
    destruct (extract_vrps vrps (asn_list st)) as [[[pl origin] outer]|]; [|done].
    simpl. intros H. exact (store_invariant _ _ _ _ _ _ Hchild H).
  - destruct (json_eqb ty (JStr "ca_cert")).
    + destruct (String.eqb rt "roa"); [by intros [= <-]|].
      destruct (dict_item data "subordinate_resources") as [sr|]; [|done]. simpl.
      destruct (extract_resources cidr_of sr) as [r|]; [|done]. simpl.
      intros H. exact (store_invariant _ _ _ _ _ _ Hchild H).
    + intros H. exact (store_invariant _ _ _ _ _ _ Hchild H).
Qed.

Lemma collect_loop_invariant fuel rt recursive (st st' : state') :
  collect_loop' fuel t rt recursive st = Some (Ok st') →
  P4 (pyt4 st) ∧ P6 (pyt6 st) → P4 (pyt4 st') ∧ P6 (pyt6 st').
Proof.
  revert st. induction fuel as [|fuel IH]; intros st; [done|].
  rewrite collect_loop_unfold. destruct (queue st) as [|child rest].
  - by intros [= <-].
  - destruct (visit _ _ _ _ _ _ _) as [st1|] eqn:Hv; [|done].
    intros Hrun Hinit. apply (IH st1 Hrun).
    by apply (visit_invariant _ _ _ _ _ Hv).
Qed.

(** X13. How the tries are filled: a default route ([0.0.0.0/0] or
    [::/0]) is never assigned; a key with a colon goes to the second
    trie only and a key without one to the first only; and every value
    assigned is an SKI with node data. So a property of the first trie
    that every such assignment without a colon keeps, and one of the
    second that every such assignment with a colon keeps, hold of the
    tries [get_resource_list] returns when they hold of the empty ones. *)
Theorem tries_filled_by_family (fuel : nat) (root rt : string) (recursive : bool)
    (p4 p6 : PyTricia) (asns : list json) :
  P4 pyt_new4 → P6 pyt_new6 →
  get_resource_list' fuel t root rt recursive = Some (Ok (p4, p6, asns)) →
  P4 p4 ∧ P6 p6.
Proof.
  intros H4 H6 Hres. unfold get_resource_list in Hres.
  destruct (collect_loop _ _ _ _ _ _ _) as [[st'|]|] eqn:Hrun; [|done..].
  destruct (py_set (asn_list st')); [|done]. simpl in Hres.
  injection Hres as <- <- _.
  by apply (collect_loop_invariant _ _ _ _ _ Hrun).
Qed.

End TrieInvariant.

End CollectMore.

Lemma get_resource_list_unhandled_type_witness :
  get_data unhandled_tree "M" = Some [("type", JStr "mft"); ("ski", JStr "M")]
  ∧ ∀ fuel, collect (S fuel) unhandled_tree "M" "all" true
            = Some (Raise UnboundLocalError).
Proof.
  split; [reflexivity|].
  exact (get_resource_list_unhandled_type (gmap string string) ∅ ∅ trie_setitem cidr_text
           unhandled_tree "M" "all" true _ (JStr "mft") eq_refl eq_refl eq_refl eq_refl).
Defined.

Lemma get_resource_list_roa_shallow_witness :
  get_children scenario_tree "R" = Some ["C"]
  ∧ get_children scenario_tree "C" = Some ["A"]
  ∧ is_roa scenario_tree "A" = Ok (Some true)
  ∧ collect 3 scenario_tree "R" "roa" true = Some (Ok (∅, ∅, [])).
Proof.
  split; [reflexivity|]. split; [reflexivity|]. split; [reflexivity|].
  apply (get_resource_list_roa_shallow (gmap string string) ∅ ∅ trie_setitem cidr_text
           scenario_tree "R" true 3).
  - intros n [->|Hn].
    + eexists _, (JStr "ca_cert"). repeat split; reflexivity.
    + change (default [] (get_children scenario_tree "R")) with ["C"] in Hn.
      apply list_elem_of_singleton in Hn as ->.
      eexists _, (JStr "ca_cert"). repeat split; reflexivity.
  - change (default [] (get_children scenario_tree "R")) with ["C"]. simpl. lia.
Defined.

Lemma trie_setitem_entries t p k v p' (colon : bool) :
  trie_setitem p k v = Ok p' →
  json_eqb k (JStr "0.0.0.0/0") = false → json_eqb k (JStr "::/0") = false →
  contains ":" k = Ok colon → is_Some (get_data t v) →
  (∀ k0 v0, p !! k0 = Some v0 →
     k0 ≠ "0.0.0.0/0" ∧ k0 ≠ "::/0" ∧ str_contains ":" k0 = colon
     ∧ is_Some (get_data t v0)) →
  ∀ k0 v0, p' !! k0 = Some v0 →
    k0 ≠ "0.0.0.0/0" ∧ k0 ≠ "::/0" ∧ str_contains ":" k0 = colon
    ∧ is_Some (get_data t v0).
Proof.
  destruct k as [| | |s| |]; try done. simpl.
  intros [= <-] H1 H2 [= Hc] Hv Hold k0 v0.
  destruct (decide (s = k0)) as [<-|Hne].
  - rewrite lookup_insert_eq. intros [= <-].
    apply String.eqb_neq in H1, H2. done.
  - rewrite lookup_insert_ne by done. apply Hold.
Qed.

Lemma tries_filled_by_family_witness :
  v4_entries scenario_tree ∅ ∧ v6_entries scenario_tree ∅
  ∧ collect 6 scenario_tree "C" "all" true
    = Some (Ok (<["10.1.1.0/24" := "A"]> {["10.1.0.0/16" := "C"]}, ∅, [JInt 65001]))
  ∧ v4_entries scenario_tree (<["10.1.1.0/24" := "A"]> {["10.1.0.0/16" := "C"]})
  ∧ v6_entries scenario_tree ∅.
Proof.
  assert (v4_entries scenario_tree ∅) as H4 by (intros k v; by rewrite lookup_empty).
  assert (v6_entries scenario_tree ∅) as H6 by (intros k v; by rewrite lookup_empty).
  assert (collect 6 scenario_tree "C" "all" true
          = Some (Ok (<["10.1.1.0/24" := "A"]> {["10.1.0.0/16" := "C"]}, ∅, [JInt 65001])))
    as Hrun by (vm_compute; reflexivity).
  split; [exact H4|]. split; [exact H6|]. split; [exact Hrun|].
  exact (tries_filled_by_family (gmap string string) ∅ ∅ trie_setitem cidr_text
           scenario_tree (v4_entries scenario_tree) (v6_entries scenario_tree)
           (λ p k v p' Hs H1 H2 Hc Hv Hp,
              trie_setitem_entries scenario_tree p k v p' false Hs H1 H2 Hc Hv Hp)
           (λ p k v p' Hs H1 H2 Hc Hv Hp,
              trie_setitem_entries scenario_tree p k v p' true Hs H1 H2 Hc Hv Hp)
           6 "C" "all" true _ _ _ H4 H6 Hrun).
Defined.

(** ** The resource index *)

Lemma dict_set_keys {A} k (v : A) d : map fst (dict_set k v d) = key_add k (map fst d).
Proof.
  induction d as [|[k' v'] d IH]; simpl; [done|].
  destruct (String.eqb k k'); simpl; [done|]. by rewrite IH.
Qed.

Lemma key_add_elem k l x : x ∈ key_add k l ↔ x = k ∨ x ∈ l.
Proof.
  induction l as [|k' l IH]; simpl.
  - rewrite list_elem_of_singleton. split; [by left|]. intros [?|?%elem_of_nil]; done.
  - destruct (String.eqb_spec k k') as [->|Hne].
    + rewrite !elem_of_cons. tauto.
    + rewrite !elem_of_cons, IH. tauto.
Qed.

Lemma dict_get_set {A} k (v : A) d k' :
  dict_get k' (dict_set k v d) = if String.eqb k' k then Some v else dict_get k' d.
Proof.
  induction d as [|[k0 v0] d IH]; simpl.
  - by destruct (String.eqb k' k).
  - destruct (String.eqb_spec k k0) as [->|Hne]; simpl.
    + by destruct (String.eqb k' k0).
    + rewrite IH. destruct (String.eqb_spec k' k0) as [->|]; [|done].
      destruct (String.eqb_spec k0 k); congruence.
Qed.

Lemma dict_get_keys {A} k (d : list (string * A)) :
  is_Some (dict_get k d) ↔ k ∈ map fst d.
Proof.
  induction d as [|[k0 v0] d IH]; simpl.
  - split; [by intros [? ?]|by intros ?%elem_of_nil].
  - rewrite elem_of_cons. destruct (String.eqb_spec k k0) as [->|Hne].
    + split; [by left|by eexists].
    + rewrite IH. tauto.
Qed.

Section IndexProps.
Variable PyTricia : Type.
Variable pyt_new4 pyt_new6 : PyTricia.
Variable pyt_setitem : PyTricia → json → string → result PyTricia.
Variable cidr_of : json → json → result (list string).
Variable pyt_contains : PyTricia → string → result bool.
Variable py_int : string → result Z.

Local Abbreviation populate_node' := (populate_node pyt_new4 pyt_new6 pyt_setitem cidr_of).
Local Abbreviation populate' := (populate_resources pyt_new4 pyt_new6 pyt_setitem cidr_of).
Local Abbreviation collect_once t node :=
  (get_resource_list pyt_new4 pyt_new6 pyt_setitem cidr_of 2 t node "all" false).
Local Abbreviation index_entries' := (index_entries pyt_new4 pyt_new6 pyt_setitem cidr_of).

Lemma populate_node_cases fuel t res node :
  ∃ r, populate_node' (S (S fuel)) t res node = Some r
    ∧ ∀ res', r = Ok res' →
        (¬ indexable t node ∧ res' = res)
        ∨ (indexable t node
           ∧ ∃ p4 p6 asns asn_set,
               collect_once t node = Some (Ok (p4, p6, asns))
               ∧ py_set asns = Ok asn_set
               ∧ res' = mkResources
                          (dict_set node p4 (resource_dict_pfx_v4 res))
                          (dict_set node p6 (resource_dict_pfx_v6 res))
                          (dict_set node asn_set (resource_dict_asn res))).
Proof.
  unfold populate_node, indexable.
  destruct (is_roa t node) as [roa|e]; [|by eexists; split; [done|]].
  destruct (truthy roa) eqn:Hroa.
  { eexists; split; [done|]. intros res' [= <-]. left. split; [|done].
    intros [(roa' & [= <-] & ?) _]. congruence. }
  destruct (is_rir_owned_rc t node) as [rir|e]; [|by eexists; split; [done|]].
  destruct (truthy rir) eqn:Hrir.
  { eexists; split; [done|]. intros res' [= <-]. left. split; [|done].
    intros [_ (rir' & [= <-] & ?)]. congruence. }
  pose proof (get_resource_list_once _ pyt_new4 pyt_new6 pyt_setitem cidr_of t node "all" fuel)
    as Hfuel.
  pose proof (get_resource_list_once _ pyt_new4 pyt_new6 pyt_setitem cidr_of t node "all" 0)
    as Honce.
  rewrite <- Honce in Hfuel. rewrite Hfuel. clear Hfuel.
  destruct (get_resource_list _ _ _ _ 2 t node "all" false)
    as [[[[p4 p6] asns]|e]|] eqn:Hc; [| |done].
  2:{ eexists; split; [done|]. done. }
  eexists; split; [done|]. intros res' Hres. right.
  split; [split; eauto|].
  destruct (py_set asns) as [asn_set|] eqn:Hset; [|done]. simpl in Hres.
  injection Hres as <-. by exists p4, p6, asns, asn_set.
Qed.

Lemma populate_invariant fuel t keys res res' :
  populate' (S (S fuel)) t keys res = Some (Ok res') →
  index_entries' t res →
  index_entries' t res'
  ∧ ∀ node, node ∈ map fst (resource_dict_asn res')
            ↔ node ∈ map fst (resource_dict_asn res) ∨ (node ∈ keys ∧ indexable t node).
Proof.
  revert res. induction keys as [|k keys IH]; intros res; simpl.
  - intros [= <-] Hinv. split; [done|]. intros node. split; [by left|].
    intros [?|[?%elem_of_nil _]]; done.
  - destruct (populate_node_cases fuel t res k) as (r & -> & Hr).
    destruct r as [res1|e]; [|done]. intros Hrun Hinv.
    destruct (Hr res1 eq_refl) as [[Hno ->]|(Hyes & p4 & p6 & asns & asn_set & Hc & Hs & ->)].
    + destruct (IH res Hrun Hinv) as [Hinv' Hkeys]. split; [done|].
      intros node. rewrite Hkeys, elem_of_cons. split; [tauto|].
      intros [?|[[->|?] ?]]; tauto.
    + destruct Hinv as (H4 & H6 & Hall).
      destruct (IH _ Hrun) as [Hinv' Hkeys].
      { split; [|split]; simpl.
        - by rewrite !dict_set_keys, H4.
        - by rewrite !dict_set_keys, H6.
        - intros node s. rewrite !dict_get_set.
          destruct (String.eqb_spec node k) as [->|Hne].
          + intros [= <-]. split; [done|]. by exists p4, p6, asns.
          + apply Hall. }
      split; [done|]. intros node. rewrite Hkeys. simpl.
      rewrite dict_set_keys, key_add_elem, elem_of_cons. split.
      * intros [[->|?]|[? ?]]; tauto.
      * intros [?|[[->|?] ?]]; tauto.
Qed.

Lemma populate_total fuel t keys res :
  ∃ r, populate' (S (S fuel)) t keys res = Some r.
Proof.
  revert res. induction keys as [|k keys IH]; intros res; simpl; [eauto|].
  destruct (populate_node_cases fuel t res k) as (r & -> & _).
  destruct r as [res1|e]; [apply IH|eauto].
Qed.

Lemma index_entries_empty t : index_entries' t no_resources.
Proof. split; [done|]. split; [done|]. intros node s. simpl. done. Qed.

(** X14. [populate_resources] on empty caches always returns (two units
    of fuel for each non-recursive collection are enough). When it does
    not raise, the three caches have the same keys: exactly the keys of
    [node_data] that are neither ROAs nor RIR-owned; and the entries of a
    key are the tries and the ASN set of [get_resource_list] for that
    node alone, without recursion. *)
Theorem populate_resources_index (fuel : nat) (t : PKITree) (keys : list string) :
  (∃ r, populate' (S (S fuel)) t keys no_resources = Some r)
  ∧ ∀ res, populate' (S (S fuel)) t keys no_resources = Some (Ok res) →
      index_entries' t res
      ∧ ∀ node, node ∈ map fst (resource_dict_asn res)
                ↔ node ∈ keys ∧ indexable t node.
Proof.
  split; [apply populate_total|]. intros res Hrun.
  destruct (populate_invariant _ _ _ _ _ Hrun (index_entries_empty t)) as [Hinv Hkeys].
  split; [done|]. intros node. rewrite Hkeys. simpl.
  split; [|tauto]. intros [?%elem_of_nil|?]; done.
Qed.

Lemma search_asn_items t asn rt items acc r x :
  foldM (search_asn_item t asn rt) acc items = Ok r → x ∈ r →
  x ∈ acc ∨ (x ∈ map fst items ∧ type_matches t x rt = Ok true).
Proof.
  revert acc. induction items as [|[node s] items IH]; intros acc; simpl.
  - intros [= <-] ?. by left.
  - unfold search_asn_item at 1. simpl.
    destruct (set_contains asn s) as [[|]|]; simpl; [| |done].
    + destruct (type_matches t node rt) as [[|]|] eqn:Hm; simpl; [| |done].
      * intros Hrun Hx. destruct (IH _ Hrun Hx) as [Hin|[Hin ?]].
        -- apply elem_of_app in Hin as [?|Hin]; [by left|].
           apply list_elem_of_singleton in Hin as ->.
           right. split; [by left|done].
        -- right. split; [by right|done].
      * intros Hrun Hx. destruct (IH _ Hrun Hx) as [?|[? ?]]; [by left|].
        right. split; [by right|done].
    + intros Hrun Hx. destruct (IH _ Hrun Hx) as [?|[? ?]]; [by left|].
      right. split; [by right|done].
Qed.

Lemma search_prefix_items t prefix rt items acc r x :
  foldM (search_prefix_item pyt_contains t prefix rt) acc items = Ok r → x ∈ r →
  x ∈ acc ∨ (x ∈ map fst items ∧ type_matches t x rt = Ok true).
Proof.
  revert acc. induction items as [|[node s] items IH]; intros acc; simpl.
  - intros [= <-] ?. by left.
  - unfold search_prefix_item at 1. simpl.
    destruct (pyt_contains s prefix) as [[|]|]; simpl; [| |done].
    + destruct (type_matches t node rt) as [[|]|] eqn:Hm; simpl; [| |done].
      * intros Hrun Hx. destruct (IH _ Hrun Hx) as [Hin|[Hin ?]].
        -- apply elem_of_app in Hin as [?|Hin]; [by left|].
           apply list_elem_of_singleton in Hin as ->.
           right. split; [by left|done].
        -- right. split; [by right|done].
      * intros Hrun Hx. destruct (IH _ Hrun Hx) as [?|[? ?]]; [by left|].
        right. split; [by right|done].
    + intros Hrun Hx. destruct (IH _ Hrun Hx) as [?|[? ?]]; [by left|].
      right. split; [by right|done].
Qed.

Lemma search_results fuel t keys res :
  populate' (S (S fuel)) t keys no_resources = Some (Ok res) →
  (∀ asn rt r node, search_asn py_int t res asn rt = Ok r → node ∈ r →
     node ∈ keys ∧ indexable t node ∧ type_matches t node rt = Ok true)
  ∧ (∀ prefix rt r node, search_prefix pyt_contains t res prefix rt = Ok r → node ∈ r →
       node ∈ keys ∧ indexable t node ∧ type_matches t node rt = Ok true).
Proof.
  intros Hrun.
  destruct (populate_invariant _ _ _ _ _ Hrun (index_entries_empty t))
    as [(H4 & H6 & _) Hkeys].
  assert (Hindexed : ∀ node, node ∈ map fst (resource_dict_asn res) →
            node ∈ keys ∧ indexable t node).
  { intros node Hin. apply Hkeys in Hin as [Hin|?]; [|done].
    by apply elem_of_nil in Hin. }
  split.
  - intros asn rt r node. unfold search_asn.
    intros (asn' & _ & Hfold)%bind_ok_inv Hin.
    destruct (search_asn_items _ _ _ _ _ _ _ Hfold Hin) as [?%elem_of_nil|[Hk Hm]]; [done|].
    destruct (Hindexed node Hk). done.
  - intros prefix rt r node. unfold search_prefix. intros Hfold Hin.
    destruct (search_prefix_items _ _ _ _ _ _ _ Hfold Hin) as [?%elem_of_nil|[Hk Hm]]; [done|].
    assert (node ∈ map fst (resource_dict_asn res)) as Hk'.
    { destruct (str_contains ":" prefix); [by rewrite <- H6|by rewrite <- H4]. }
    destruct (Hindexed node Hk'). done.
Qed.

(** X15. After [populate_resources], each of the two searches returns
    only SKIs that are keys of [node_data], are neither ROAs nor
    RIR-owned, and pass the test on the resource type. *)
Theorem search_results_indexed (fuel : nat) (t : PKITree) (keys : list string)
    (res : resources PyTricia) :
  populate' (S (S fuel)) t keys no_resources = Some (Ok res) →
  (∀ asn rt r node, search_asn py_int t res asn rt = Ok r → node ∈ r →
     node ∈ keys ∧ indexable t node ∧ type_matches t node rt = Ok true)
  ∧ (∀ prefix rt r node, search_prefix pyt_contains t res prefix rt = Ok r → node ∈ r →
       node ∈ keys ∧ indexable t node ∧ type_matches t node rt = Ok true).
Proof. apply search_results. Qed.

Lemma indexable_not_roa t node :
  indexable t node → type_matches t node "roa" = Ok true → False.
Proof.
  intros [(roa & Hroa & Hfalse) _]. unfold type_matches. simpl.
  unfold is_roa in Hroa. destruct (get_data t node) as [data|]; [|done]. simpl.
  destruct (dict_item data "type") as [ty|]; [|done]. simpl in *.
  intros [= Hty]. rewrite Hty in Hroa. injection Hroa as <-. done.
Qed.

Lemma indexable_no_tal t node data :
  indexable t node → get_data t node = Some data → dict_has "tal" data = false.
Proof.
  intros [_ (rir & Hrir & Hfalse)] Hd. unfold is_rir_owned_rc in Hrir.
  rewrite Hd in Hrir. destruct (dict_has "tal" data); [|done].
  injection Hrir as <-. done.
Qed.

(** X16. After [populate_resources] a search with resource type ["roa"]
    finds nothing, whatever is searched for, and no search, with any
    resource type, returns a node whose record carries [tal]: ROAs and
    trust-anchor roots are not in the index. *)
Theorem search_never_roa_or_root (fuel : nat) (t : PKITree) (keys : list string)
    (res : resources PyTricia) :
  populate' (S (S fuel)) t keys no_resources = Some (Ok res) →
  (∀ asn r, search_asn py_int t res asn "roa" = Ok r → r = [])
  ∧ (∀ prefix r, search_prefix pyt_contains t res prefix "roa" = Ok r → r = [])
  ∧ (∀ asn rt r node data,
       search_asn py_int t res asn rt = Ok r → node ∈ r →
       get_data t node = Some data → dict_has "tal" data = false)
  ∧ (∀ prefix rt r node data,
       search_prefix pyt_contains t res prefix rt = Ok r → node ∈ r →
       get_data t node = Some data → dict_has "tal" data = false).
Proof.
  intros Hrun. destruct (search_results _ _ _ _ Hrun) as [Hasn Hpfx].
  repeat split.
  - intros asn r Hs. destruct r as [|node r]; [done|]. exfalso.
    destruct (Hasn asn "roa" _ node Hs) as (_ & Hi & Hm); [by left|].
    by apply (indexable_not_roa t node).
  - intros prefix r Hs. destruct r as [|node r]; [done|]. exfalso.
    destruct (Hpfx prefix "roa" _ node Hs) as (_ & Hi & Hm); [by left|].
    by apply (indexable_not_roa t node).
  - intros asn rt r node data Hs Hin Hd.
    destruct (Hasn asn rt r node Hs Hin) as (_ & Hi & _).
    by apply (indexable_no_tal t node).
  - intros prefix rt r node data Hs Hin Hd.
    destruct (Hpfx prefix rt r node Hs Hin) as (_ & Hi & _).
    by apply (indexable_no_tal t node).
Qed.

End IndexProps.

Example populate_scenario :
  populate_resources ∅ ∅ trie_setitem cidr_text 2 scenario_tree ["R"; "C"; "A"] no_resources
  = Some (Ok scenario_index).
Proof. vm_compute. reflexivity. Qed.

(** In the scenario only the child CA [C] is indexed: the root carries
    [tal] and [A] is a ROA. So a search for the root's ASN finds nothing,
    in either spelling, and a search for the prefix of [C] finds [C]. *)
Example search_scenario :
  search_asn digits_int scenario_tree scenario_index (JInt 65000) "all" = Ok []
  ∧ search_asn digits_int scenario_tree scenario_index (JStr "AS65000") "all" = Ok []
  ∧ search_asn digits_int scenario_tree scenario_index (JInt 65001) "all" = Ok []
  ∧ search_prefix trie_contains scenario_tree scenario_index "10.1.0.0/16" "all" = Ok ["C"]
  ∧ search_prefix trie_contains scenario_tree scenario_index "10.1.0.0/16" "ca_cert"
    = Ok ["C"].
Proof. repeat split; vm_compute; reflexivity. Qed.

Lemma search_results_indexed_witness :
  populate_resources ∅ ∅ trie_setitem cidr_text 2 scenario_tree ["R"; "C"; "A"] no_resources
  = Some (Ok scenario_index)
  ∧ (∀ asn rt r node,
       search_asn digits_int scenario_tree scenario_index asn rt = Ok r → node ∈ r →
       node ∈ ["R"; "C"; "A"] ∧ indexable scenario_tree node
       ∧ type_matches scenario_tree node rt = Ok true)
  ∧ (∀ prefix rt r node,
       search_prefix trie_contains scenario_tree scenario_index prefix rt = Ok r →
       node ∈ r →
       node ∈ ["R"; "C"; "A"] ∧ indexable scenario_tree node
       ∧ type_matches scenario_tree node rt = Ok true).
Proof.
  assert (populate_resources ∅ ∅ trie_setitem cidr_text 2 scenario_tree
            ["R"; "C"; "A"] no_resources = Some (Ok scenario_index)) as H
    by (vm_compute; reflexivity).
  split; [exact H|].
  exact (search_results_indexed (gmap string string) ∅ ∅ trie_setitem cidr_text
           trie_contains digits_int 0 scenario_tree ["R"; "C"; "A"] scenario_index H).
Defined.

Lemma search_never_roa_or_root_witness :
  populate_resources ∅ ∅ trie_setitem cidr_text 2 scenario_tree ["R"; "C"; "A"] no_resources
  = Some (Ok scenario_index)
  ∧ (∀ asn r, search_asn digits_int scenario_tree scenario_index asn "roa" = Ok r → r = [])
  ∧ (∀ prefix r,
       search_prefix trie_contains scenario_tree scenario_index prefix "roa" = Ok r →
       r = [])
  ∧ (∀ asn rt r node data,
       search_asn digits_int scenario_tree scenario_index asn rt = Ok r → node ∈ r →
       get_data scenario_tree node = Some data → dict_has "tal" data = false)
  ∧ (∀ prefix rt r node data,
       search_prefix trie_contains scenario_tree scenario_index prefix rt = Ok r →
       node ∈ r →
       get_data scenario_tree node = Some data → dict_has "tal" data = false).
Proof.
  assert (populate_resources ∅ ∅ trie_setitem cidr_text 2 scenario_tree
            ["R"; "C"; "A"] no_resources = Some (Ok scenario_index)) as H
    by (vm_compute; reflexivity).
  split; [exact H|].
  exact (search_never_roa_or_root (gmap string string) ∅ ∅ trie_setitem cidr_text
           trie_contains digits_int 0 scenario_tree ["R"; "C"; "A"] scenario_index H).
Defined.

(** ** More on the range normalizer *)

(** *** Address text read back *)

Lemma octets_round_trip : forallb octet_round_trip (seq 0 256) = true.
Proof. vm_compute. reflexivity. Qed.

Lemma octet_text o :
  0 ≤ o ≤ 255 →
  parse_octet (str_of_int o) = Some o
  ∧ str_contains "." (str_of_int o) = false
  ∧ str_contains "/" (str_of_int o) = false.
Proof.
  intros Ho. pose proof octets_round_trip as H. rewrite forallb_forall in H.
  specialize (H (Z.to_nat o)). unfold octet_round_trip in H.
  rewrite Z2Nat.id in H by lia.
  assert (In (Z.to_nat o) (seq 0 256)) as Hin by (apply in_seq; lia).
  apply H in Hin. apply andb_true_iff in Hin as [Hin Hslash].
  apply andb_true_iff in Hin as [Hparse Hdot].
  destruct (parse_octet (str_of_int o)) as [n|]; [|done].
  apply Z.eqb_eq in Hparse as ->.
  by rewrite <- (negb_involutive (str_contains "." _)), Hdot,
             <- (negb_involutive (str_contains "/" _)), Hslash.
Qed.

Lemma str_contains_char_cons c a s :
  str_contains (String c EmptyString) (String a s)
  = Ascii.eqb c a || str_contains (String c EmptyString) s.
Proof. simpl. by rewrite andb_true_r. Qed.

Lemma str_contains_char_app c s1 s2 :
  str_contains (String c EmptyString) (s1 +:+ s2)
  = str_contains (String c EmptyString) s1 || str_contains (String c EmptyString) s2.
Proof.
  induction s1 as [|a s1 IH].
  - simpl. done.
  - change (String a s1 +:+ s2) with (String a (s1 +:+ s2)).
    rewrite !str_contains_char_cons, IH. by rewrite orb_assoc.
Qed.

Lemma split_no_sep c s :
  str_contains (String c EmptyString) s = false → split c s = [s].
Proof.
  induction s as [|a s IH]; [done|].
  rewrite str_contains_char_cons. intros [Ha Hs]%orb_false_iff.
  simpl. rewrite Ascii.eqb_sym, Ha. by rewrite IH.
Qed.

Lemma split_app_sep c s rest :
  str_contains (String c EmptyString) s = false →
  split c (s +:+ String c rest) = s :: split c rest.
Proof.
  induction s as [|a s IH].
  - intros _. simpl. by rewrite Ascii.eqb_refl.
  - rewrite str_contains_char_cons. intros [Ha Hs]%orb_false_iff.
    change (String a s +:+ String c rest) with (String a (s +:+ String c rest)).
    simpl. rewrite Ascii.eqb_sym, Ha. by rewrite IH.
Qed.

Lemma octet_bits y s i :
  0 ≤ s → 0 ≤ i →
  Z.testbit (Z.shiftl (Z.land (Z.shiftr y s) 255) s) i
  = Z.testbit y i && (s <=? i) && (i <? s + 8).
Proof.
  intros Hs Hi. change 255 with (Z.ones 8).
  destruct (Z.leb_spec s i) as [Hle|Hlt].
  - rewrite Z.shiftl_spec, Z.land_spec, Z.shiftr_spec, Z.testbit_ones_nonneg by lia.
    replace (i - s + s) with i by lia. rewrite andb_true_r. f_equal.
    destruct (Z.ltb_spec (i - s) 8), (Z.ltb_spec i (s + 8)); lia || done.
  - rewrite Z.shiftl_spec_low by lia. by rewrite andb_false_r.
Qed.

Lemma octets_recombine y :
  Z.lor (Z.lor (Z.lor (Z.shiftl (Z.land (Z.shiftr y 24) 255) 24)
                      (Z.shiftl (Z.land (Z.shiftr y 16) 255) 16))
               (Z.shiftl (Z.land (Z.shiftr y 8) 255) 8))
        (Z.land y 255)
  = y mod 2 ^ 32.
Proof.
  rewrite <- (Z.land_ones y 32) by lia.
  replace (Z.land y 255) with (Z.shiftl (Z.land (Z.shiftr y 0) 255) 0)
    by (by rewrite Z.shiftl_0_r, Z.shiftr_0_r).
  apply Z.bits_inj'. intros i Hi.
  rewrite !Z.lor_spec, !octet_bits, Z.land_spec, Z.testbit_ones_nonneg by lia.
  destruct (Z.testbit y i); simpl; [|done].
  repeat match goal with
         | |- context [?a <=? ?b] => destruct (Z.leb_spec a b)
         | |- context [?a <? ?b] => destruct (Z.ltb_spec a b)
         end; simpl; lia || done.
Qed.

(** Whatever integer is printed as a dotted quad, the text reads back as
    its low 32 bits. *)
Lemma ipv4_text_round_trip y : ipv4_of_string (ipv4_str y) = Some (y mod 2 ^ 32).
Proof.
  assert (Hoct : ∀ s, 0 ≤ Z.land (Z.shiftr y s) 255 ≤ 255).
  { intros s. change (Z.land (Z.shiftr y s) 255) with (Z.land (Z.shiftr y s) (Z.ones 8)).
    rewrite Z.land_ones by lia.
    pose proof (Z.mod_pos_bound (Z.shiftr y s) (2 ^ 8) ltac:(lia)). lia. }
  pose proof (Hoct 0) as H0. rewrite Z.shiftr_0_r in H0.
  destruct (octet_text _ (Hoct 24)) as (P1 & D1 & S1).
  destruct (octet_text _ (Hoct 16)) as (P2 & D2 & S2).
  destruct (octet_text _ (Hoct 8)) as (P3 & D3 & S3).
  destruct (octet_text _ H0) as (P4 & D4 & S4).
  unfold ipv4_of_string, ipv4_str.
  set (s1 := str_of_int (Z.land (Z.shiftr y 24) 255)) in *.
  set (s2 := str_of_int (Z.land (Z.shiftr y 16) 255)) in *.
  set (s3 := str_of_int (Z.land (Z.shiftr y 8) 255)) in *.
  set (s4 := str_of_int (Z.land y 255)) in *.
  change (s1 +:+ "." +:+ s2 +:+ "." +:+ s3 +:+ "." +:+ s4)
    with (s1 +:+ String "." (s2 +:+ String "." (s3 +:+ String "." s4))).
  assert (str_contains "/" (s1 +:+ String "." (s2 +:+ String "." (s3 +:+ String "." s4)))
          = false) as ->.
  { rewrite str_contains_char_app, S1, str_contains_char_cons.
    rewrite str_contains_char_app, S2, str_contains_char_cons.
    rewrite str_contains_char_app, S3, str_contains_char_cons, S4. reflexivity. }
  rewrite !split_app_sep, split_no_sep by done.
  rewrite P1, P2, P3, P4. simpl. f_equal. apply octets_recombine.
Qed.

Lemma parse_octet_digits s n :
  parse_octet s = Some n →
  s ≠ EmptyString ∧ all_digits s = true ∧ n = decimal_value s 0.
Proof.
  unfold parse_octet. destruct s as [|c rest]; [done|].
  destruct (all_digits (String c rest)); simpl; [|done].
  destruct (3 <? _)%nat; [done|].
  destruct (negb _ && _); [done|].
  destruct (255 <? _); [done|].
  by intros [= <-].
Qed.

Lemma ipv4_of_string_parts s a :
  ipv4_of_string s = Some a →
  ∃ o1 o2 o3 o4 n1 n2 n3 n4,
    split "." s = [o1; o2; o3; o4]
    ∧ parse_octet o1 = Some n1 ∧ parse_octet o2 = Some n2
    ∧ parse_octet o3 = Some n3 ∧ parse_octet o4 = Some n4
    ∧ a = Z.lor (Z.lor (Z.lor (Z.shiftl n1 24) (Z.shiftl n2 16)) (Z.shiftl n3 8)) n4.
Proof.
  unfold ipv4_of_string. destruct (str_contains "/" s); [done|].
  destruct (split "." s) as [|o1 [|o2 [|o3 [|o4 [|? ?]]]]]; try done.
  destruct (parse_octet o1) as [n1|] eqn:E1; [|done].
  destruct (parse_octet o2) as [n2|] eqn:E2; [|done].
  destruct (parse_octet o3) as [n3|] eqn:E3; [|done].
  destruct (parse_octet o4) as [n4|] eqn:E4; [|done].
  simpl. intros [= <-]. by exists o1, o2, o3, o4, n1, n2, n3, n4.
Qed.

Lemma digits_int_digits s :
  s ≠ EmptyString → all_digits s = true → digits_int s = Ok (decimal_value s 0).
Proof. intros Hs Hd. unfold digits_int. destruct s; [done|]. by rewrite Hd. Qed.

Lemma tiles_total_size a l b : tiles a l b → total_size l = b - a + 1.
Proof.
  revert a. induction l as [|n l IH]; intros a; simpl.
  - intros ->. lia.
  - intros [_ Hrest]. rewrite (IH _ Hrest). lia.
Qed.

(** A range that is one aligned block comes out as that block alone. *)
Lemma greedy_single a k nets b :
  Forall is_cidr4 nets → greedy a nets b →
  0 ≤ k → (2 ^ k | a) → b = a + 2 ^ k - 1 →
  ∃ net, nets = [net] ∧ net_version net = 4 ∧ network_address net = a
         ∧ prefixlen net = 32 - k.
Proof.
  intros Hall Hgreedy Hk Hdiv ->.
  pose proof (Z.pow_pos_nonneg 2 k ltac:(lia) Hk) as Hpos.
  destruct nets as [|net rest]; simpl in Hgreedy; [lia|].
  destruct Hgreedy as (Haddr & Hmax & Hrest).
  apply Forall_cons in Hall as [Hnet Hall].
  pose proof (block_size_pos net Hnet) as Hsize.
  destruct (tiles_covers _ _ _ Hall (greedy_tiles _ _ _ Hrest)) as [Hle _].
  pose proof (Hmax k Hk Hdiv ltac:(lia)) as Hkb.
  assert (block_bits net = k) as Hbits.
  { destruct (Z.eq_dec (block_bits net) k) as [|Hne]; [done|].
    assert (2 ^ (k + 1) ≤ block_size net).
    { unfold block_size. apply Z.pow_le_mono_r; lia. }
    rewrite Z.pow_add_r in * by lia. lia. }
  assert (block_size net = 2 ^ k) as Hbs by (unfold block_size; by rewrite Hbits).
  exists net. destruct Hnet as (Hv & Hp & _).
  split; [|split; [done|split; [done|]]].
  - f_equal. destruct rest as [|net' rest]; [done|]. simpl in Hrest.
    apply Forall_cons in Hall as [Hnet' Hall].
    destruct Hrest as (_ & _ & Hrest).
    pose proof (block_size_pos net' Hnet').
    destruct (tiles_covers _ _ _ Hall (greedy_tiles _ _ _ Hrest)). lia.
  - unfold block_bits in Hbits. rewrite Hv in Hbits.
    change (bits_of_version 4) with 32 in Hbits. lia.
Qed.

Section EndIpProps.
Variable py_int : string → result Z.
Variable ipv6_of_string : string → option Z.
Variable ipv6_str : Z → string.

(** [int] on a non-empty string of ASCII digits is its decimal value. *)
Hypothesis py_int_digits :
  ∀ s, s ≠ EmptyString → all_digits s = true → py_int s = Ok (decimal_value s 0).

Local Abbreviation get_cidr' := (get_cidr ipv6_of_string ipv6_str).
Local Abbreviation get_cidr_opt' := (get_cidr_opt py_int ipv6_of_string ipv6_str).

Lemma get_cidr_greedy start_ip end_ip a b :
  ipv4_of_string start_ip = Some a → ipv4_of_string end_ip = Some b → a ≤ b →
  ∃ nets,
    (∀ fuel, (Z.to_nat (b - a + 1) < fuel)%nat →
       get_cidr' fuel start_ip end_ip = Some (Ok (map (network_str ipv6_str) nets)))
    ∧ Forall is_cidr4 nets
    ∧ greedy a nets b.
Proof.
  intros Ha Hb Hab.
  pose proof (ipv4_of_string_range _ _ Ha) as Hra.
  pose proof (ipv4_of_string_range _ _ Hb) as Hrb.
  destruct (summarize_loop_greedy (S (Z.to_nat (b - a + 1))) a b
              (proj1 Hra) (proj2 Hrb) ltac:(lia) ltac:(lia))
    as (nets & Hrun & Hall & Hgreedy).
  exists nets. split; [|done].
  intros fuel Hfuel. unfold get_cidr, ip_address. rewrite Ha, Hb.
  unfold summarize_address_range. simpl.
  destruct (Z.ltb_spec b a); [lia|].
  by rewrite (summarize_loop_mono (S (Z.to_nat (b - a + 1))) fuel 4 a b _ ltac:(lia) Hrun).
Qed.

Lemma get_cidr_reversed_range start_ip end_ip a b fuel :
  ipv4_of_string start_ip = Some a → ipv4_of_string end_ip = Some b → b < a →
  get_cidr' fuel start_ip end_ip = Some (Raise ValueError).
Proof.
  intros Ha Hb Hab. unfold get_cidr, ip_address. rewrite Ha, Hb.
  unfold summarize_address_range. simpl.
  by destruct (Z.ltb_spec b a); [|lia].
Qed.

Lemma calculate_end_ip_ipv4 start_ip a n :
  ipv4_of_string start_ip = Some a →
  calculate_end_ip py_int start_ip (Some n) = Returns (ipv4_str (a + n - 1)).
Proof.
  intros (o1 & o2 & o3 & o4 & n1 & n2 & n3 & n4 & Hsplit & H1 & H2 & H3 & H4 & ->)
    %ipv4_of_string_parts.
  apply parse_octet_digits in H1 as (? & ? & ->).
  apply parse_octet_digits in H2 as (? & ? & ->).
  apply parse_octet_digits in H3 as (? & ? & ->).
  apply parse_octet_digits in H4 as (? & ? & ->).
  unfold calculate_end_ip. rewrite Hsplit. simpl.
  by rewrite !py_int_digits.
Qed.

Lemma get_cidr_opt_count start_ip a n fuel :
  ipv4_of_string start_ip = Some a →
  get_cidr_opt' fuel start_ip None (Some n)
  = of_result <$> get_cidr' fuel start_ip (ipv4_str (a + n - 1)).
Proof.
  intros Ha. unfold get_cidr_opt. by rewrite (calculate_end_ip_ipv4 _ a).
Qed.

(** X17. For an IPv4 start address and any integer count, positive or not,
    [calculate_end_ip] returns the dotted quad of [start + count - 1]
    reduced modulo 2^32: past 255.255.255.255 (or below 0.0.0.0) it wraps
    around instead of failing, and the text it returns always reads back
    as an IPv4 address. *)
Theorem calculate_end_ip_wraps (start_ip : string) (a n : Z) :
  ipv4_of_string start_ip = Some a →
  calculate_end_ip py_int start_ip (Some n) = Returns (ipv4_str (a + n - 1))
  ∧ ipv4_of_string (ipv4_str (a + n - 1)) = Some ((a + n - 1) mod 2 ^ 32).
Proof.
  intros Ha. split; [by apply calculate_end_ip_ipv4|apply ipv4_text_round_trip].
Qed.

(** X18. Given an IPv4 start address and a count [n >= 1] that stays
    within the address space, [get_cidr(start_ip, num_ips=n)] returns
    the text of well-formed CIDR blocks that follow one another from the
    start address without gap or overlap and hold exactly [n] addresses
    in total; no list of CIDR blocks with these addresses is shorter. *)
Theorem get_cidr_count (start_ip : string) (a n : Z) :
  ipv4_of_string start_ip = Some a → 1 ≤ n → a + n ≤ 2 ^ 32 →
  ∃ nets,
    (∀ fuel, (Z.to_nat n < fuel)%nat →
       get_cidr_opt' fuel start_ip None (Some n)
       = Some (Returns (map (network_str ipv6_str) nets)))
    ∧ Forall is_cidr4 nets
    ∧ tiles a nets (a + n - 1)
    ∧ total_size nets = n
    ∧ (∀ other, Forall is_cidr4 other → covers other a (a + n - 1) →
         (length nets ≤ length other)%nat).
Proof.
  intros Ha Hn Hmax.
  pose proof (ipv4_of_string_range _ _ Ha) as Hra.
  pose proof (ipv4_text_round_trip (a + n - 1)) as Hend.
  rewrite Z.mod_small in Hend by lia.
  destruct (get_cidr_greedy _ _ _ _ Ha Hend ltac:(lia)) as (nets & Hrun & Hall & Hgreedy).
  pose proof (greedy_tiles _ _ _ Hgreedy) as Htiles.
  exists nets. split; [|split; [done|split; [done|split]]].
  - intros fuel Hfuel. rewrite (get_cidr_opt_count _ a) by done.
    rewrite Hrun; [done|]. replace (a + n - 1 - a + 1) with n by lia. done.
  - rewrite (tiles_total_size _ _ _ Htiles). lia.
  - intros other Hother Hcov. by apply (greedy_minimal nets a (a + n - 1)).
Qed.

(** X19. Given an IPv4 start address, a count whose end address
    [(start + n - 1) mod 2^32] lies before the start is rejected with
    [ValueError]: this is what a count of zero or below gives (unless
    it wraps below 0.0.0.0) and what a count that runs past
    255.255.255.255 gives; the loop is not entered, whatever the count. *)
Theorem get_cidr_count_rejected (start_ip : string) (a n : Z) (fuel : nat) :
  ipv4_of_string start_ip = Some a →
  (a + n - 1) mod 2 ^ 32 < a →
  get_cidr_opt' fuel start_ip None (Some n) = Some (Raises ValueError).
Proof.
  intros Ha Hlt. rewrite (get_cidr_opt_count _ a) by done.
  rewrite (get_cidr_reversed_range _ _ a ((a + n - 1) mod 2 ^ 32)); try done.
  apply ipv4_text_round_trip.
Qed.

(** X20. For an IPv4 start address and a count [n >= 1] that stays
    within the address space ([start + n <= 2^32]), with more fuel than
    [n], [get_cidr(start_ip, num_ips=n)] gives a single CIDR block
    exactly when [n] is a power of two that the start address is aligned
    to: for [n = 2^k] with [2^k | start] the result is the one block
    [start/(32-k)], and whenever the result is one block the count is
    such a power of two. (Outside this range the equivalence fails: a
    count of zero from 0.0.0.0 wraps around and gives the single block
    0.0.0.0/0.) *)
Theorem get_cidr_single_block (start_ip : string) (a n : Z) (fuel : nat) :
  ipv4_of_string start_ip = Some a → 1 ≤ n → a + n ≤ 2 ^ 32 →
  (Z.to_nat n < fuel)%nat →
  (∀ k, 0 ≤ k → n = 2 ^ k → (2 ^ k | a) →
     get_cidr_opt' fuel start_ip None (Some n)
     = Some (Returns [ipv4_str a +:+ "/" +:+ str_of_int (32 - k)]))
  ∧ (∀ block, get_cidr_opt' fuel start_ip None (Some n) = Some (Returns [block]) →
       ∃ k, 0 ≤ k ≤ 32 ∧ n = 2 ^ k ∧ (2 ^ k | a)
            ∧ block = ipv4_str a +:+ "/" +:+ str_of_int (32 - k)).
Proof.
  intros Ha Hn Hmax Hfuel.
  pose proof (ipv4_of_string_range _ _ Ha) as Hra.
  pose proof (ipv4_text_round_trip (a + n - 1)) as Hend.
  rewrite Z.mod_small in Hend by lia.
  destruct (get_cidr_greedy _ _ _ _ Ha Hend ltac:(lia)) as (nets & Hrun & Hall & Hgreedy).
  assert (get_cidr_opt' fuel start_ip None (Some n)
          = Some (Returns (map (network_str ipv6_str) nets))) as Hres.
  { rewrite (get_cidr_opt_count _ a) by done.
    rewrite Hrun; [done|]. replace (a + n - 1 - a + 1) with n by lia. done. }
  rewrite Hres. split.
  - intros k Hk -> Hdiv.
    destruct (greedy_single a k nets _ Hall Hgreedy Hk Hdiv eq_refl)
      as (net & -> & Hv & Haddr & Hplen).
    simpl. unfold network_str. rewrite Hv, Haddr, Hplen. done.
  - intros block [= Hmap].
    destruct nets as [|net [|? ?]]; simplify_eq/=.
    destruct Hgreedy as (Haddr & _ & Hnil).
    apply Forall_cons in Hall as [(Hv & Hp & Hr & Hdiv) _].
    exists (block_bits net).
    assert (block_bits net = 32 - prefixlen net) as Hbits.
    { unfold block_bits. by rewrite Hv. }
    unfold block_size in *. rewrite Haddr in *.
    split; [lia|]. split; [lia|]. split; [done|].
    unfold network_str. rewrite Hv, Haddr. simpl. repeat f_equal. lia.
Qed.

(** X21. A start address that reads neither as IPv4 nor as IPv6 never
    gives a result: with or without [end_ip], whatever [num_ips],
    [get_cidr] raises (in [calculate_end_ip] or at [ip_address]) and the
    summarizing loop is not entered. *)
Theorem get_cidr_invalid_start (start_ip : string) (end_ip : option string)
    (num_ips : option Z) (fuel : nat) :
  ipv4_of_string start_ip = None → ipv6_of_string start_ip = None →
  ∃ o, get_cidr_opt' fuel start_ip end_ip num_ips = Some o ∧ ∀ l, o ≠ Returns l.
Proof.
  intros H4 H6.
  assert (∀ e, get_cidr' fuel start_ip e = Some (Raise ValueError)) as Hraise.
  { intros e. unfold get_cidr, ip_address. by rewrite H4, H6. }
  unfold get_cidr_opt. destruct end_ip as [e|].
  - rewrite Hraise. by eexists.
  - destruct (calculate_end_ip py_int start_ip num_ips) as [e|e|].
    + rewrite Hraise. by eexists.
    + by eexists.
    + by eexists.
Qed.

End EndIpProps.

Lemma calculate_end_ip_wraps_witness :
  (∀ s, s ≠ EmptyString → all_digits s = true → digits_int s = Ok (decimal_value s 0))
  ∧ ipv4_of_string "255.255.255.250" = Some 4294967290
  ∧ calculate_end_ip digits_int "255.255.255.250" (Some 10)
    = Returns (ipv4_str (4294967290 + 10 - 1))
  ∧ ipv4_of_string (ipv4_str (4294967290 + 10 - 1))
    = Some ((4294967290 + 10 - 1) mod 2 ^ 32).
Proof.
  split; [exact digits_int_digits|]. split; [reflexivity|].
  exact (calculate_end_ip_wraps digits_int digits_int_digits
           "255.255.255.250" 4294967290 10 eq_refl).
Defined.

(** Ten addresses from 255.255.255.250 end at 0.0.0.3. *)
Example calculate_end_ip_past_the_top :
  calculate_end_ip digits_int "255.255.255.250" (Some 10) = Returns "0.0.0.3".
Proof. vm_compute. reflexivity. Qed.

Lemma get_cidr_count_witness :
  (∀ s, s ≠ EmptyString → all_digits s = true → digits_int s = Ok (decimal_value s 0))
  ∧ ipv4_of_string "10.0.0.1" = Some 167772161
  ∧ 1 ≤ 333
  ∧ 167772161 + 333 ≤ 2 ^ 32
  ∧ ∃ nets,
      (∀ fuel, (Z.to_nat 333 < fuel)%nat →
         get_cidr_opt digits_int (λ _, None) (λ _, EmptyString) fuel "10.0.0.1" None (Some 333)
         = Some (Returns (map (network_str (λ _, EmptyString)) nets)))
      ∧ Forall is_cidr4 nets
      ∧ tiles 167772161 nets (167772161 + 333 - 1)
      ∧ total_size nets = 333
      ∧ (∀ other, Forall is_cidr4 other → covers other 167772161 (167772161 + 333 - 1) →
           (length nets ≤ length other)%nat).
Proof.
  split; [exact digits_int_digits|]. split; [reflexivity|]. split; [lia|]. split; [lia|].
  apply (get_cidr_count digits_int (λ _, None) (λ _, EmptyString) digits_int_digits
           "10.0.0.1" 167772161 333); [reflexivity|lia|lia].
Defined.

Lemma get_cidr_count_rejected_witness :
  (∀ s, s ≠ EmptyString → all_digits s = true → digits_int s = Ok (decimal_value s 0))
  ∧ ipv4_of_string "10.0.0.1" = Some 167772161
  ∧ (167772161 + 0 - 1) mod 2 ^ 32 < 167772161
  ∧ get_cidr_opt digits_int (λ _, None) (λ _, EmptyString) 0 "10.0.0.1" None (Some 0)
    = Some (Raises ValueError).
Proof.
  split; [exact digits_int_digits|]. split; [reflexivity|]. split; [reflexivity|].
  apply (get_cidr_count_rejected digits_int (λ _, None) (λ _, EmptyString) digits_int_digits
           "10.0.0.1" 167772161 0 0%nat); reflexivity.
Defined.

(** A count of zero from 0.0.0.0 is not rejected: the end address wraps
    to 255.255.255.255 and the whole address space comes back. *)
Example get_cidr_zero_count_wraps :
  get_cidr_opt digits_int (λ _, None) (λ _, EmptyString) 2 "0.0.0.0" None (Some 0)
  = Some (Returns ["0.0.0.0/0"]).
Proof. vm_compute. reflexivity. Qed.

Lemma get_cidr_single_block_witness :
  (∀ s, s ≠ EmptyString → all_digits s = true → digits_int s = Ok (decimal_value s 0))
  ∧ ipv4_of_string "10.0.1.0" = Some 167772416
  ∧ 1 ≤ 256
  ∧ 167772416 + 256 ≤ 2 ^ 32
  ∧ (Z.to_nat 256 < 257)%nat
  ∧ (∀ k, 0 ≤ k → 256 = 2 ^ k → (2 ^ k | 167772416) →
       get_cidr_opt digits_int (λ _, None) (λ _, EmptyString) 257 "10.0.1.0" None (Some 256)
       = Some (Returns [ipv4_str 167772416 +:+ "/" +:+ str_of_int (32 - k)]))
  ∧ (∀ block,
       get_cidr_opt digits_int (λ _, None) (λ _, EmptyString) 257 "10.0.1.0" None (Some 256)
       = Some (Returns [block]) →
       ∃ k, 0 ≤ k ≤ 32 ∧ 256 = 2 ^ k ∧ (2 ^ k | 167772416)
            ∧ block = ipv4_str 167772416 +:+ "/" +:+ str_of_int (32 - k)).
Proof.
  split; [exact digits_int_digits|]. split; [reflexivity|]. split; [lia|]. split; [lia|].
  split; [vm_compute; lia|].
  apply (get_cidr_single_block digits_int (λ _, None) (λ _, EmptyString) digits_int_digits
           "10.0.1.0" 167772416 256 257%nat); [reflexivity|lia|lia|vm_compute; lia].
Defined.

Example get_cidr_count_aligned :
  get_cidr_opt digits_int (λ _, None) (λ _, EmptyString) 257 "10.0.1.0" None (Some 256)
  = Some (Returns ["10.0.1.0/24"]).
Proof. vm_compute. reflexivity. Qed.

Lemma get_cidr_invalid_start_witness :
  ipv4_of_string "10.0.0" = None
  ∧ (λ _ : string, @None Z) "10.0.0" = None
  ∧ ∃ o, get_cidr_opt digits_int (λ _, None) (λ _, EmptyString) 0 "10.0.0" None (Some 5)
         = Some o ∧ ∀ l, o ≠ Returns l.
Proof.
  split; [reflexivity|]. split; [reflexivity|].
  apply (get_cidr_invalid_start digits_int (λ _, None) (λ _, EmptyString)
           "10.0.0" None (Some 5) 0%nat); reflexivity.
Defined.

(** With three parts only, [calculate_end_ip] fails on the fourth index. *)
Example get_cidr_three_parts :
  get_cidr_opt digits_int (λ _, None) (λ _, EmptyString) 0 "10.0.0" None (Some 5)
  = Some RaisesIndexError.
Proof. reflexivity. Qed.

(** ** [buildTree] *)

Lemma tree_record_type d :
  tree_record d = true →
  dict_get "type" d = Some (JStr "roa") ∨ dict_get "type" d = Some (JStr "ca_cert").
Proof.
  unfold tree_record. destruct (dict_get "type" d) as [ty|]; [|done].
  intros [H|H]%orb_true_iff; apply json_eqb_str in H as ->; auto.
Qed.

(** What one entry of the archive does to the tree and its keys. *)
Lemma buildTree_step_cases tree keys data :
  match data with
  | JDict d =>
      if tree_record d then
        match dict_get "ski" d with
        | None => buildTree_step tree keys data = Done (Raise KeyError)
        | Some ski =>
            buildTree_step tree keys data
            = insert_entry tree keys ski (default (JStr EmptyString) (dict_get "aki" d)) d
        end
      else buildTree_step tree keys data = Done (Ok (tree, keys))
  | _ =>
      buildTree_step tree keys data = Done (Ok (tree, keys))
      ∨ buildTree_step tree keys data = Done (Raise TypeError)
  end.
Proof.
  destruct data as [| | |s|l|d]; try (by right).
  - unfold buildTree_step. simpl. destruct (str_contains "type" s); auto.
  - unfold buildTree_step. simpl. destruct (list_contains (JStr "type") l); auto.
  - unfold buildTree_step, tree_record. simpl.
    unfold dict_has, dict_item.
    destruct (dict_get "type" d) as [ty|]; [|done].
    destruct (json_eqb ty (JStr "roa") || json_eqb ty (JStr "ca_cert")); [|done].
    destruct (dict_get "ski" d) as [ski|]; [|done].
    by destruct (dict_get "aki" d) as [aki|].
Qed.

(** An entry that is inserted carries a string [ski]; it is a duplicate,
    or its [aki] is a string too. *)
Lemma insert_entry_ok tree keys ski aki d tree' keys' :
  insert_entry tree keys ski aki d = Done (Ok (tree', keys')) →
  ∃ s, ski = JStr s
       ∧ ((is_Some (node_data tree !! s) ∧ tree' = tree ∧ keys' = keys)
          ∨ (node_data tree !! s = None
             ∧ ∃ a, aki = JStr a ∧ tree' = insert_node tree s a d ∧ keys' = keys ++ [s])).
Proof.
  unfold insert_entry. destruct (hashable ski); [|done]. simpl.
  destruct ski as [| | |s| |]; try done. simpl.
  destruct (decide (is_Some (node_data tree !! s))) as [Hold|Hfresh].
  - intros [= <- <-]. exists s. split; [done|]. by left.
  - destruct (hashable aki); [|done]. simpl.
    destruct aki as [| | |a| |]; try done. simpl. intros [= <- <-].
    exists s. split; [done|]. right.
    split; [|by exists a]. destruct (node_data tree !! s) eqn:E; [|done].
    exfalso. apply Hfresh. by eexists.
Qed.

(** An entry that makes the insertion raise carries a key that cannot be
    hashed. *)
Lemma insert_entry_raises tree keys ski aki d e :
  insert_entry tree keys ski aki d = Done (Raise e) →
  e = TypeError ∧ (hashable ski = false ∨ hashable aki = false).
Proof.
  unfold insert_entry. destruct (hashable ski) eqn:Hs; simpl.
  2:{ intros [= <-]. auto. }
  destruct (as_key ski) as [s|]; [|done].
  destruct (decide _); [done|].
  destruct (hashable aki) eqn:Ha; simpl.
  2:{ intros [= <-]. auto. }
  by destruct (as_key aki).
Qed.

Lemma insert_entry_fuel tree keys ski aki d :
  insert_entry tree keys ski aki d ≠ OutOfFuel.
Proof.
  unfold insert_entry. destruct (hashable ski); simpl; [|done].
  destruct (as_key ski); [|done]. destruct (decide _); [done|].
  destruct (hashable aki); simpl; [|done]. by destruct (as_key aki).
Qed.

Lemma buildTree_loop_cons tree keys data rest :
  buildTree_loop tree keys (data :: rest)
  = match buildTree_step tree keys data with
    | Done (Ok (tree, keys)) => buildTree_loop tree keys rest
    | r => r
    end.
Proof. done. Qed.

(** The loop of [buildTree] is the sequence of [insert_node] calls of
    the entries it keeps, and [keys] follows [node_data]. *)
Lemma buildTree_loop_built data_list : ∀ calls keys tree' keys',
  buildTree_loop (build calls) keys data_list = Done (Ok (tree', keys')) →
  NoDup keys → (∀ k, k ∈ keys ↔ is_Some (get_data (build calls) k)) →
  tree' = build (calls ++ omap record_call data_list)
  ∧ NoDup keys'
  ∧ (∀ k, k ∈ keys' ↔ is_Some (get_data tree' k))
  ∧ Forall (λ data, ∀ d, data = JDict d → tree_record d = true →
                         is_Some (record_call data)) data_list.
Proof.
  induction data_list as [|data rest IH]; intros calls keys tree' keys' Hrun Hnd Hkeys.
  - simpl in *. injection Hrun as <- <-. by rewrite app_nil_r.
  - rewrite buildTree_loop_cons in Hrun.
    pose proof (buildTree_step_cases (build calls) keys data) as Hstep.
    assert (Hskip : buildTree_step (build calls) keys data = Done (Ok (build calls, keys)) →
                    record_call data = None →
                    (∀ d, data = JDict d → tree_record d = false) →
                    tree' = build (calls ++ omap record_call (data :: rest))
                    ∧ NoDup keys'
                    ∧ (∀ k, k ∈ keys' ↔ is_Some (get_data tree' k))
                    ∧ Forall (λ data, ∀ d, data = JDict d → tree_record d = true →
                                           is_Some (record_call data)) (data :: rest)).
    { intros Heq Hcall Hrec. rewrite Heq in Hrun.
      destruct (IH _ _ _ _ Hrun Hnd Hkeys) as (-> & Hnd' & Hkeys' & Hall).
      cbn [omap list_omap]. rewrite Hcall.
      split; [done|]. split; [done|]. split; [done|].
      constructor; [|done]. intros d Hd Htr. rewrite (Hrec d Hd) in Htr. done. }
    destruct data as [| | |s|l|d];
      try (destruct Hstep as [Heq|Heq];
           [by apply Hskip|by rewrite Heq in Hrun]).
    destruct (tree_record d) eqn:Htr.
    2:{ apply Hskip; [done| |by intros ? [= <-]]. simpl. by rewrite Htr. }
    destruct (dict_get "ski" d) as [skiv|] eqn:Hski; [|by rewrite Hstep in Hrun].
    rewrite Hstep in Hrun.
    destruct (insert_entry (build calls) keys skiv
                (default (JStr EmptyString) (dict_get "aki" d)) d)
      as [[[tree1 keys1]|e]| |] eqn:Hins; try done.
    apply insert_entry_ok in Hins as (s & -> & Hcase).
    assert (record_call (JDict d) = Some (s, record_aki d, d)) as Hcall
      by (simpl; by rewrite Htr, Hski).
    assert (tree1 = build (calls ++ [(s, record_aki d, d)])
            ∧ NoDup keys1
            ∧ ∀ k, k ∈ keys1
                   ↔ is_Some (get_data (build (calls ++ [(s, record_aki d, d)])) k))
      as (-> & Hnd1 & Hkeys1).
    { rewrite build_snoc. unfold apply_call. simpl.
      destruct Hcase as [(Hold & -> & ->)|(Hfresh & a & Haki & -> & ->)].
      - rewrite insert_node_present by done. by split.
      - assert (record_aki d = a) as ->.
        { unfold record_aki. destruct (dict_get "aki" d) as [v|]; simpl in Haki.
          - by subst v.
          - by injection Haki as <-. }
        split; [done|]. split.
        + apply NoDup_app. split; [done|]. split; [|apply NoDup_singleton].
          intros k Hk ->%list_elem_of_singleton.
          apply Hkeys in Hk as [? Hk]. unfold get_data in Hk. congruence.
        + intros k. unfold get_data. rewrite node_data_insert_node.
          rewrite elem_of_app, list_elem_of_singleton, Hkeys. unfold get_data. tauto. }
    apply IH in Hrun as (-> & Hnd' & Hkeys' & Hall); [|done..].
    cbn [omap list_omap]. rewrite Hcall.
    rewrite <- app_assoc in Hkeys'. rewrite <- app_assoc. simpl in *.
    split; [done|]. split; [done|]. split; [done|].
    constructor; [|done]. intros ? _ _. by eexists.
Qed.

Lemma buildTree_loop_tree data_list tree keys :
  buildTree_loop empty_tree [] data_list = Done (Ok (tree, keys)) →
  tree = build (omap record_call data_list)
  ∧ NoDup keys
  ∧ (∀ k, k ∈ keys ↔ is_Some (get_data tree k))
  ∧ Forall (λ data, ∀ d, data = JDict d → tree_record d = true →
                         is_Some (record_call data)) data_list.
Proof.
  intros Hrun. apply (buildTree_loop_built data_list [] [] tree keys Hrun).
  - constructor.
  - intros k. unfold get_data. simpl. rewrite lookup_empty.
    split; [by intros ?%elem_of_nil|by intros [? ?]].
Qed.

Lemma has_ski_get ski d : has_ski ski d = true → dict_get "ski" d = Some (JStr ski).
Proof.
  unfold has_ski. destruct (dict_get "ski" d) as [[| | |s| |]|]; try done.
  by intros ->%String.eqb_eq.
Qed.

Lemma first_record_some ski data_list d :
  first_record ski data_list = Some d →
  JDict d ∈ data_list ∧ tree_record d = true ∧ dict_get "ski" d = Some (JStr ski).
Proof.
  induction data_list as [|data rest IH]; simpl; [done|].
  assert (first_record ski rest = Some d →
          JDict d ∈ data :: rest ∧ tree_record d = true
          ∧ dict_get "ski" d = Some (JStr ski)) as Hrest.
  { intros H. destruct (IH H) as (? & ? & ?). split; [by right|done]. }
  destruct data as [| | |s|l|d']; try done.
  destruct (tree_record d' && has_ski ski d') eqn:E; [|done].
  intros [= ->]. apply andb_true_iff in E as [? ?%has_ski_get].
  split; [by left|done].
Qed.

(** The call in force for an SKI is the one of the first entry kept that
    carries it. *)
Lemma first_call_records ski data_list :
  Forall (λ data, ∀ d, data = JDict d → tree_record d = true →
                       is_Some (record_call data)) data_list →
  first_call ski (omap record_call data_list)
  = (λ d, (record_aki d, d)) <$> first_record ski data_list.
Proof.
  induction 1 as [|data rest Hdata _ IH]; [done|].
  cbn [omap list_omap first_record].
  destruct data as [| | |s|l|d]; try done.
  specialize (Hdata d eq_refl).
  assert (record_call (JDict d)
          = if tree_record d then
              match dict_get "ski" d with
              | Some (JStr ski) => Some (ski, record_aki d, d)
              | _ => None
              end
            else None) as Hcall by done.
  rewrite Hcall in *. clear Hcall.
  destruct (tree_record d); simpl; [|done].
  specialize (Hdata eq_refl). unfold has_ski.
  destruct (dict_get "ski" d) as [[| | |s| |]|]; try by destruct Hdata.
  simpl. rewrite IH. by destruct (String.eqb s ski).
Qed.

Lemma buildTree_loop_lookup data_list tree keys ski :
  buildTree_loop empty_tree [] data_list = Done (Ok (tree, keys)) →
  match first_record ski data_list with
  | Some d =>
      get_data tree ski = Some d ∧ get_parent tree ski = Some (record_parent ski d)
  | None => get_data tree ski = None
  end.
Proof.
  intros (-> & _ & _ & Hall)%buildTree_loop_tree.
  pose proof (lookup_first_call (omap record_call data_list) ski) as Hlook.
  rewrite (first_call_records _ _ Hall) in Hlook.
  destruct (first_record ski data_list) as [d|]; simpl in Hlook; [|done].
  destruct Hlook as [Hd Hp]. split; [done|]. rewrite Hp. f_equal.
  unfold record_parent, record_aki.
  destruct (dict_get "aki" d) as [[| | |a| |]|]; by repeat case_decide.
Qed.

(** X22. Of the entries of the archive, [buildTree] keeps for each SKI the
    first object of type [roa] or [ca_cert] that carries it: that entry
    is the node's data, and the node's parent is the entry's [aki], or
    the empty string when the entry has no [aki] or names itself. Later
    entries with the same SKI, entries of other types and entries
    without [type] leave no trace; an SKI no kept entry carries has no
    data. The tree is one that calls of [insert_node] build. *)
Theorem buildTree_first_record_wins (data_list : list json) (tree : PKITree)
    (keys : list string) :
  buildTree_loop empty_tree [] data_list = Done (Ok (tree, keys)) →
  (∃ calls, tree = build calls)
  ∧ ∀ ski,
      match first_record ski data_list with
      | Some d =>
          get_data tree ski = Some d
          ∧ get_parent tree ski = Some (record_parent ski d)
      | None => get_data tree ski = None
      end.
Proof.
  intros Hrun. split.
  - apply buildTree_loop_tree in Hrun as (-> & _). by eexists.
  - intros ski. by apply (buildTree_loop_lookup _ _ keys).
Qed.

Lemma buildTree_first_record_wins_witness :
  buildTree_loop empty_tree [] scenario_archive
  = Done (Ok (build (omap record_call scenario_archive), ["R"; "C"; "A"]))
  ∧ (∃ calls, build (omap record_call scenario_archive) = build calls)
  ∧ ∀ ski,
      match first_record ski scenario_archive with
      | Some d =>
          get_data (build (omap record_call scenario_archive)) ski = Some d
          ∧ get_parent (build (omap record_call scenario_archive)) ski
            = Some (record_parent ski d)
      | None => get_data (build (omap record_call scenario_archive)) ski = None
      end.
Proof.
  split; [vm_compute; reflexivity|].
  apply (buildTree_first_record_wins scenario_archive _ ["R"; "C"; "A"]).
  vm_compute. reflexivity.
Defined.

(** The second entry for [C] is ignored: [C] stays under [R]. *)
Example buildTree_scenario :
  ∃ tree keys,
    buildTree_loop empty_tree [] scenario_archive = Done (Ok (tree, keys))
    ∧ keys = ["R"; "C"; "A"]
    ∧ get_parent tree "C" = Some "R"
    ∧ get_children tree "R" = Some ["C"]
    ∧ get_children tree "A" = None.
Proof. eexists _, _. split; [vm_compute; reflexivity|]. repeat split. Qed.

Lemma buildTree_loop_records data_list tree keys ski d :
  buildTree_loop empty_tree [] data_list = Done (Ok (tree, keys)) →
  get_data tree ski = Some d →
  JDict d ∈ data_list
  ∧ dict_get "ski" d = Some (JStr ski)
  ∧ (dict_get "type" d = Some (JStr "roa") ∨ dict_get "type" d = Some (JStr "ca_cert")).
Proof.
  intros Hrun Hd. pose proof (buildTree_loop_lookup _ _ _ ski Hrun) as Hlook.
  destruct (first_record ski data_list) as [d'|] eqn:Hfirst; [|congruence].
  destruct Hlook as [Hd' _]. assert (d' = d) as -> by congruence.
  apply first_record_some in Hfirst as (? & ?%tree_record_type & ?). done.
Qed.

Lemma all_children_roa_typed t l :
  (∀ c, c ∈ l → ∃ d ty, get_data t c = Some d ∧ dict_get "type" d = Some ty) →
  ∃ b, all_children_roa t l = Ok b.
Proof.
  induction l as [|c l IH]; intros Hl; simpl; [eauto|].
  destruct (Hl c) as (d & ty & -> & Hty); [by left|]. simpl.
  rewrite (dict_item_get _ _ _ Hty). simpl.
  destruct (json_eqb ty (JStr "roa")); simpl; [|eauto].
  apply IH. intros c' Hc'. apply Hl. by right.
Qed.

(** X23. In a tree [buildTree] has built, the keys of [node_data] are
    distinct and are exactly the SKIs with data; the data of a node is an
    entry of the archive that carries the node's own SKI and whose type
    is [roa] or [ca_cert]; and [is_roa] and [is_end_node_certificate]
    raise for no SKI at all. *)
Theorem buildTree_nodes (data_list : list json) (tree : PKITree) (keys : list string) :
  buildTree_loop empty_tree [] data_list = Done (Ok (tree, keys)) →
  NoDup keys
  ∧ (∀ ski, ski ∈ keys ↔ is_Some (get_data tree ski))
  ∧ (∀ ski d, get_data tree ski = Some d →
       JDict d ∈ data_list
       ∧ dict_get "ski" d = Some (JStr ski)
       ∧ (dict_get "type" d = Some (JStr "roa")
          ∨ dict_get "type" d = Some (JStr "ca_cert")))
  ∧ ∀ ski, (∃ a, is_roa tree ski = Ok a)
           ∧ (∃ a, is_end_node_certificate tree ski = Ok a).
Proof.
  intros Hrun.
  pose proof (buildTree_loop_tree _ _ _ Hrun) as (Htree & Hnd & Hkeys & _).
  assert (Hrec : ∀ ski d, get_data tree ski = Some d →
            JDict d ∈ data_list
            ∧ dict_get "ski" d = Some (JStr ski)
            ∧ (dict_get "type" d = Some (JStr "roa")
               ∨ dict_get "type" d = Some (JStr "ca_cert"))).
  { intros ski d. by apply (buildTree_loop_records _ _ keys). }
  split; [done|]. split; [done|]. split; [done|].
  intros ski.
  assert (Htype : ∀ c d, get_data tree c = Some d → ∃ ty, dict_get "type" d = Some ty).
  { intros c d Hd. destruct (Hrec c d Hd) as (_ & _ & [?|?]); eauto. }
  unfold is_end_node_certificate, is_roa.
  destruct (get_data tree ski) as [d|] eqn:Hd; [|eauto].
  destruct (Htype _ _ Hd) as [ty Hty]. rewrite (dict_item_get _ _ _ Hty). simpl.
  split; [destruct (json_eqb ty (JStr "roa")); eauto|].
  destruct (json_eqb ty (JStr "roa")); simpl; [eauto|].
  destruct (get_children tree ski) as [l|] eqn:Hl; [|eauto].
  destruct (all_children_roa_typed tree l) as [b ->]; [|simpl; eauto].
  intros c Hc. pose proof (tree_inv_build (omap record_call data_list)) as Hinv.
  rewrite <- Htree in Hinv.
  destruct (inv_children _ Hinv ski l Hl) as [_ Hall].
  destruct (Hall c Hc) as [[d' Hd'] _].
  destruct (Htype c d' Hd') as [ty' Hty']. by exists d', ty'.
Qed.

Lemma buildTree_nodes_witness :
  buildTree_loop empty_tree [] scenario_archive
  = Done (Ok (build (omap record_call scenario_archive), ["R"; "C"; "A"]))
  ∧ NoDup ["R"; "C"; "A"]
  ∧ (∀ ski, ski ∈ ["R"; "C"; "A"]
            ↔ is_Some (get_data (build (omap record_call scenario_archive)) ski))
  ∧ (∀ ski d, get_data (build (omap record_call scenario_archive)) ski = Some d →
       JDict d ∈ scenario_archive
       ∧ dict_get "ski" d = Some (JStr ski)
       ∧ (dict_get "type" d = Some (JStr "roa")
          ∨ dict_get "type" d = Some (JStr "ca_cert")))
  ∧ ∀ ski, (∃ a, is_roa (build (omap record_call scenario_archive)) ski = Ok a)
           ∧ (∃ a, is_end_node_certificate
                     (build (omap record_call scenario_archive)) ski = Ok a).
Proof.
  split; [vm_compute; reflexivity|].
  apply (buildTree_nodes scenario_archive _ ["R"; "C"; "A"]).
  vm_compute. reflexivity.
Defined.

(** X24. The loop of [buildTree] over the archive raises only at an
    entry of type [roa] or [ca_cert] that has no [ski] ([KeyError]), at
    an entry that is not an object ([TypeError]), or at an entry of type
    [roa] or [ca_cert] whose [ski] or [aki] is a list or an object and
    so cannot be hashed ([TypeError]): an entry without [type], without
    [aki] or of another type never makes it fail. *)
Theorem buildTree_loop_raises (data_list : list json) (tree : PKITree)
    (keys : list string) (e : exn) :
  buildTree_loop tree keys data_list = Done (Raise e) →
  (e = KeyError
   ∧ ∃ d, JDict d ∈ data_list ∧ tree_record d = true ∧ dict_get "ski" d = None)
  ∨ (e = TypeError ∧ ∃ data, data ∈ data_list ∧ ∀ d, data ≠ JDict d)
  ∨ (e = TypeError
     ∧ ∃ d ski, JDict d ∈ data_list ∧ tree_record d = true
         ∧ dict_get "ski" d = Some ski
         ∧ (hashable ski = false
            ∨ ∃ aki, dict_get "aki" d = Some aki ∧ hashable aki = false)).
Proof.
  revert tree keys. induction data_list as [|data rest IH]; intros tree keys; [done|].
  rewrite buildTree_loop_cons.
  pose proof (buildTree_step_cases tree keys data) as Hstep.
  assert (Hrest : ∀ tree' keys', buildTree_loop tree' keys' rest = Done (Raise e) →
            (e = KeyError
             ∧ ∃ d, JDict d ∈ data :: rest ∧ tree_record d = true
                    ∧ dict_get "ski" d = None)
            ∨ (e = TypeError ∧ ∃ data', data' ∈ data :: rest ∧ ∀ d, data' ≠ JDict d)
            ∨ (e = TypeError
               ∧ ∃ d ski, JDict d ∈ data :: rest ∧ tree_record d = true
                   ∧ dict_get "ski" d = Some ski
                   ∧ (hashable ski = false
                      ∨ ∃ aki, dict_get "aki" d = Some aki ∧ hashable aki = false))).
  { intros tree' keys' Hrun.
    destruct (IH _ _ Hrun)
      as [[-> (d & ? & ? & ?)]|[[-> (data' & ? & ?)]|[-> (d & ski & ? & ? & ? & ?)]]].
    - left. split; [done|]. exists d. split; [by right|done].
    - right. left. split; [done|]. exists data'. split; [by right|done].
    - right. right. split; [done|]. exists d, ski. split; [by right|done]. }
  destruct data as [| | |s|l|d];
    try (destruct Hstep as [->| ->];
         [apply Hrest
         |intros [= <-]; right; left; split; [done|]; eexists; split; [by left|done]]).
  destruct (tree_record d) eqn:Htr; [|rewrite Hstep; apply Hrest].
  destruct (dict_get "ski" d) as [skiv|] eqn:Hski.
  - rewrite Hstep.
    destruct (insert_entry tree keys skiv _ d) as [[[tree1 keys1]|e']| |] eqn:Hins;
      [apply Hrest| |done..].
    intros [= ->]. apply insert_entry_raises in Hins as [-> Hkey].
    right. right. split; [done|]. exists d, skiv.
    split; [by left|]. split; [done|]. split; [done|].
    destruct Hkey as [?|Haki]; [by left|]. right.
    destruct (dict_get "aki" d) as [aki|]; [by exists aki|done].
  - rewrite Hstep. intros [= <-]. left. split; [done|]. exists d. split; [by left|done].
Qed.

Lemma buildTree_loop_raises_witness :
  buildTree_loop empty_tree [] [JDict [("type", JStr "roa"); ("ski", JList [JStr "a"])]]
  = Done (Raise TypeError)
  ∧ ((TypeError = KeyError
      ∧ ∃ d, JDict d ∈ [JDict [("type", JStr "roa"); ("ski", JList [JStr "a"])]]
             ∧ tree_record d = true ∧ dict_get "ski" d = None)
     ∨ (TypeError = TypeError
        ∧ ∃ data, data ∈ [JDict [("type", JStr "roa"); ("ski", JList [JStr "a"])]]
                  ∧ ∀ d, data ≠ JDict d)
     ∨ (TypeError = TypeError
        ∧ ∃ d ski, JDict d ∈ [JDict [("type", JStr "roa"); ("ski", JList [JStr "a"])]]
            ∧ tree_record d = true
            ∧ dict_get "ski" d = Some ski
            ∧ (hashable ski = false
               ∨ ∃ aki, dict_get "aki" d = Some aki ∧ hashable aki = false))).
Proof.
  split; [reflexivity|].
  exact (buildTree_loop_raises [JDict [("type", JStr "roa"); ("ski", JList [JStr "a"])]]
           empty_tree [] TypeError eq_refl).
Defined.

(** A kept entry without [ski] raises [KeyError]; a second entry for an
    SKI is ignored before its [aki] is looked at, whatever that is. *)
Example buildTree_loop_edge_entries :
  buildTree_loop empty_tree [] [JDict [("type", JStr "roa"); ("aki", JStr "C")]]
  = Done (Raise KeyError)
  ∧ buildTree_loop empty_tree []
      [JDict [("type", JStr "ca_cert"); ("ski", JStr "K")];
       JDict [("type", JStr "roa"); ("ski", JStr "K"); ("aki", JList [])]]
    = Done (Ok (build [("K", "", [("type", JStr "ca_cert"); ("ski", JStr "K")])], ["K"]))
  ∧ buildTree_loop empty_tree []
      [JDict [("type", JStr "roa"); ("ski", JStr "K"); ("aki", JList [])]]
    = Done (Raise TypeError).
Proof. repeat split; vm_compute; reflexivity. Qed.

(** The loop over the archive needs no fuel. *)
Lemma buildTree_loop_fuel data_list : ∀ tree keys,
  buildTree_loop tree keys data_list ≠ OutOfFuel.
Proof.
  induction data_list as [|data rest IH]; intros t k; [done|].
  rewrite buildTree_loop_cons.
  pose proof (buildTree_step_cases t k data) as Hstep.
  destruct data as [| | |s|l|d]; try (destruct Hstep as [->| ->]; [apply IH|done]).
  destruct (tree_record d); [|rewrite Hstep; apply IH].
  destruct (dict_get "ski" d) as [skiv|]; [|by rewrite Hstep].
  rewrite Hstep.
  pose proof (insert_entry_fuel t k skiv (default (JStr EmptyString) (dict_get "aki" d)) d).
  destruct (insert_entry t k skiv _ d) as [[[tree1 keys1]|e']| |]; [apply IH|done..].
Qed.

Section BuildTreeProps.
Variable PyTricia : Type.
Variable pyt_new4 pyt_new6 : PyTricia.
Variable pyt_setitem : PyTricia → json → string → result PyTricia.
Variable cidr_of : json → json → result (list string).

Local Abbreviation buildTree' := (buildTree pyt_new4 pyt_new6 pyt_setitem cidr_of).
Local Abbreviation index_entries' := (index_entries pyt_new4 pyt_new6 pyt_setitem cidr_of).

Lemma indexable_ca_cert t node d :
  get_data t node = Some d →
  dict_get "type" d = Some (JStr "roa") ∨ dict_get "type" d = Some (JStr "ca_cert") →
  indexable t node
  ↔ dict_get "type" d = Some (JStr "ca_cert") ∧ is_rir_owned_rc t node = Ok (Some false).
Proof.
  intros Hd Hty. unfold indexable.
  assert (Hrir : (∃ rir, is_rir_owned_rc t node = Ok rir ∧ truthy rir = false)
                 ↔ is_rir_owned_rc t node = Ok (Some false)).
  { split; [|intros ->; by eexists]. intros (rir & Hr & Htr). rewrite Hr.
    destruct rir as [[|]|]; try done. exfalso.
    unfold is_rir_owned_rc in Hr. rewrite Hd in Hr.
    destruct (dict_has "tal" d); [done|].
    remember (any_hit d hit_list) as found.
    destruct (is_roa t node) as [roa|]; simpl in Hr; [|done].
    destruct (truthy roa); [done|]. by destruct found. }
  rewrite Hrir. unfold is_roa. rewrite Hd.
  destruct Hty as [Hty|Hty]; rewrite Hty, (dict_item_get _ _ _ Hty); simpl.
  - split; [|by intros [[=] _]]. by intros [(roa & [= <-] & ?) _].
  - split; [by intros [_ ?]|]. intros [_ ?]. split; [by eexists|done].
Qed.

(** X25. [buildTree] always returns (two units of fuel are enough for each
    node). When it does not raise, the three caches it fills have the
    same keys: exactly the SKIs whose entry is of type [ca_cert] and that
    [is_rir_owned_rc] answers [False] for; ROAs and RIR-owned
    certificates are not indexed, and each key holds what
    [get_resource_list] gives for that node alone. *)
Theorem buildTree_index (fuel : nat) (data_list : list json) :
  buildTree' (S (S fuel)) data_list ≠ OutOfFuel
  ∧ ∀ tree res, buildTree' (S (S fuel)) data_list = Done (Ok (tree, res)) →
      index_entries' tree res
      ∧ ∀ node, node ∈ map fst (resource_dict_asn res)
                ↔ ∃ d, get_data tree node = Some d
                       ∧ dict_get "type" d = Some (JStr "ca_cert")
                       ∧ is_rir_owned_rc tree node = Ok (Some false).
Proof.
  unfold buildTree.
  destruct (buildTree_loop empty_tree [] data_list) as [[[tree keys]|e]| |] eqn:Hloop.
  2,3: by split.
  2:{ by apply buildTree_loop_fuel in Hloop. }
  destruct (populate_total _ pyt_new4 pyt_new6 pyt_setitem cidr_of fuel tree keys no_resources)
    as [r Hr].
  rewrite Hr. split; [by destruct r|].
  intros tree' res Hres. destruct r as [res'|e]; [|done].
  injection Hres as <- <-.
  destruct (populate_invariant _ pyt_new4 pyt_new6 pyt_setitem cidr_of
              (λ _ _, Ok false) (λ _, Ok 0) fuel tree keys no_resources res' Hr
              (index_entries_empty _ pyt_new4 pyt_new6 pyt_setitem cidr_of tree))
    as [Hinv Hkeys].
  split; [done|]. intros node. rewrite Hkeys. simpl.
  destruct (buildTree_loop_tree _ _ _ Hloop) as (_ & _ & Hk & _).
  split.
  - intros [?%elem_of_nil|[Hin Hix]]; [done|].
    apply Hk in Hin as [d Hd]. exists d. split; [done|].
    destruct (buildTree_loop_records _ _ _ _ _ Hloop Hd) as (_ & _ & Hty).
    by apply (indexable_ca_cert tree node d).
  - intros (d & Hd & Hty & Hrir). right. split; [apply Hk; by eexists|].
    apply (indexable_ca_cert tree node d); auto.
Qed.

End BuildTreeProps.

(** The archive of the scenario gives the scenario's tree and index. *)
Example buildTree_scenario_index :
  ∃ tree,
    buildTree ∅ ∅ trie_setitem cidr_text 2 scenario_archive
    = Done (Ok (tree, scenario_index))
    ∧ get_path 4 tree "A" = Some (Ok ["A"; "C"; "R"]).
Proof. eexists. split; vm_compute; reflexivity. Qed.

(** ** [get_root_dict] *)

Lemma find_snoc {A} (f : A → bool) l x :
  find f (l ++ [x])
  = match find f l with
    | Some y => Some y
    | None => if f x then Some x else None
    end.
Proof.
  induction l as [|y l IH]; simpl; [done|]. by destruct (f y).
Qed.

Section RootsProps.
Variable py_upper : string → string.

Local Abbreviation get_root_dict' := (get_root_dict py_upper).
Local Abbreviation step' := (get_root_dict_step py_upper).
Local Abbreviation names_root' := (names_root py_upper).

Lemma get_root_dict_step_lookup acc item acc' tal :
  step' acc item = Ok acc' →
  dict_get tal acc' = if names_root' tal item then Some item.1 else dict_get tal acc.
Proof.
  destruct item as [ski data]. unfold get_root_dict_step, names_root, dict_has, dict_item.
  simpl. destruct (dict_get "tal" data) as [v|]; [|intros [= <-]; by rewrite andb_false_r].
  destruct (0 <? String.length ski)%nat; [|by intros [= <-]].
  simpl. destruct v as [| | |s| |]; try done. simpl. intros [= <-].
  rewrite dict_get_set, String.eqb_sym. done.
Qed.

Lemma get_root_dict_fold items : ∀ acc root_dict tal,
  foldM step' acc items = Ok root_dict →
  dict_get tal root_dict
  = match find (names_root' tal) (rev items) with
    | Some item => Some item.1
    | None => dict_get tal acc
    end.
Proof.
  induction items as [|item rest IH]; intros acc root_dict tal; simpl.
  - by intros [= <-].
  - intros (acc' & Hstep & Hrest)%bind_ok_inv.
    rewrite (IH _ _ tal Hrest), find_snoc.
    destruct (find (names_root' tal) (rev rest)); [done|].
    rewrite (get_root_dict_step_lookup _ _ _ tal Hstep).
    by destruct (names_root py_upper tal item).
Qed.

Lemma get_root_dict_find items root_dict tal :
  get_root_dict' items = Ok root_dict →
  dict_get tal root_dict = fst <$> find (names_root' tal) (rev items).
Proof.
  intros Hrun. rewrite (get_root_dict_fold _ _ _ tal Hrun).
  by destruct (find _ _).
Qed.

(** X26. Last root wins: the dict [get_root_dict] returns maps a name to
    the SKI of the last item of [node_data] that has a non-empty SKI and
    a [tal] reading that name in upper case; a name no such item carries
    is not a key. (So, unlike [insert_node], a later root with the same
    name up to case replaces an earlier one.) *)
Theorem get_root_dict_last_wins (items : list (string * dict))
    (root_dict : list (string * string)) (tal : string) :
  get_root_dict' items = Ok root_dict →
  dict_get tal root_dict = fst <$> find (names_root' tal) (rev items).
Proof. apply get_root_dict_find. Qed.

(** X27. Every root [get_root_dict] lists for the nodes of a tree is a
    non-empty SKI among the keys whose record carries the [tal], and
    [is_rir_owned_rc] answers [True] for it. *)
Theorem get_root_dict_rir_owned (t : PKITree) (keys : list string)
    (root_dict : list (string * string)) (tal ski : string) :
  get_root_dict' (node_items t keys) = Ok root_dict →
  dict_get tal root_dict = Some ski →
  ski ≠ EmptyString
  ∧ ski ∈ keys
  ∧ (∃ d s, get_data t ski = Some d ∧ dict_get "tal" d = Some (JStr s)
            ∧ py_upper s = tal)
  ∧ is_rir_owned_rc t ski = Ok (Some true).
Proof.
  intros Hrun Hget. rewrite (get_root_dict_find _ _ tal Hrun) in Hget.
  destruct (find _ _) as [[ski' d]|] eqn:Hfind; [|done]. injection Hget as ->.
  apply find_some in Hfind as [Hin Hname].
  apply in_rev, list_elem_of_In in Hin. unfold node_items in Hin.
  apply list_elem_of_omap in Hin as (k & Hk & Hitem).
  destruct (get_data t k) as [d'|] eqn:Hd; [|done]. injection Hitem as -> ->.
  unfold names_root in Hname. simpl in Hname.
  apply andb_true_iff in Hname as [Hlen Htal].
  destruct (dict_get "tal" d) as [[| | |s| |]|] eqn:Hs; try done.
  apply String.eqb_eq in Htal.
  split; [by intros ->|]. split; [done|]. split; [by exists d, s|].
  unfold is_rir_owned_rc, dict_has. by rewrite Hd, Hs.
Qed.

End RootsProps.

Lemma get_root_dict_last_wins_witness :
  get_root_dict upper_ascii two_roots = Ok [("TEST", "S")]
  ∧ dict_get "TEST" [("TEST", "S")]
    = fst <$> find (names_root upper_ascii "TEST") (rev two_roots).
Proof.
  split; [reflexivity|].
  exact (get_root_dict_last_wins upper_ascii two_roots [("TEST", "S")] "TEST" eq_refl).
Defined.

Lemma get_root_dict_rir_owned_witness :
  get_root_dict upper_ascii (node_items scenario_tree ["R"; "C"; "A"]) = Ok [("TEST", "R")]
  ∧ dict_get "TEST" [("TEST", "R")] = Some "R"
  ∧ "R" ≠ EmptyString
  ∧ "R" ∈ ["R"; "C"; "A"]
  ∧ (∃ d s, get_data scenario_tree "R" = Some d ∧ dict_get "tal" d = Some (JStr s)
            ∧ upper_ascii s = "TEST")
  ∧ is_rir_owned_rc scenario_tree "R" = Ok (Some true).
Proof.
  split; [vm_compute; reflexivity|]. split; [reflexivity|].
  apply (get_root_dict_rir_owned upper_ascii scenario_tree ["R"; "C"; "A"]
           [("TEST", "R")] "TEST" "R"); [vm_compute; reflexivity|reflexivity].
Defined.

(** ** [get_ca_domain] *)

Lemma split_head_no_sep c s :
  str_contains (String c EmptyString) (split_head c s) = false.
Proof.
  induction s as [|a s IH]; [done|]. simpl split_head.
  destruct (Ascii.eqb a c) eqn:E; [done|].
  by rewrite str_contains_char_cons, Ascii.eqb_sym, E, IH.
Qed.

Lemma app_string_cons c s t : String c s +:+ t = String c (s +:+ t).
Proof. done. Qed.

Lemma app_string_nil t : EmptyString +:+ t = t.
Proof. done. Qed.

Lemma is_prefix_cons a p b s :
  is_prefix (String a p) (String b s) = Ascii.eqb a b && is_prefix p s.
Proof. done. Qed.

(** No occurrence of the scheme starts inside a host name. *)
Lemma is_prefix_scheme host rest :
  str_contains ":" host = false →
  is_prefix "rsync://" (host +:+ String "/" rest) = false.
Proof.
  intros Hcolon.
  destruct host as [|c0 [|c1 [|c2 [|c3 [|c4 [|c5 host]]]]]];
    rewrite ?app_string_cons, ?app_string_nil, !is_prefix_cons.
  - done.
  - change (Ascii.eqb "s" "/") with false. by rewrite !andb_false_r.
  - change (Ascii.eqb "y" "/") with false. by rewrite !andb_false_r.
  - change (Ascii.eqb "n" "/") with false. by rewrite !andb_false_r.
  - change (Ascii.eqb "c" "/") with false. by rewrite !andb_false_r.
  - change (Ascii.eqb ":" "/") with false. by rewrite !andb_false_r.
  - rewrite !str_contains_char_cons in Hcolon.
    do 5 (apply orb_false_iff in Hcolon as [_ Hcolon]).
    apply orb_false_iff in Hcolon as [Hc5 _].
    rewrite Hc5. by rewrite !andb_false_r.
Qed.

Lemma replace_scheme_host host rest :
  str_contains ":" host = false → str_contains "/" host = false →
  split_head "/" (replace_from "rsync://" "" (host +:+ String "/" rest) 0) = host.
Proof.
  induction host as [|c host IH]; intros Hcolon Hslash; [done|].
  pose proof (is_prefix_scheme (String c host) rest Hcolon) as Hpre.
  rewrite str_contains_char_cons in Hcolon, Hslash.
  apply orb_false_iff in Hcolon as [_ Hcolon].
  apply orb_false_iff in Hslash as [Hc Hslash].
  rewrite app_string_cons in *.
  cbn [replace_from]. rewrite Hpre. cbn [split_head].
  rewrite Ascii.eqb_sym, Hc. by rewrite IH.
Qed.

(** X28. The CA domain is the host of the repository URL: when the field
    [get_ca_domain] reads ([carepository] if the record has it, [file]
    otherwise) is a string made of an optional [rsync://], a host name
    without colon or slash, a slash and anything after it, the function
    returns that host name. *)
Theorem get_ca_domain_host (t : PKITree) (ski : string) (data : dict)
    (scheme host rest : string) :
  get_data t ski = Some data →
  (if dict_has "carepository" data then dict_get "carepository" data
   else dict_get "file" data) = Some (JStr (scheme +:+ host +:+ String "/" rest)) →
  scheme = EmptyString ∨ scheme = "rsync://" →
  str_contains ":" host = false → str_contains "/" host = false →
  get_ca_domain t ski = Ok host.
Proof.
  intros Hd Hfield Hscheme Hcolon Hslash. unfold get_ca_domain. rewrite Hd.
  assert ((if dict_has "carepository" data then dict_item data "carepository"
           else dict_item data "file")
          = Ok (JStr (scheme +:+ host +:+ String "/" rest))) as ->.
  { destruct (dict_has "carepository" data); by apply dict_item_get. }
  simpl. f_equal. unfold str_replace.
  destruct Hscheme as [-> | ->].
  - by apply replace_scheme_host.
  - change ("rsync://" +:+ host +:+ String "/" rest)
      with (String "r" (String "s" (String "y" (String "n" (String "c"
             (String ":" (String "/" (String "/" (host +:+ String "/" rest))))))))).
    cbn [replace_from is_prefix Ascii.eqb Bool.eqb andb String.length Nat.sub].
    simpl String.append. by apply replace_scheme_host.
Qed.

Lemma get_ca_domain_host_witness :
  get_data scenario_tree "C"
  = Some (ca_record "C" "R" [JDict [("ip_prefix", JStr "10.1.0.0/16")]])
  ∧ (if dict_has "carepository" (ca_record "C" "R" [JDict [("ip_prefix", JStr "10.1.0.0/16")]])
     then dict_get "carepository" (ca_record "C" "R" [JDict [("ip_prefix", JStr "10.1.0.0/16")]])
     else dict_get "file" (ca_record "C" "R" [JDict [("ip_prefix", JStr "10.1.0.0/16")]]))
    = Some (JStr ("" +:+ "rpki.example.net" +:+ String "/" "repo/C.cer"))
  ∧ (("" : string) = EmptyString ∨ ("" : string) = "rsync://")
  ∧ str_contains ":" "rpki.example.net" = false
  ∧ str_contains "/" "rpki.example.net" = false
  ∧ get_ca_domain scenario_tree "C" = Ok "rpki.example.net".
Proof.
  split; [reflexivity|]. split; [reflexivity|]. split; [by left|].
  split; [reflexivity|]. split; [reflexivity|].
  apply (get_ca_domain_host scenario_tree "C"
           (ca_record "C" "R" [JDict [("ip_prefix", JStr "10.1.0.0/16")]])
           "" "rpki.example.net" "repo/C.cer");
    [reflexivity|reflexivity|by left|reflexivity|reflexivity].
Defined.

(** With a [carepository] the host is taken from there, scheme removed. *)
Example get_ca_domain_carepository :
  get_ca_domain
    (build [("K", "", [("type", JStr "ca_cert");
                       ("file", JStr "a.example/x.cer");
                       ("carepository", JStr "rsync://repo.example.org/ta/")])]) "K"
  = Ok "repo.example.org".
Proof. reflexivity. Qed.

(** X29. Whatever [get_ca_domain] returns holds no slash. *)
Theorem get_ca_domain_no_slash (t : PKITree) (ski domain : string) :
  get_ca_domain t ski = Ok domain → str_contains "/" domain = false.
Proof.
  unfold get_ca_domain. destruct (get_data t ski) as [data|]; [|done].
  intros (url & _ & (s & _ & [= <-])%bind_ok_inv)%bind_ok_inv.
  apply split_head_no_sep.
Qed.

Lemma get_ca_domain_no_slash_witness :
  get_ca_domain scenario_tree "R" = Ok "rpki.example.net"
  ∧ str_contains "/" "rpki.example.net" = false.
Proof.
  split; [reflexivity|].
  exact (get_ca_domain_no_slash scenario_tree "R" "rpki.example.net" eq_refl).
Defined.
